(** * Bounded multi-source shortest paths (BMSSP): the C and C++ engines

    A shallow embedding of [impls/c/src/main.c] and [impls/cpp/src/main.cpp]:
    the hand-written binary heap of the C program, the [std::priority_queue]
    over [Entry::operator<] of the C++ program, the CSR graph builders and
    loaders, the source selectors and the bounded Dijkstra loop shared by
    both programs.

    Conventions.
    - [uint64_t]/[U64] values (distances, weights, the bound) are [Z] in
      [0, 2^64); the one arithmetic operation on them, [nd = d + w], wraps
      with [wrap64].
    - node ids, array indices and sizes ([uint32_t], [size_t]) are [nat];
      where the source narrows a size to 32 bits the model writes the
      [mod 2^32] out.
    - an array access outside the array is undefined behaviour in both
      languages; the model returns [Undefined] there.
    - [while] loops whose trip count is not bounded by a counter take a
      [fuel] argument and return [OutOfFuel] when it runs out. *)

From Stdlib Require Import ZArith Lia ZifyNat.
From stdpp Require Import base list.
From Equations Require Import Equations.

Ltac Zify.zify_post_hook ::= Z.to_euclidean_division_equations.

(** ** Machine integers *)

Definition U64_MAX : Z := 2 ^ 64 - 1.
Definition wrap64 (z : Z) : Z := z mod 2 ^ 64.
Definition wrap32 (k : nat) : nat := Z.to_nat (Z.of_nat k mod 2 ^ 32).

(** ** Outcomes of a computation *)

Inductive outcome (A : Type) : Type :=
| Done (a : A)
| Undefined
| OutOfFuel.
Arguments Done {A} a.
Arguments Undefined {A}.
Arguments OutOfFuel {A}.

#[global] Instance outcome_bind : MBind outcome := λ A B f o,
  match o with
  | Done a => f a
  | Undefined => Undefined
  | OutOfFuel => OutOfFuel
  end.

(** [a[i]] as an r-value: undefined behaviour outside the array. *)
Definition at_index {A} (l : list A) (i : nat) : outcome A :=
  match l !! i with
  | Some x => Done x
  | None => Undefined
  end.

(** ** Data model: [Entry], [Edge], [Graph] *)

Module Entry.
Record t := mk { d : Z; v : nat }.
End Entry.

Module Edge.
Record t := mk { to : nat; w : Z }.
End Edge.

Module Graph.
Record t := mk { head : list nat; edges : list Edge.t; n : nat; m : nat }.
End Graph.

#[global] Instance Entry_inhabited : Inhabited Entry.t := populate (Entry.mk 0 0).

(** ** The C heap: [heap_init], [heap_push], [heap_pop]

    A [Heap] is modelled by its live prefix [data[0..n)]; the capacity
    doubling of [heap_push] does not show in it. *)

Lemma parent_lt (i : nat) : i ≠ 0 → (i - 1) / 2 < i.
Proof. lia. Qed.

Lemma child_measure (n i mi : nat) : i * 2 + 1 ≤ mi → mi < n → n - mi < n - i.
Proof. lia. Qed.

Definition heap_init : list Entry.t := [].

(** [while(i){ p=(i-1)/2; if(data[p].d<=e.d) break; data[i]=data[p]; i=p; }
    data[i]=e;] *)
Equations sift_up (data : list Entry.t) (e : Entry.t) (i : nat) : list Entry.t
  by wf i lt :=
  sift_up data e i with decide (i = 0) := {
    | left _ => <[i := e]> data
    | right _ =>
        if Z.leb (Entry.d (data !!! ((i - 1) / 2))) (Entry.d e)
        then <[i := e]> data
        else sift_up (<[i := data !!! ((i - 1) / 2)]> data) e ((i - 1) / 2) }.
Next Obligation. by apply parent_lt. Qed.

Definition heap_push (h : list Entry.t) (e : Entry.t) : list Entry.t :=
  sift_up (h ++ [e]) e (length h).

(** [m=(r<h->n && data[r].d<data[l].d)? r:l] *)
Definition min_child (data : list Entry.t) (n l : nat) : nat :=
  if decide (l + 1 < n) then
    if Z.ltb (Entry.d (data !!! (l + 1))) (Entry.d (data !!! l)) then l + 1 else l
  else l.

Lemma min_child_range data n l : l ≤ min_child data n l ≤ l + 1.
Proof. unfold min_child. repeat case_match; lia. Qed.

Lemma min_child_lt data n l : l < n → min_child data n l < n.
Proof. unfold min_child. repeat case_match; lia. Qed.

(** [while(1){ l=i*2+1, r=l+1; if(l>=h->n) break; m=...;
    if(data[m].d>=x.d) break; data[i]=data[m]; i=m; } data[i]=x;] *)
Equations sift_down (data : list Entry.t) (n : nat) (x : Entry.t) (i : nat) :
  list Entry.t by wf (n - i) lt :=
  sift_down data n x i with decide (n ≤ i * 2 + 1) := {
    | left _ => <[i := x]> data
    | right _ =>
        if Z.leb (Entry.d x) (Entry.d (data !!! min_child data n (i * 2 + 1)))
        then <[i := x]> data
        else sift_down (<[i := data !!! min_child data n (i * 2 + 1)]> data) n x
               (min_child data n (i * 2 + 1)) }.
Next Obligation.
  apply child_measure.
  - apply min_child_range.
  - apply min_child_lt. lia.
Qed.

(** [heap_pop] returns [None] for the C result [0] (nothing is written to
    [*out]) and [Some (out, h')] for [1]. *)
Definition heap_pop (h : list Entry.t) : option (Entry.t * list Entry.t) :=
  match h with
  | [] => None
  | out :: _ =>
      let n := length h - 1 in
      let x := h !!! n in
      Some (out, sift_down (take n h) n x 0)
  end.

(** ** The C++ queue: [std::priority_queue<Entry>] over [Entry::operator<]

    [bool operator<(Entry const& o) const
       { if(d!=o.d) return d>o.d; return v>o.v; }] *)
Definition entry_lt (a o : Entry.t) : bool :=
  if negb (Entry.d a =? Entry.d o)%Z then (Entry.d o <? Entry.d a)%Z
  else Nat.ltb (Entry.v o) (Entry.v a).

(** [std::priority_queue] is library code: it is modelled by its contract,
    [top()] is an element that is not [<] any other, and [pop()] removes it.
    [extract_top x q] scans [x :: q] for that element. *)
Fixpoint extract_top (x : Entry.t) (q : list Entry.t) : Entry.t * list Entry.t :=
  match q with
  | [] => (x, [])
  | y :: r =>
      if entry_lt x y
      then let '(t, r') := extract_top y r in (t, x :: r')
      else let '(t, r') := extract_top x r in (t, y :: r')
  end.

Definition priority_queue_push (q : list Entry.t) (e : Entry.t) : list Entry.t :=
  e :: q.

Definition priority_queue_pop (q : list Entry.t) : option (Entry.t * list Entry.t) :=
  match q with
  | [] => None
  | x :: r => Some (extract_top x r)
  end.

(** ** The queue interface the engine is written against *)

Class PriorityQueue (Q : Type) := {
  pq_empty : Q;
  pq_push : Q → Entry.t → Q;
  pq_pop : Q → option (Entry.t * Q);
}.

Definition c_heap : PriorityQueue (list Entry.t) :=
  {| pq_empty := heap_init; pq_push := heap_push; pq_pop := heap_pop |}.

Definition cpp_priority_queue : PriorityQueue (list Entry.t) :=
  {| pq_empty := []; pq_push := priority_queue_push; pq_pop := priority_queue_pop |}.

(** ** The engine *)

(** Ghost trace of what a run observes, oldest event first: every entry
    taken off the queue (with the outcome of the staleness check) and every
    relaxation candidate [nd] computed. *)
Inductive event :=
| EvPop (d : Z) (v : nat) (fresh : bool)
| EvCand (nd : Z).

Section Engine.
Context {Q : Type} {PQ : PriorityQueue Q}.
(** modulus of the counters: [uint32_t] in C, [size_t] in C++ *)
Variable cmod : Z.
Variable g : Graph.t.
Variable B : Z.

Record State := mkState {
  dist : list Z;
  pq : Q;
  b_prime : Z;
  popped : Z;
  heap_pushes : Z;
  edges_scanned : Z;
  trace : list event;
}.

Definition incr (c : Z) : Z := ((c + 1) mod cmod)%Z.

(** Body of the edge loop:
    [edges_scanned++; to=edges[ei].to; nd=d+edges[ei].w;
     if(nd<dist[to] && nd<B){ dist[to]=nd; push({nd,to}); heap_pushes++; }
     else if(nd>=B && nd<b_prime) b_prime=nd;] *)
Definition relax_edge (d : Z) (e : Edge.t) (st : State) : outcome State :=
  let nd := wrap64 (d + Edge.w e) in
  dto ← at_index (dist st) (Edge.to e);
  let tr := trace st ++ [EvCand nd] in
  if ((nd <? dto) && (nd <? B))%Z then
    Done (mkState (<[Edge.to e := nd]> (dist st))
                  (pq_push (pq st) (Entry.mk nd (Edge.to e)))
                  (b_prime st) (popped st) (incr (heap_pushes st))
                  (incr (edges_scanned st)) tr)
  else if ((B <=? nd) && (nd <? b_prime st))%Z then
    Done (mkState (dist st) (pq st) nd (popped st) (heap_pushes st)
                  (incr (edges_scanned st)) tr)
  else
    Done (mkState (dist st) (pq st) (b_prime st) (popped st) (heap_pushes st)
                  (incr (edges_scanned st)) tr).

(** [for(ei=beg; ei<end; ei++)], [cnt] iterations left *)
Fixpoint relax (cnt ei : nat) (d : Z) (st : State) : outcome State :=
  match cnt with
  | 0 => Done st
  | S cnt' =>
      e ← at_index (Graph.edges g) ei;
      st' ← relax_edge d e st;
      relax cnt' (S ei) d st'
  end.

(** One iteration of [while(heap_pop(&h,&cur))] / [while(!pq.empty())]:
    [inl] goes round again ([continue] or the end of the body), [inr]
    leaves the loop (empty queue or [break]). *)
Definition loop_body (st : State) : outcome (State + State) :=
  match pq_pop (pq st) with
  | None => Done (inr st)
  | Some (cur, q') =>
      let d := Entry.d cur in
      let v := Entry.v cur in
      dv ← at_index (dist st) v;
      if negb (d =? dv)%Z then
        Done (inl (mkState (dist st) q' (b_prime st) (popped st) (heap_pushes st)
                           (edges_scanned st) (trace st ++ [EvPop d v false])))
      else if (B <=? d)%Z then
        Done (inr (mkState (dist st) q' d (popped st) (heap_pushes st)
                           (edges_scanned st) (trace st ++ [EvPop d v true])))
      else
        beg ← at_index (Graph.head g) v;
        en ← at_index (Graph.head g) (v + 1);
        st' ← relax (en - beg) beg d
                (mkState (dist st) q' (b_prime st) (incr (popped st))
                         (heap_pushes st) (edges_scanned st)
                         (trace st ++ [EvPop d v true]));
        Done (inl st')
  end.

Fixpoint main_loop (fuel : nat) (st : State) : outcome State :=
  match fuel with
  | 0 => OutOfFuel
  | S fuel' =>
      r ← loop_body st;
      match r with
      | inl st' => main_loop fuel' st'
      | inr st' => Done st'
      end
  end.

(** State at the top of a trial, before the sources are entered:
    [dist[i]=UINT64_MAX] for all [i], an empty queue; [b_prime] and the
    counters are initialised after the sources in the source text, which
    makes no difference since entering the sources does not touch them. *)
Definition start : State :=
  mkState (replicate (Graph.n g) U64_MAX) pq_empty U64_MAX 0 0 0 [].

(** C++: [for(auto [s,d0]: src){ if(d0<B){ dist[s]=d0; pq.push({d0,s}); } }] *)
Definition cpp_enter (st : State) (sd : nat * Z) : outcome State :=
  let '(s, d0) := sd in
  if (d0 <? B)%Z then
    if decide (s < length (dist st)) then
      Done (mkState (<[s := d0]> (dist st)) (pq_push (pq st) (Entry.mk d0 s))
                    (b_prime st) (popped st) (heap_pushes st)
                    (edges_scanned st) (trace st))
    else Undefined
  else Done st.

(** C: [for(i=0;i<k;i++){ s=sources[i]; dist[s]=0; heap_push(&h,(Entry){0,s}); }] *)
Definition c_enter (st : State) (s : nat) : outcome State :=
  if decide (s < length (dist st)) then
    Done (mkState (<[s := 0%Z]> (dist st)) (pq_push (pq st) (Entry.mk 0 s))
                  (b_prime st) (popped st) (heap_pushes st)
                  (edges_scanned st) (trace st))
  else Undefined.

Fixpoint enter_all {S : Type} (enter : State → S → outcome State)
    (src : list S) (st : State) : outcome State :=
  match src with
  | [] => Done st
  | s :: rest => st' ← enter st s; enter_all enter rest st'
  end.
End Engine.

Arguments State Q : clear implicits.
Arguments mkState {Q}.
Arguments dist {Q}.
Arguments pq {Q}.
Arguments b_prime {Q}.
Arguments popped {Q}.
Arguments heap_pushes {Q}.
Arguments edges_scanned {Q}.
Arguments trace {Q}.

(** One trial of the C++ program: the body of [for(int t=0;t<trials;t++)]
    up to the end of the [while] loop. *)
Definition cpp_trial (fuel : nat) (g : Graph.t) (src : list (nat * Z)) (B : Z) :
    outcome (State (list Entry.t)) :=
  st ← enter_all (cpp_enter (PQ := cpp_priority_queue) B) src
       (start (PQ := cpp_priority_queue) g);
  main_loop (PQ := cpp_priority_queue) (2 ^ 64)%Z g B fuel st.

(** One trial of the C program. *)
Definition c_trial (fuel : nat) (g : Graph.t) (sources : list nat) (B : Z) :
    outcome (State (list Entry.t)) :=
  st ← enter_all (c_enter (PQ := c_heap)) sources (start (PQ := c_heap) g);
  main_loop (PQ := c_heap) (2 ^ 32)%Z g B fuel st.

(** the node ids [sources] as sources at distance 0 *)
Definition at_zero (sources : list nat) : list (nat * Z) :=
  (λ s, (s, 0%Z)) <$> sources.

(** ** Input files

    A text file is modelled by its sequence of whitespace-separated tokens;
    [None] stands for a path that cannot be opened.  [Num z] is a token a
    numeric conversion accepts, with the value it yields; [Junk] is any
    other token. *)
Inductive token :=
| Num (z : Z)
| Junk.

(** one numeric conversion of [fscanf] / [operator>>] *)
Definition scan (toks : list token) : option (Z * list token) :=
  match toks with
  | Num z :: rest => Some (z, rest)
  | _ => None
  end.

(** *** C: [read_sources_file]

    [inl code] is a non-zero return code, [inr sources] the array written
    to [*out] (its length is [*k]) with return code 0.  The initial
    distance [d0] is scanned and dropped. *)
Fixpoint read_source_lines (k : nat) (toks : list token) : Z + list nat :=
  match k with
  | 0 => inr []
  | S k' =>
      match scan toks with
      | Some (s, toks1) =>
          match scan toks1 with
          | Some (d0, toks2) =>
              match read_source_lines k' toks2 with
              | inr out => inr (Z.to_nat (s mod 2 ^ 32) :: out)
              | inl code => inl code
              end
          | None => inl (-3)%Z
          end
      | None => inl (-3)%Z
      end
  end.

Definition read_sources_file (file : option (list token)) : Z + list nat :=
  match file with
  | None => inl (-1)%Z
  | Some toks =>
      match scan toks with
      | None => inl (-2)%Z
      | Some (kk, rest) => read_source_lines (Z.to_nat (kk mod 2 ^ 32)) rest
      end
  end.

(** *** C++: [in >> x] on an [ifstream]

    The stream is its remaining tokens, or [None] once it has failed.  An
    extraction from a failed or exhausted stream stores nothing, and [x]
    keeps what it held: for the variables read in [main] ([U64 kk;],
    [U64 s,d0;], [U64 nn, mm;], [U64 u,v,w;], all declared without an
    initialiser) that is no value at all.  An extraction that meets a
    token that is not a number stores 0 and fails the stream. *)
Definition extract (ins : option (list token)) : option Z * option (list token) :=
  match ins with
  | Some (Num z :: rest) => (Some z, Some rest)
  | Some (Junk :: _) => (Some 0%Z, None)
  | Some [] => (None, None)
  | None => (None, None)
  end.

(** the use of a variable: undefined when nothing was ever stored in it *)
Definition stored (x : option Z) : outcome Z :=
  match x with
  | Some z => Done z
  | None => Undefined
  end.

(** *** C++: the sources file is read in [main]

    [in>>kk; k=(U32)kk; for(i<k){ in>>s>>d0; src.emplace_back((U32)s,d0); }] *)
Fixpoint cpp_read_source_lines (k : nat) (ins : option (list token)) :
    outcome (list (nat * Z)) :=
  match k with
  | 0 => Done []
  | S k' =>
      let '(s, in1) := extract ins in
      let '(d0, in2) := extract in1 in
      s ← stored s;
      d0 ← stored d0;
      src ← cpp_read_source_lines k' in2;
      Done ((Z.to_nat (s mod 2 ^ 32), wrap64 d0) :: src)
  end.

Definition cpp_read_sources (toks : list token) : outcome (list (nat * Z)) :=
  let '(kk, in1) := extract (Some toks) in
  kk ← stored kk;
  cpp_read_source_lines (Z.to_nat (kk mod 2 ^ 32)) in1.

(** *** [pick_sources]

    The pseudo-random generator ([rand] after [srand], [std::mt19937_64])
    is library state; a run of it is modelled by the sequence [draws] of
    the values it returns, [draws i] being the [i]-th.  The loop is the
    same in both programs:
    [while(c<k){ s=rand()%n; if(!used[s]){ used[s]=1; out[c++]=s; } }]. *)
Fixpoint pick_loop (fuel : nat) (draws : nat → Z) (i n k : nat)
    (used : list bool) (out : list nat) : outcome (list nat) :=
  match fuel with
  | 0 => OutOfFuel
  | S fuel' =>
      if decide (length out < k) then
        if decide (n = 0) then Undefined
        else
          let s := Z.to_nat (draws i mod Z.of_nat n) in
          u ← at_index used s;
          if u : bool then pick_loop fuel' draws (S i) n k used out
          else pick_loop fuel' draws (S i) n k (<[s := true]> used) (out ++ [s])
      else Done out
  end.

Definition pick_sources (fuel : nat) (draws : nat → Z) (n k : nat) :
    outcome (list nat) :=
  pick_loop fuel draws 0 n k (replicate n false) [].

(** the C++ function returns the pairs [(s, 0)] *)
Definition cpp_pick_sources (fuel : nat) (draws : nat → Z) (n k : nat) :
    outcome (list (nat * Z)) :=
  out ← pick_sources fuel draws n k;
  Done (at_zero out).

(** *** Source selection in [main]

    [sources_file] is [None] without [--sources-file], and else the file
    as above.  Both programs print a message and return 1 on [Fatal]. *)
Inductive selection (A : Type) : Type :=
| Selected (src : A)
| Fatal.
Arguments Selected {A} src.
Arguments Fatal {A}.

Definition c_select_sources (fuel : nat) (draws : nat → Z) (n k : nat)
    (sources_file : option (option (list token))) :
    outcome (selection (list nat)) :=
  match sources_file with
  | Some file =>
      match read_sources_file file with
      | inr sources => Done (Selected sources)
      | inl _ => Done Fatal
      end
  | None => out ← pick_sources fuel draws n k; Done (Selected out)
  end.

Definition cpp_select_sources (fuel : nat) (draws : nat → Z) (n k : nat)
    (sources_file : option (option (list token))) :
    outcome (selection (list (nat * Z))) :=
  match sources_file with
  | Some None => Done Fatal
  | Some (Some toks) => src ← cpp_read_sources toks; Done (Selected src)
  | None => src ← cpp_pick_sources fuel draws n k; Done (Selected src)
  end.

(** ** Building graphs *)

(** *** C++: [from_adj], [from_edge_list]

    Both end in the loop
    [for(u<n){ for(e: adj[u]){ edges.push_back(e); ++m; } head[u+1]=(U32)m; }]. *)
Fixpoint csr_loop (cnt u : nat) (adj : list (list Edge.t))
    (edges : list Edge.t) (head : list nat) : list Edge.t * list nat :=
  match cnt with
  | 0 => (edges, head)
  | S cnt' =>
      let edges' := edges ++ adj !!! u in
      csr_loop cnt' (S u) adj edges' (<[S u := wrap32 (length edges')]> head)
  end.

Definition from_adj (adj : list (list Edge.t)) : Graph.t :=
  let n := wrap32 (length adj) in
  let '(edges, head) := csr_loop n 0 adj [] (replicate (wrap32 (n + 1)) 0) in
  Graph.mk head edges n (length edges).

(** [for(auto &t : elist){ tie(u,v,w)=t; if(u<n && v<n) adj[u].push_back({v,w}); }] *)
Definition group_step (n : nat) (adj : list (list Edge.t)) (t : nat * nat * Z) :
    list (list Edge.t) :=
  let '(u, v, w) := t in
  if decide (u < n ∧ v < n) then <[u := adj !!! u ++ [Edge.mk v w]]> adj else adj.

Definition from_edge_list (n : nat) (elist : list (nat * nat * Z)) : Graph.t :=
  let adj := foldl (group_step n) (replicate n []) elist in
  let '(edges, head) := csr_loop n 0 adj [] (replicate (wrap32 (n + 1)) 0) in
  Graph.mk head edges n (length edges).

(** the graph file is read in [main]:
    [in>>nn>>mm; n=(U32)nn;
     for(i<mm){ in>>u>>v>>w; elist.emplace_back((U32)u,(U32)v,(U64)w); }
     g = from_edge_list(n, elist);] *)
Fixpoint cpp_read_edge_lines (m : nat) (ins : option (list token)) :
    outcome (list (nat * nat * Z)) :=
  match m with
  | 0 => Done []
  | S m' =>
      let '(u, in1) := extract ins in
      let '(v, in2) := extract in1 in
      let '(w, in3) := extract in2 in
      u ← stored u;
      v ← stored v;
      w ← stored w;
      elist ← cpp_read_edge_lines m' in3;
      Done ((Z.to_nat (u mod 2 ^ 32), Z.to_nat (v mod 2 ^ 32), wrap64 w) :: elist)
  end.

Definition cpp_read_graph (toks : list token) : outcome Graph.t :=
  let '(nn, in1) := extract (Some toks) in
  let '(mm, in2) := extract in1 in
  nn ← stored nn;
  mm ← stored mm;
  elist ← cpp_read_edge_lines (Z.to_nat (wrap64 mm)) in2;
  Done (from_edge_list (Z.to_nat (nn mod 2 ^ 32)) elist).

(** *** C: [read_graph_file]

    The edges are stored in file order; [head[u+1]] is raised to the number
    of edges read so far whenever an edge of [u] is read. *)
Fixpoint read_edge_lines (m n : nat) (toks : list token)
    (edges : list Edge.t) (head : list nat) : Z + (list Edge.t * list nat) :=
  match m with
  | 0 => inr (edges, head)
  | S m' =>
      match scan toks with
      | Some (uu, toks1) =>
          match scan toks1 with
          | Some (vv, toks2) =>
              match scan toks2 with
              | Some (ww, toks3) =>
                  let edges' := edges ++ [Edge.mk (Z.to_nat (vv mod 2 ^ 32)) (wrap64 ww)] in
                  let i := Z.to_nat (wrap64 (uu + 1)) in
                  let head' :=
                    if decide (i ≤ n ∧ head !!! i < length edges')
                    then <[i := wrap32 (length edges')]> head else head in
                  read_edge_lines m' n toks3 edges' head'
              | None => inl (-3)%Z
              end
          | None => inl (-3)%Z
          end
      | None => inl (-3)%Z
      end
  end.

(** [for(i=1;i<=n;i++){ if(head[i] < head[i-1]) head[i] = head[i-1]; }] *)
Fixpoint fix_head (cnt i : nat) (head : list nat) : list nat :=
  match cnt with
  | 0 => head
  | S cnt' =>
      fix_head cnt' (S i)
        (if decide (head !!! i < head !!! (i - 1))
         then <[i := head !!! (i - 1)]> head else head)
  end.

Definition read_graph_file (file : option (list token)) : Z + Graph.t :=
  match file with
  | None => inl (-1)%Z
  | Some toks =>
      match scan toks with
      | Some (nz, toks1) =>
          match scan toks1 with
          | Some (mz, toks2) =>
              let n := Z.to_nat (wrap64 nz) in
              let m := Z.to_nat (wrap64 mz) in
              match read_edge_lines m n toks2 [] (replicate (n + 1) 0) with
              | inr (edges, head) =>
                  inr (Graph.mk (fix_head n 1 head) edges (wrap32 n) (length edges))
              | inl code => inl code
              end
          | None => inl (-2)%Z
          end
      | None => inl (-2)%Z
      end
  end.

(** *** Edge weights of the generators

    C++: [rnd_w(rng, maxw) = (U64)(rng() % maxw + 1)]; C writes
    [(uint64_t)(rand()%maxw+1)] at each use.  [draw] is the value the
    generator returned; a [maxw] of 0 divides by zero. *)
Definition rnd_w (draw : Z) (maxw : nat) : outcome Z :=
  if decide (maxw = 0) then Undefined
  else Done (wrap64 (draw mod Z.of_nat maxw + 1)).

(** ** Generators: [make_grid]

    The two programs build the grid with the same loop; they differ in the
    generator behind [draws] ([rand()] in C, [std::mt19937_64] in C++).
    [rows], [cols] and [maxw] are 32-bit values; [IDX(r,c) = r*cols+c] is
    computed in 32 bits.  A write to [head] outside its [n+1] entries is
    undefined. *)
Definition IDX (cols r c : nat) : nat := wrap32 (r * cols + c).

Record grid_state := mkGrid {
  grid_edges : list Edge.t;
  grid_head : list nat;
  grid_draw : nat;
}.

(** [push_edge(&g, (Edge){ to, rand()%maxw+1 })] /
    [g.edges.push_back({to, rnd()}); m++;] *)
Definition grid_push (maxw : nat) (draws : nat → Z) (to : nat) (st : grid_state) :
    outcome grid_state :=
  w ← rnd_w (draws (grid_draw st)) maxw;
  Done (mkGrid (grid_edges st ++ [Edge.mk to w]) (grid_head st) (S (grid_draw st))).

(** the body of the two loops, for the cell [(r, c)] *)
Definition grid_cell (rows cols maxw : nat) (draws : nat → Z) (r c : nat)
    (st : grid_state) : outcome grid_state :=
  let u := IDX cols r c in
  st ← (if decide (r + 1 < rows) then grid_push maxw draws (IDX cols (r + 1) c) st
        else Done st);
  st ← (if decide (c + 1 < cols) then grid_push maxw draws (IDX cols r (c + 1)) st
        else Done st);
  st ← (if decide (0 < r) then grid_push maxw draws (IDX cols (r - 1) c) st
        else Done st);
  st ← (if decide (0 < c) then grid_push maxw draws (IDX cols r (c - 1)) st
        else Done st);
  if decide (wrap32 (u + 1) < length (grid_head st)) then
    Done (mkGrid (grid_edges st)
            (<[wrap32 (u + 1) := wrap32 (length (grid_edges st))]> (grid_head st))
            (grid_draw st))
  else Undefined.

(** [for(c=0;c<cols;c++)], [cnt] columns left *)
Fixpoint grid_row (rows cols maxw : nat) (draws : nat → Z) (r cnt c : nat)
    (st : grid_state) : outcome grid_state :=
  match cnt with
  | 0 => Done st
  | S cnt' =>
      st' ← grid_cell rows cols maxw draws r c st;
      grid_row rows cols maxw draws r cnt' (S c) st'
  end.

(** [for(r=0;r<rows;r++)], [cnt] rows left *)
Fixpoint grid_rows (rows cols maxw : nat) (draws : nat → Z) (cnt r : nat)
    (st : grid_state) : outcome grid_state :=
  match cnt with
  | 0 => Done st
  | S cnt' =>
      st' ← grid_row rows cols maxw draws r cols 0 st;
      grid_rows rows cols maxw draws cnt' (S r) st'
  end.

Definition make_grid (rows cols maxw : nat) (draws : nat → Z) : outcome Graph.t :=
  let n := wrap32 (rows * cols) in
  st ← grid_rows rows cols maxw draws rows 0
         (mkGrid [] (replicate (wrap32 (n + 1)) 0) 0);
  Done (Graph.mk (grid_head st) (grid_edges st) n (length (grid_edges st))).

(** ** Generators: [make_er]

    Every ordered pair [u != v] becomes an edge when a uniform draw falls
    below [p].  The comparison is made in floating point on a value of the
    generator; [below i] stands for the outcome of the [i]-th comparison
    ([U(rng) < p] in C++, [(double)rand() / (double)RAND_MAX < p] in C) and
    [draws] for the values that go into the weights. *)
Record er_state := mkEr {
  er_adj : list (list Edge.t);
  er_coin : nat;
  er_draw : nat;
}.

(** C++: [if(u==v) continue;
          if(U(rng) < p){ adj[u].push_back({v, rnd_w(rng, maxw)}); }];
    [u] is below [adj.size()] throughout. *)
Definition cpp_er_pair (maxw : nat) (below : nat → bool) (draws : nat → Z)
    (u v : nat) (st : er_state) : outcome er_state :=
  if decide (u = v) then Done st
  else if below (er_coin st) then
    w ← rnd_w (draws (er_draw st)) maxw;
    Done (mkEr (<[u := er_adj st !!! u ++ [Edge.mk v w]]> (er_adj st))
               (S (er_coin st)) (S (er_draw st)))
  else Done (mkEr (er_adj st) (S (er_coin st)) (er_draw st)).

Fixpoint cpp_er_row (maxw : nat) (below : nat → bool) (draws : nat → Z)
    (u cnt v : nat) (st : er_state) : outcome er_state :=
  match cnt with
  | 0 => Done st
  | S cnt' =>
      st' ← cpp_er_pair maxw below draws u v st;
      cpp_er_row maxw below draws u cnt' (S v) st'
  end.

Fixpoint cpp_er_rows (n maxw : nat) (below : nat → bool) (draws : nat → Z)
    (cnt u : nat) (st : er_state) : outcome er_state :=
  match cnt with
  | 0 => Done st
  | S cnt' =>
      st' ← cpp_er_row maxw below draws u n 0 st;
      cpp_er_rows n maxw below draws cnt' (S u) st'
  end.

Definition cpp_make_er (n maxw : nat) (below : nat → bool) (draws : nat → Z) :
    outcome Graph.t :=
  st ← cpp_er_rows n maxw below draws n 0 (mkEr (replicate n []) 0 0);
  Done (from_adj (er_adj st)).

(** C: the edges go straight into the edge array, and [head[u+1]] is set
    after the row of [u].  [push_edge] doubles the array when it is full
    before it writes; the list leaves the capacity out. *)
Record c_er_state := mkCEr {
  c_er_edges : list Edge.t;
  c_er_head : list nat;
  c_er_coin : nat;
  c_er_draw : nat;
}.

Definition c_er_pair (maxw : nat) (below : nat → bool) (draws : nat → Z)
    (u v : nat) (st : c_er_state) : outcome c_er_state :=
  if decide (u = v) then Done st
  else if below (c_er_coin st) then
    w ← rnd_w (draws (c_er_draw st)) maxw;
    Done (mkCEr (c_er_edges st ++ [Edge.mk v w]) (c_er_head st)
                (S (c_er_coin st)) (S (c_er_draw st)))
  else Done (mkCEr (c_er_edges st) (c_er_head st) (S (c_er_coin st)) (c_er_draw st)).

Fixpoint c_er_row (maxw : nat) (below : nat → bool) (draws : nat → Z)
    (u cnt v : nat) (st : c_er_state) : outcome c_er_state :=
  match cnt with
  | 0 => Done st
  | S cnt' =>
      st' ← c_er_pair maxw below draws u v st;
      c_er_row maxw below draws u cnt' (S v) st'
  end.

(** [g.head[u+1] = (uint32_t)g.m;] *)
Definition set_head (u : nat) (edges : list Edge.t) (head : list nat) :
    outcome (list nat) :=
  if decide (wrap32 (u + 1) < length head)
  then Done (<[wrap32 (u + 1) := wrap32 (length edges)]> head)
  else Undefined.

Fixpoint c_er_rows (n maxw : nat) (below : nat → bool) (draws : nat → Z)
    (cnt u : nat) (st : c_er_state) : outcome c_er_state :=
  match cnt with
  | 0 => Done st
  | S cnt' =>
      st' ← c_er_row maxw below draws u n 0 st;
      head ← set_head u (c_er_edges st') (c_er_head st');
      c_er_rows n maxw below draws cnt' (S u)
        (mkCEr (c_er_edges st') head (c_er_coin st') (c_er_draw st'))
  end.

Definition c_make_er (n maxw : nat) (below : nat → bool) (draws : nat → Z) :
    outcome Graph.t :=
  st ← c_er_rows n maxw below draws n 0
         (mkCEr [] (replicate (wrap32 (n + 1)) 0) 0 0);
  Done (Graph.mk (c_er_head st) (c_er_edges st) n (length (c_er_edges st))).

(** ** Generators: [make_ba]

    A clique on the nodes below [start], then every later node [u] gets
    [m_each] edges to targets drawn from [ends], the list of edge ends so
    far.  [draws] are the values of the generator ([rng()], [rand()]) in
    the order they are taken. *)

(** C++: [std::min<U32>(std::max<U32>(m0, 1), n)] *)
Definition cpp_ba_start (n m0 : nat) : nat := Nat.min (Nat.max m0 1) n.

(** C: [m0 ? (m0>n ? n : m0) : 1] *)
Definition c_ba_start (n m0 : nat) : nat :=
  if decide (m0 = 0) then 1 else if decide (n < m0) then n else m0.

(** [if(ends.empty()) t = (u==0 ? 0 : (U32)(rng() % u));
     else t = ends[(size_t)(rng() % ends.size())];]
    the target and the number of the next draw *)
Definition ba_target (draws : nat → Z) (u : nat) (ends : list nat) (draw : nat) :
    nat * nat :=
  if decide (length ends = 0) then
    if decide (u = 0) then (0, draw)
    else (wrap32 (Z.to_nat (draws draw mod Z.of_nat u)), S draw)
  else (ends !!! Z.to_nat (draws draw mod Z.of_nat (length ends)), S draw).

Record ba_state := mkBa {
  ba_adj : list (list Edge.t);
  ba_ends : list nat;
  ba_draw : nat;
}.

(** C++: [if(u==v) continue;
          adj[u].push_back({v, rnd_w(rng, maxw)}); ends.push_back(u);] *)
Definition cpp_clique_pair (maxw : nat) (draws : nat → Z) (u v : nat)
    (st : ba_state) : outcome ba_state :=
  if decide (u = v) then Done st
  else
    w ← rnd_w (draws (ba_draw st)) maxw;
    Done (mkBa (<[u := ba_adj st !!! u ++ [Edge.mk v w]]> (ba_adj st))
               (ba_ends st ++ [u]) (S (ba_draw st))).

Fixpoint cpp_clique_row (maxw : nat) (draws : nat → Z) (u cnt v : nat)
    (st : ba_state) : outcome ba_state :=
  match cnt with
  | 0 => Done st
  | S cnt' =>
      st' ← cpp_clique_pair maxw draws u v st;
      cpp_clique_row maxw draws u cnt' (S v) st'
  end.

Fixpoint cpp_clique_rows (start maxw : nat) (draws : nat → Z) (cnt u : nat)
    (st : ba_state) : outcome ba_state :=
  match cnt with
  | 0 => Done st
  | S cnt' =>
      st' ← cpp_clique_row maxw draws u start 0 st;
      cpp_clique_rows start maxw draws cnt' (S u) st'
  end.

(** C++: the body of [for(U32 j=0; j<m_each; ++j)] *)
Definition cpp_ba_step (maxw : nat) (draws : nat → Z) (u : nat) (st : ba_state) :
    outcome ba_state :=
  let '(t, d) := ba_target draws u (ba_ends st) (ba_draw st) in
  w ← rnd_w (draws d) maxw;
  Done (mkBa (<[u := ba_adj st !!! u ++ [Edge.mk t w]]> (ba_adj st))
             (ba_ends st ++ [t; u]) (S d)).

Fixpoint cpp_ba_row (maxw : nat) (draws : nat → Z) (u cnt : nat) (st : ba_state) :
    outcome ba_state :=
  match cnt with
  | 0 => Done st
  | S cnt' =>
      st' ← cpp_ba_step maxw draws u st;
      cpp_ba_row maxw draws u cnt' st'
  end.

Fixpoint cpp_ba_rows (m_each maxw : nat) (draws : nat → Z) (cnt u : nat)
    (st : ba_state) : outcome ba_state :=
  match cnt with
  | 0 => Done st
  | S cnt' =>
      st' ← cpp_ba_row maxw draws u m_each st;
      cpp_ba_rows m_each maxw draws cnt' (S u) st'
  end.

Definition cpp_make_ba (n m0 m_each maxw : nat) (draws : nat → Z) : outcome Graph.t :=
  let start := cpp_ba_start n m0 in
  st ← cpp_clique_rows start maxw draws start 0 (mkBa (replicate n []) [] 0);
  st ← cpp_ba_rows m_each maxw draws (n - start) start st;
  Done (from_adj (ba_adj st)).

(** C: the same two loops on the edge array, [head[u+1]] set after each
    row.  [push_edge] and [ENDS_PUSH] double their arrays when they are
    full before they write; the lists leave the capacities out. *)
Record c_ba_state := mkCBa {
  c_ba_edges : list Edge.t;
  c_ba_head : list nat;
  c_ba_ends : list nat;
  c_ba_draw : nat;
}.

Definition c_clique_pair (maxw : nat) (draws : nat → Z) (u v : nat)
    (st : c_ba_state) : outcome c_ba_state :=
  if decide (u = v) then Done st
  else
    w ← rnd_w (draws (c_ba_draw st)) maxw;
    Done (mkCBa (c_ba_edges st ++ [Edge.mk v w]) (c_ba_head st)
                (c_ba_ends st ++ [u]) (S (c_ba_draw st))).

Fixpoint c_clique_row (maxw : nat) (draws : nat → Z) (u cnt v : nat)
    (st : c_ba_state) : outcome c_ba_state :=
  match cnt with
  | 0 => Done st
  | S cnt' =>
      st' ← c_clique_pair maxw draws u v st;
      c_clique_row maxw draws u cnt' (S v) st'
  end.

Fixpoint c_clique_rows (start maxw : nat) (draws : nat → Z) (cnt u : nat)
    (st : c_ba_state) : outcome c_ba_state :=
  match cnt with
  | 0 => Done st
  | S cnt' =>
      st' ← c_clique_row maxw draws u start 0 st;
      head ← set_head u (c_ba_edges st') (c_ba_head st');
      c_clique_rows start maxw draws cnt' (S u)
        (mkCBa (c_ba_edges st') head (c_ba_ends st') (c_ba_draw st'))
  end.

Definition c_ba_step (maxw : nat) (draws : nat → Z) (u : nat) (st : c_ba_state) :
    outcome c_ba_state :=
  let '(t, d) := ba_target draws u (c_ba_ends st) (c_ba_draw st) in
  w ← rnd_w (draws d) maxw;
  Done (mkCBa (c_ba_edges st ++ [Edge.mk t w]) (c_ba_head st)
              (c_ba_ends st ++ [t; u]) (S d)).

Fixpoint c_ba_row (maxw : nat) (draws : nat → Z) (u cnt : nat) (st : c_ba_state) :
    outcome c_ba_state :=
  match cnt with
  | 0 => Done st
  | S cnt' =>
      st' ← c_ba_step maxw draws u st;
      c_ba_row maxw draws u cnt' st'
  end.

Fixpoint c_ba_rows (m_each maxw : nat) (draws : nat → Z) (cnt u : nat)
    (st : c_ba_state) : outcome c_ba_state :=
  match cnt with
  | 0 => Done st
  | S cnt' =>
      st' ← c_ba_row maxw draws u m_each st;
      head ← set_head u (c_ba_edges st') (c_ba_head st');
      c_ba_rows m_each maxw draws cnt' (S u)
        (mkCBa (c_ba_edges st') head (c_ba_ends st') (c_ba_draw st'))
  end.

Definition c_make_ba (n m0 m_each maxw : nat) (draws : nat → Z) : outcome Graph.t :=
  let start := c_ba_start n m0 in
  st ← c_clique_rows start maxw draws start 0
         (mkCBa [] (replicate (wrap32 (n + 1)) 0) [] 0);
  st ← c_ba_rows m_each maxw draws (n - start) start st;
  Done (Graph.mk (c_ba_head st) (c_ba_edges st) n (length (c_ba_edges st))).

(** * What the claims speak of *)

(** ** Queues *)

Definition key (data : list Entry.t) (j : nat) : Z := Entry.d (data !!! j).

(** Each parent's [d] is at most each child's [d]. *)
Definition heap_ordered (h : list Entry.t) : Prop :=
  ∀ j, 0 < j < length h → (key h ((j - 1) / 2) ≤ key h j)%Z.

(** A sequence of operations on the C heap. *)
Inductive heap_op :=
| Push (e : Entry.t)
| Pop.

Definition heap_step (h : list Entry.t) (op : heap_op) : list Entry.t :=
  match op with
  | Push e => heap_push h e
  | Pop => match heap_pop h with Some (_, h') => h' | None => h end
  end.

Definition heap_run (ops : list heap_op) : list Entry.t :=
  foldl heap_step heap_init ops.

(** Lexicographic order on (distance, node id). *)
Definition lex_le (a b : Entry.t) : Prop :=
  (Entry.d a < Entry.d b)%Z ∨ (Entry.d a = Entry.d b ∧ Entry.v a ≤ Entry.v b).

(** ** Graphs and shortest paths *)

(** What the loop needs of a graph to stay inside its arrays: [head] has
    [n+1] entries, none beyond the edge array, and every edge points to a
    node. *)
Definition graph_in_bounds (g : Graph.t) : Prop :=
  length (Graph.head g) = S (Graph.n g) ∧
  Forall (λ h, h ≤ length (Graph.edges g)) (Graph.head g) ∧
  Forall (λ e, Edge.to e < Graph.n g) (Graph.edges g).

(** the edges stored for [u]: [edges[head[u] .. head[u+1])] *)
Definition csr_block (g : Graph.t) (u : nat) : list Edge.t :=
  take (Graph.head g !!! (u + 1) - Graph.head g !!! u)
       (drop (Graph.head g !!! u) (Graph.edges g)).

(** [offsets] has [n + 1] entries, starts at 0, never decreases and ends at
    the number of edges. *)
Definition csr_offsets (g : Graph.t) : Prop :=
  length (Graph.head g) = S (Graph.n g) ∧
  Graph.head g !! 0 = Some 0 ∧
  (∀ i a b, Graph.head g !! i = Some a → Graph.head g !! S i = Some b → a ≤ b) ∧
  Graph.head g !! Graph.n g = Some (length (Graph.edges g)) ∧
  Graph.m g = length (Graph.edges g).

(** the out-edges of [u] in an edge list, in the order of the list; an
    edge with an end outside [0, n) is not an edge of the graph *)
Definition out_edges (n : nat) (elist : list (nat * nat * Z)) (u : nat) : list Edge.t :=
  omap (λ t : nat * nat * Z,
          if decide (t.1.1 = u ∧ t.1.1 < n ∧ t.1.2 < n)
          then Some (Edge.mk t.1.2 t.2) else None) elist.

(** The edge stored at index [ei] is an out-edge of [u]: it lies in the
    block [head[u] .. head[u+1]) the engine scans for [u]. *)
Definition edge_at (g : Graph.t) (u ei : nat) (e : Edge.t) : Prop :=
  ∃ beg en,
    Graph.head g !! u = Some beg ∧ Graph.head g !! (u + 1) = Some en ∧
    beg ≤ ei < en ∧ Graph.edges g !! ei = Some e.

Definition has_edge (g : Graph.t) (u to : nat) (w : Z) : Prop :=
  ∃ ei, edge_at g u ei (Edge.mk to w).

(** [reach g src v d]: some walk from a source [s] to [v] has length [d],
    the initial distance of [s] included.  Lengths are mathematical
    integers. *)
Inductive reach (g : Graph.t) (src : list (nat * Z)) : nat → Z → Prop :=
| reach_source s d0 : (s, d0) ∈ src → reach g src s d0
| reach_step u d to w :
    reach g src u d → has_edge g u to w → reach g src to (d + w).

(** [d] is the true shortest distance from the source set to [v]. *)
Definition shortest (g : Graph.t) (src : list (nat * Z)) (v : nat) (d : Z) : Prop :=
  reach g src v d ∧ ∀ d', reach g src v d' → (d ≤ d')%Z.

Definition positive_weights (g : Graph.t) : Prop :=
  Forall (λ e, 0 < Edge.w e)%Z (Graph.edges g).

(** No candidate [d + w] with [d < B] exceeds [2^64 - 1]. *)
Definition no_overflow (g : Graph.t) (B : Z) : Prop :=
  Forall (λ e, B + Edge.w e ≤ 2 ^ 64)%Z (Graph.edges g).

(** ** Traces of a run *)

(** distances of the popped entries that passed the staleness check, in
    the order they were popped *)
Definition fresh_pops (tr : list event) : list Z :=
  omap (λ ev, match ev with EvPop d _ true => Some d | _ => None end) tr.

(** distance of every popped entry and every relaxation candidate *)
Definition seen (ev : event) : Z :=
  match ev with
  | EvPop d _ _ => d
  | EvCand nd => nd
  end.

(** those that reached or exceeded the bound *)
Definition observed (B : Z) (tr : list event) : list Z :=
  filter (λ x, B ≤ x)%Z (seen <$> tr).

Definition nondecreasing (l : list Z) : Prop :=
  ∀ i j a b, i ≤ j → l !! i = Some a → l !! j = Some b → (a ≤ b)%Z.

(** What a finished run says about [bprime]: it is the least of the
    sentinel and the observed values, which are [uint64_t] values. *)
Definition boundary (B : Z) (r : State (list Entry.t)) : Prop :=
  let obs := observed B (trace r) in
  (obs ≠ [] → b_prime r ∈ obs ∧ Forall (λ x, b_prime r ≤ x)%Z obs) ∧
  (b_prime r = U64_MAX ↔ Forall (λ x, x = U64_MAX) obs).

(** ** Example inputs *)

(** the tokens of a sources file holding the given [(s, d0)] lines *)
Fixpoint source_lines (pairs : list (Z * Z)) : list token :=
  match pairs with
  | [] => []
  | (s, d0) :: rest => Num s :: Num d0 :: source_lines rest
  end.

Definition sources_tokens (pairs : list (Z * Z)) : list token :=
  Num (Z.of_nat (length pairs)) :: source_lines pairs.

(** the graph file [2 2 / 1 0 1 / 0 1 1]: two nodes, the edge [1 -> 0]
    listed before the edge [0 -> 1] *)
Definition toks_unsorted : list token :=
  [Num 2; Num 2; Num 1; Num 0; Num 1; Num 0; Num 1; Num 1].

(** Three nodes, [0 -> 1] (weight 5), [0 -> 2] (weight 1), [1 -> 2]
    (weight 1). *)
Definition g_small : Graph.t :=
  Graph.mk [0; 2; 3; 3] [Edge.mk 1 5; Edge.mk 2 1; Edge.mk 2 1] 3 3.

(** A chain [0 -> 1 -> 2] of two edges of weight [2^63]: the walk to node 2
    has length [2^64], one more than a [uint64_t] holds. *)
Definition g_wrap : Graph.t :=
  Graph.mk [0; 1; 2; 2] [Edge.mk 1 (2 ^ 63); Edge.mk 2 (2 ^ 63)] 3 2.

(** One edge [0 -> 1] whose weight is the sentinel value itself. *)
Definition g_sentinel : Graph.t :=
  Graph.mk [0; 1; 1] [Edge.mk 1 U64_MAX] 2 1.

(** A single node without edges. *)
Definition g_one : Graph.t := Graph.mk [0; 0] [] 1 0.

(** * What the further properties speak of *)

(** ** Emptying a queue *)

(** [while(pop(&cur)) out.push(cur)]: the entries in the order the main
    loop would take them off a queue it only pops from; [n] bounds the
    number of pops. *)
Fixpoint drain {Q} {PQ : PriorityQueue Q} (n : nat) (q : Q) : list Entry.t :=
  match n with
  | 0 => []
  | S n' =>
      match pq_pop q with
      | Some (x, q') => x :: drain n' q'
      | None => []
      end
  end.

(** the queue after pushing [es] in order onto an empty queue *)
Definition push_all {Q} {PQ : PriorityQueue Q} (es : list Entry.t) : Q :=
  foldl pq_push pq_empty es.

(** the sequence in which the entries [es], pushed in that order, are
    popped again *)
Definition pop_order {Q} {PQ : PriorityQueue Q} (es : list Entry.t) : list Entry.t :=
  drain (length es) (push_all es).

Definition lex_sorted (l : list Entry.t) : Prop :=
  ∀ i j a b, i ≤ j → l !! i = Some a → l !! j = Some b → lex_le a b.

(** ** What a run is to compute *)

(** The distance array a run is to end with: below the bound the true
    shortest distance, and the sentinel for a node no walk reaches below
    the bound. *)
Definition exact_below (g : Graph.t) (src : list (nat * Z)) (B : Z) (dist : list Z) : Prop :=
  length dist = Graph.n g ∧
  ∀ v dv, dist !! v = Some dv →
    ((dv < B)%Z ∧ shortest g src v dv) ∨
    (dv = U64_MAX ∧ ∀ d, reach g src v d → (B ≤ d)%Z).

(** The values the boundary is taken over: a node [u] at shortest
    distance [du] below the bound, and an edge out of it that leads to or
    beyond the bound. *)
Definition frontier (g : Graph.t) (src : list (nat * Z)) (B : Z) (x : Z) : Prop :=
  ∃ u du to w,
    shortest g src u du ∧ (du < B)%Z ∧ has_edge g u to w ∧
    x = (du + w)%Z ∧ (B ≤ x)%Z.

(** [bp] is the least frontier value, or the sentinel when there is none
    below it. *)
Definition least_frontier (g : Graph.t) (src : list (nat * Z)) (B : Z) (bp : Z) : Prop :=
  (bp ≤ U64_MAX)%Z ∧
  (∀ x, frontier g src B x → (bp ≤ x)%Z) ∧
  ((bp < U64_MAX)%Z → frontier g src B bp).

(** ** What the counters count *)

(** the nodes settled in a run, in the order they were settled *)
Definition settled_nodes (tr : list event) : list nat :=
  omap (λ ev, match ev with EvPop _ v true => Some v | _ => None end) tr.

(** the relaxation candidates computed in a run *)
Definition candidates (tr : list event) : list Z :=
  omap (λ ev, match ev with EvCand nd => Some nd | _ => None end) tr.

(** the number of edges the engine scans for [v]: [head[v+1] - head[v]],
    and none when that is negative *)
Definition out_degree (g : Graph.t) (v : nat) : nat :=
  Graph.head g !!! (v + 1) - Graph.head g !!! v.

(** the nodes whose distance is below the bound *)
Definition below_nodes (g : Graph.t) (B : Z) (dist : list Z) : list nat :=
  filter (λ v, (dist !!! v < B)%Z) (seq 0 (Graph.n g)).

(** ** Graph files *)

(** the tokens of the edge lines [u v w] *)
Fixpoint edge_lines (elist : list (Z * Z * Z)) : list token :=
  match elist with
  | [] => []
  | (u, v, w) :: rest => Num u :: Num v :: Num w :: edge_lines rest
  end.

(** a graph file: [n m] and then [m] edge lines *)
Definition graph_tokens (n : Z) (elist : list (Z * Z * Z)) : list token :=
  Num n :: Num (Z.of_nat (length elist)) :: edge_lines elist.

(** an edge line as the C++ program takes it: [(U32)u, (U32)v, (U64)w] *)
Definition cpp_edge (t : Z * Z * Z) : nat * nat * Z :=
  (Z.to_nat (t.1.1 mod 2 ^ 32), Z.to_nat (t.1.2 mod 2 ^ 32), wrap64 t.2).

(** and as the C program stores it: [(Edge){ (uint32_t)vv, (uint64_t)ww }] *)
Definition c_edge (t : Z * Z * Z) : Edge.t :=
  Edge.mk (Z.to_nat (t.1.2 mod 2 ^ 32)) (wrap64 t.2).

Definition monotone (head : list nat) : Prop :=
  ∀ i a b, head !! i = Some a → head !! S i = Some b → a ≤ b.

(** the edge list is sorted by source *)
Definition sorted_by_source (el : list (nat * nat * Z)) : Prop :=
  ∀ i j ti tj, i ≤ j → el !! i = Some ti → el !! j = Some tj → ti.1.1 ≤ tj.1.1.

(** the number of edges whose source is below [j] *)
Definition sources_below (el : list (nat * nat * Z)) (j : nat) : nat :=
  length (filter (λ t, t.1.1 < j) el).

(** every edge line names two nodes *)
Definition lines_in_range (n : nat) (elist : list (Z * Z * Z)) : Prop :=
  Forall (λ t, (0 ≤ t.1.1 < Z.of_nat n)%Z ∧ (0 ≤ t.1.2 < Z.of_nat n)%Z) elist.

(** ** Drawing sources *)

(** the node ids the first [N] draws name: [rand() % n] *)
Definition residues (draws : nat → Z) (n N : nat) : list nat :=
  (λ i, Z.to_nat (draws i mod Z.of_nat n)) <$> seq 0 N.

(** the distinct values of a list, in the order of their first
    occurrence *)
Definition first_occurrences (l : list nat) : list nat :=
  foldl (λ out s, if decide (s ∈ out) then out else out ++ [s]) [] l.

(** the neighbours of the cell [(r, c)] in the order [make_grid] links
    them: below, right, above, left *)
Definition grid_neighbours (rows cols r c : nat) : list nat :=
  (if decide (r + 1 < rows) then [(r + 1) * cols + c] else []) ++
  (if decide (c + 1 < cols) then [r * cols + (c + 1)] else []) ++
  (if decide (0 < r) then [(r - 1) * cols + c] else []) ++
  (if decide (0 < c) then [r * cols + (c - 1)] else []).

(** the number of the comparison made for the pair [(u, v)], [u != v], in
    [make_er]: the pairs come row by row, the diagonal left out *)
Definition pair_index (n u v : nat) : nat :=
  u * (n - 1) + v - (if decide (u < v) then 1 else 0).

(** the targets [make_er] gives the node [u] *)
Definition er_targets (n : nat) (below : nat → bool) (u : nat) : list nat :=
  filter (λ v, v ≠ u ∧ below (pair_index n u v) = true) (seq 0 n).

(** * Properties of the two queues *)

(** ** The C heap *)

Lemma key_insert_eq data i e : i < length data → key (<[i := e]> data) i = Entry.d e.
Proof. intros. unfold key. by rewrite list_lookup_total_insert_eq. Qed.

Lemma key_insert_ne data i j e : i ≠ j → key (<[i := e]> data) j = key data j.
Proof. intros. unfold key. by rewrite list_lookup_total_insert_ne. Qed.

Ltac key_simpl :=
  repeat first
    [ rewrite key_insert_eq by (rewrite ?length_insert; lia)
    | rewrite key_insert_ne by lia ].

Lemma insert_swap_perm {A} (l : list A) (i p : nat) (x e : A) :
  i < length l → l !! p = Some x →
  <[p := e]> (<[i := x]> l) ≡ₚ <[i := e]> l.
Proof.
  intros Hi Hp.
  destruct (decide (p = i)) as [->|Hne].
  { by rewrite list_insert_insert_eq. }
  rewrite <- (list_insert_insert_eq l i x e).
  apply Permutation_insert_swap.
  - by apply list_lookup_insert_eq.
  - by rewrite list_lookup_insert_ne.
Qed.

(** *** The queue holds what was pushed and not yet popped *)

Lemma sift_up_length data e i : length (sift_up data e i) = length data.
Proof.
  funelim (sift_up data e i); [by rewrite length_insert|].
  case_match; [by rewrite length_insert|].
  by rewrite H, length_insert.
Qed.

Lemma sift_up_perm data e i :
  i < length data → sift_up data e i ≡ₚ <[i := e]> data.
Proof.
  funelim (sift_up data e i); intros Hi; [done|].
  case_match; [done|].
  rewrite H by (rewrite length_insert; lia).
  apply insert_swap_perm; [done|].
  apply list_lookup_lookup_total_lt. lia.
Qed.

Lemma heap_push_perm h e : heap_push h e ≡ₚ e :: h.
Proof.
  unfold heap_push. rewrite sift_up_perm by (rewrite length_app; simpl; lia).
  replace (length h) with (length h + 0) by lia.
  rewrite insert_app_r. simpl. by rewrite Permutation_app_comm.
Qed.

Lemma sift_down_length data n x i : length (sift_down data n x i) = length data.
Proof.
  funelim (sift_down data n x i); [by rewrite length_insert|].
  case_match; [by rewrite length_insert|].
  by rewrite H, length_insert.
Qed.

Lemma sift_down_perm data x i :
  i < length data → sift_down data (length data) x i ≡ₚ <[i := x]> data.
Proof.
  remember (length data) as n eqn:Hn.
  funelim (sift_down data n x i); intros Hi; [done|].
  case_match; [done|].
  assert (min_child data (length data) (i * 2 + 1) < length data)
    by (apply min_child_lt; lia).
  rewrite H by (rewrite ?length_insert; done || lia).
  apply insert_swap_perm; [done|].
  by apply list_lookup_lookup_total_lt.
Qed.

Lemma split_last (h : list Entry.t) :
  h ≠ [] → h = take (length h - 1) h ++ [h !!! (length h - 1)].
Proof.
  destruct h as [|x l _] using rev_ind; [done|]. intros _.
  rewrite length_app. simpl.
  replace (length l + 1 - 1) with (length l) by lia.
  rewrite take_app_length.
  by rewrite (list_lookup_total_middle l [] x _ eq_refl).
Qed.

Lemma heap_pop_unfold h :
  heap_pop h =
  match h with
  | [] => None
  | out :: _ =>
      Some (out, sift_down (take (length h - 1) h) (length h - 1)
                   (h !!! (length h - 1)) 0)
  end.
Proof. by destruct h. Qed.

Lemma heap_pop_perm h x h' : heap_pop h = Some (x, h') → h ≡ₚ x :: h'.
Proof.
  rewrite heap_pop_unfold. destruct h as [|out t] eqn:Hh; [done|].
  rewrite <- Hh. intros [= <- <-].
  assert (Hne : h ≠ []) by (by rewrite Hh).
  pose proof (split_last h Hne) as Hs.
  set (n := length h - 1) in *. set (x := h !!! n) in *.
  assert (Hn : length (take n h) = n).
  { rewrite length_take. unfold n. lia. }
  destruct t as [|y t'].
  { subst h. unfold x, n. cbn. simp sift_down. by cbn. }
  assert (Ht : ∃ r, take n h = out :: r).
  { unfold n. rewrite Hh. simpl. eauto. }
  destruct Ht as [r Hr].
  rewrite <- Hn at 2. rewrite sift_down_perm by (rewrite Hr; simpl; lia).
  rewrite Hs at 1. rewrite Hr. simpl.
  constructor. by rewrite Permutation_app_comm.
Qed.

(** *** The heap order *)

Lemma key_insert data i j e :
  i < length data →
  key (<[i := e]> data) j = if decide (i = j) then Entry.d e else key data j.
Proof.
  intros. case_decide as Hij.
  - subst. by apply key_insert_eq.
  - by apply key_insert_ne.
Qed.

Ltac key_cases :=
  unfold key in *;
  rewrite ?list_lookup_total_insert in * by (rewrite ?length_insert; lia);
  repeat case_decide; destruct_and?; try lia;
  try (repeat match goal with
              | H : @eq nat ?a ?b |- _ =>
                  first [ rewrite H in * | rewrite <- H in * ]; clear H
              end; lia).

(** The array with [e] written into the hole [i] is ordered on every edge
    but the one above [i], and the parent of [i] is at most the children
    of [i]. *)
Definition up_inv (data : list Entry.t) (e : Entry.t) (i : nat) : Prop :=
  i < length data ∧
  (∀ j, 0 < j < length data → j ≠ i →
     (key (<[i := e]> data) ((j - 1) / 2) ≤ key (<[i := e]> data) j)%Z) ∧
  (∀ c, 0 < c < length data → (c - 1) / 2 = i → i ≠ 0 →
     (key data ((i - 1) / 2) ≤ key data c)%Z).

Lemma sift_up_ordered data e i : up_inv data e i → heap_ordered (sift_up data e i).
Proof.
  funelim (sift_up data e i); intros (Hi & Hord & Hgp).
  - intros j Hj. rewrite length_insert in Hj. apply Hord; lia.
  - clear Heq Heqcall. case_match eqn:Hle.
    + apply Z.leb_le in Hle. fold (key data ((i - 1) / 2)) in Hle.
      intros j Hj. rewrite length_insert in Hj.
      destruct (decide (j = i)) as [->|Hne]; [|by apply Hord].
      key_cases.
    + apply Z.leb_gt in Hle. fold (key data ((i - 1) / 2)) in Hle.
      apply H. clear H. repeat split.
      * rewrite length_insert. lia.
      * intros j Hj Hjp. rewrite length_insert in Hj.
        fold (key data ((i - 1) / 2)).
        pose proof (Hord j) as Ho. pose proof (Hgp j) as Hg.
        destruct (decide (j = i)) as [->|Hji].
        { key_cases. }
        specialize (Ho ltac:(lia) ltac:(lia)).
        key_cases.
      * intros c Hc Hcp Hp0. rewrite length_insert in Hc.
        pose proof (Hord c) as Ho. pose proof (Hord ((i - 1) / 2)) as Hop.
        specialize (Hop ltac:(lia) ltac:(lia)).
        destruct (decide (c = i)) as [->|Hci].
        { key_cases. }
        specialize (Ho ltac:(lia) ltac:(lia)).
        key_cases.
Qed.

Lemma heap_push_ordered h e : heap_ordered h → heap_ordered (heap_push h e).
Proof.
  intros Hh. apply sift_up_ordered. repeat split.
  - rewrite length_app. simpl. lia.
  - intros j Hj Hne. rewrite length_app in Hj. simpl in Hj.
    specialize (Hh j ltac:(lia)). unfold key in *.
    rewrite list_lookup_total_insert_ne by lia.
    rewrite list_lookup_total_insert_ne by lia.
    by rewrite !lookup_total_app_l by lia.
  - intros c Hc Hcp. rewrite length_app in Hc. simpl in Hc. lia.
Qed.

(** The array with [x] written into the hole [i] is ordered on every edge
    but those below [i], and the parent of [i] is at most the children of
    [i]. *)
Definition down_inv (data : list Entry.t) (x : Entry.t) (i : nat) : Prop :=
  i < length data ∧
  (∀ j, 0 < j < length data → (j - 1) / 2 ≠ i →
     (key (<[i := x]> data) ((j - 1) / 2) ≤ key (<[i := x]> data) j)%Z) ∧
  (∀ c, 0 < c < length data → (c - 1) / 2 = i → i ≠ 0 →
     (key data ((i - 1) / 2) ≤ key data c)%Z).

Lemma min_child_le data n l c :
  l < n → c < n → l ≤ c ≤ l + 1 →
  (key data (min_child data n l) ≤ key data c)%Z.
Proof.
  intros Hl Hc Hlc. unfold min_child, key.
  case_decide; [case_match eqn:Hlt|].
  - apply Z.ltb_lt in Hlt. destruct (decide (c = l)) as [->|]; [lia|].
    replace c with (l + 1) by lia. lia.
  - apply Z.ltb_ge in Hlt. destruct (decide (c = l)) as [->|]; [lia|].
    replace c with (l + 1) by lia. lia.
  - replace c with l by lia. lia.
Qed.

Lemma sift_down_ordered data x i :
  down_inv data x i → heap_ordered (sift_down data (length data) x i).
Proof.
  remember (length data) as n eqn:Hn.
  funelim (sift_down data n x i); intros (Hi & Hord & Hgp).
  - intros j Hj. rewrite length_insert in Hj. apply Hord; lia.
  - clear Heq Heqcall.
    pose proof (min_child_range data (length data) (i * 2 + 1)) as Hmr.
    pose proof (min_child_lt data (length data) (i * 2 + 1) ltac:(lia)) as Hml.
    pose proof (min_child_le data (length data) (i * 2 + 1)) as Hmin.
    set (mc := min_child data (length data) (i * 2 + 1)) in *.
    case_match eqn:Hle.
    + apply Z.leb_le in Hle. fold (key data mc) in Hle.
      intros j Hj. rewrite length_insert in Hj.
      destruct (decide ((j - 1) / 2 = i)) as [Hp|Hp]; [|by apply Hord].
      specialize (Hmin j ltac:(lia) ltac:(lia) ltac:(lia)).
      key_cases.
    + apply Z.leb_gt in Hle. fold (key data mc) in Hle.
      apply H; [by rewrite length_insert|]. clear H. repeat split.
      * rewrite length_insert. lia.
      * intros j Hj Hjp. rewrite length_insert in Hj.
        pose proof (Hord j) as Ho. pose proof (Hgp mc) as Hg.
        destruct (decide ((j - 1) / 2 = i)) as [Hp|Hp].
        { specialize (Hmin j ltac:(lia) ltac:(lia) ltac:(lia)). key_cases. }
        specialize (Ho ltac:(lia) ltac:(lia)).
        destruct (decide (j = i)) as [->|Hji].
        { specialize (Hg ltac:(lia) ltac:(lia) ltac:(lia)). key_cases. }
        key_cases.
      * intros c Hc Hcp Hp0. rewrite length_insert in Hc.
        pose proof (Hord c ltac:(lia) ltac:(lia)) as Ho.
        key_cases.
Qed.

Lemma heap_pop_ordered h x h' :
  heap_ordered h → heap_pop h = Some (x, h') → heap_ordered h'.
Proof.
  intros Hh. rewrite heap_pop_unfold. destruct h as [|out t] eqn:E; [done|].
  rewrite <- E in *. intros [= <- <-].
  assert (Hlen : length h = S (length t)) by (by rewrite E).
  remember (length h - 1) as n eqn:Hnd.
  assert (Hn : length (take n h) = n) by (rewrite length_take; lia).
  destruct (decide (n = 0)) as [Hz|Hz].
  { intros j Hj. rewrite sift_down_length, Hn in Hj. lia. }
  rewrite <- Hn at 2. apply sift_down_ordered. repeat split.
  - lia.
  - intros j Hj Hjp. rewrite Hn in Hj.
    specialize (Hh j ltac:(lia)). unfold key in *.
    rewrite !list_lookup_total_insert_ne by lia.
    by rewrite !lookup_total_take_lt by lia.
  - intros c Hc Hcp Hp0. lia.
Qed.

Lemma heap_root_minimal h j :
  heap_ordered h → j < length h → (key h 0 ≤ key h j)%Z.
Proof.
  intros Hh. induction (lt_wf j) as [j _ IH]. intros Hj.
  destruct (decide (j = 0)) as [->|Hne]; [lia|].
  specialize (IH ((j - 1) / 2) ltac:(lia) ltac:(lia)).
  specialize (Hh j ltac:(lia)). lia.
Qed.

Lemma heap_pop_min h x h' :
  heap_ordered h → heap_pop h = Some (x, h') →
  Forall (λ y, (Entry.d x ≤ Entry.d y)%Z) h.
Proof.
  intros Hh Hp. apply Forall_lookup. intros j y Hj.
  pose proof (heap_root_minimal h j Hh (lookup_lt_Some _ _ _ Hj)) as Hr.
  unfold key in Hr. rewrite (list_lookup_total_correct _ _ _ Hj) in Hr.
  destruct h as [|out t]; [done|]. by injection Hp as <- _.
Qed.

Lemma heap_pop_None h : heap_pop h = None ↔ h = [].
Proof. by destruct h. Qed.

(** ** The C++ queue *)

Lemma entry_lt_spec a o : entry_lt a o = true ↔ ¬ lex_le a o.
Proof.
  unfold entry_lt, lex_le.
  destruct (Z.eqb_spec (Entry.d a) (Entry.d o)) as [He|He]; simpl.
  - rewrite Nat.ltb_lt. lia.
  - rewrite Z.ltb_lt. lia.
Qed.

Lemma lex_le_trans a b c : lex_le a b → lex_le b c → lex_le a c.
Proof. unfold lex_le. lia. Qed.

Lemma lex_le_total a b : lex_le a b ∨ lex_le b a.
Proof. unfold lex_le. lia. Qed.

Lemma lex_le_d a b : lex_le a b → (Entry.d a ≤ Entry.d b)%Z.
Proof. unfold lex_le. lia. Qed.

Lemma extract_top_perm x q t r : extract_top x q = (t, r) → x :: q ≡ₚ t :: r.
Proof.
  revert x t r. induction q as [|y q IH]; intros x t r; simpl.
  - by intros [= <- <-].
  - destruct (entry_lt x y).
    + destruct (extract_top y q) as [t' r'] eqn:E. intros [= <- <-].
      rewrite (IH _ _ _ E). apply Permutation_swap.
    + destruct (extract_top x q) as [t' r'] eqn:E. intros [= <- <-].
      rewrite Permutation_swap, (IH _ _ _ E). apply Permutation_swap.
Qed.

Lemma extract_top_min x q t r :
  extract_top x q = (t, r) → Forall (lex_le t) (x :: q).
Proof.
  revert x t r. induction q as [|y q IH]; intros x t r; simpl.
  - intros [= <- <-]. constructor; [|constructor]. unfold lex_le. lia.
  - destruct (entry_lt x y) eqn:Hlt.
    + destruct (extract_top y q) as [t' r'] eqn:E. intros [= <- <-].
      apply IH in E. apply entry_lt_spec in Hlt.
      constructor; [|done]. apply Forall_cons in E as [Hty _].
      destruct (lex_le_total x y) as [|Hyx]; [done|].
      by eapply lex_le_trans.
    + destruct (extract_top x q) as [t' r'] eqn:E. intros [= <- <-].
      apply IH in E. apply Forall_cons in E as [Htx Hq].
      assert (lex_le x y).
      { destruct (lex_le_total x y) as [|Hyx]; [done|].
        apply not_true_iff_false in Hlt. rewrite entry_lt_spec in Hlt.
        by apply dec_stable in Hlt. }
      constructor; [done|]. constructor; [|done]. by eapply lex_le_trans.
Qed.

Lemma priority_queue_pop_perm q x q' :
  priority_queue_pop q = Some (x, q') → q ≡ₚ x :: q'.
Proof.
  destruct q as [|y r]; [done|]. simpl. intros [= E]. by apply extract_top_perm.
Qed.

Lemma priority_queue_pop_lex_min q x q' :
  priority_queue_pop q = Some (x, q') → Forall (lex_le x) q.
Proof.
  destruct q as [|y r]; [done|]. simpl. intros [= E]. by eapply extract_top_min.
Qed.

(** ** What the engine needs of a queue *)

Class PriorityQueueLaws {Q : Type} (PQ : PriorityQueue Q) := {
  (** the entries in the queue *)
  pq_elems : Q → list Entry.t;
  (** the representation invariant *)
  pq_ok : Q → Prop;
  pq_empty_ok : pq_ok pq_empty;
  pq_empty_elems : pq_elems pq_empty = [];
  pq_push_ok q e : pq_ok q → pq_ok (pq_push q e);
  pq_push_elems q e : pq_elems (pq_push q e) ≡ₚ e :: pq_elems q;
  pq_pop_None q : pq_pop q = None ↔ pq_elems q = [];
  pq_pop_ok q x q' : pq_ok q → pq_pop q = Some (x, q') → pq_ok q';
  pq_pop_elems q x q' : pq_pop q = Some (x, q') → pq_elems q ≡ₚ x :: pq_elems q';
  pq_pop_min q x q' :
    pq_ok q → pq_pop q = Some (x, q') →
    Forall (λ y, (Entry.d x ≤ Entry.d y)%Z) (pq_elems q);
}.

Lemma heap_ordered_nil : heap_ordered heap_init.
Proof. intros j Hj. simpl in Hj. lia. Qed.

#[global] Instance c_heap_laws : PriorityQueueLaws c_heap :=
  Build_PriorityQueueLaws _ c_heap id heap_ordered
    heap_ordered_nil eq_refl heap_push_ordered heap_push_perm heap_pop_None
    heap_pop_ordered heap_pop_perm heap_pop_min.

Lemma priority_queue_pop_None q : priority_queue_pop q = None ↔ q = [].
Proof. by destruct q. Qed.

Lemma priority_queue_pop_min q x q' :
  True → priority_queue_pop q = Some (x, q') →
  Forall (λ y, (Entry.d x ≤ Entry.d y)%Z) q.
Proof.
  intros _ Hp. apply priority_queue_pop_lex_min in Hp.
  eapply Forall_impl; [done|]. intros y. apply lex_le_d.
Qed.

#[global] Instance cpp_priority_queue_laws :
  PriorityQueueLaws cpp_priority_queue :=
  Build_PriorityQueueLaws _ cpp_priority_queue id (λ _, True)
    I eq_refl (λ _ _ _, I) (λ q e, reflexivity (e :: q))
    priority_queue_pop_None (λ _ _ _ _ _, I) priority_queue_pop_perm
    priority_queue_pop_min.

(** * Shortest paths in a CSR graph *)

Lemma shortest_unique g src v d d' : shortest g src v d → shortest g src v d' → d = d'.
Proof. intros [H1 H2] [H3 H4]. specialize (H2 _ H3). specialize (H4 _ H1). lia. Qed.

(** * Reading the trace *)

Lemma nondecreasing_snoc l y :
  nondecreasing l → Forall (λ x, x ≤ y)%Z l → nondecreasing (l ++ [y]).
Proof.
  intros Hl Hy i j a b Hij Hi Hj.
  apply lookup_app_Some in Hi as [Hi|[Hi1 Hi2]];
    apply lookup_app_Some in Hj as [Hj|[Hj1 Hj2]].
  - by eapply Hl.
  - apply list_lookup_singleton_Some in Hj2 as [_ <-].
    by apply (Forall_lookup_1 _ _ _ _ Hy Hi).
  - apply lookup_lt_Some in Hj. lia.
  - apply list_lookup_singleton_Some in Hi2 as [_ <-].
    apply list_lookup_singleton_Some in Hj2 as [_ <-]. lia.
Qed.

Lemma fresh_pops_snoc tr ev :
  fresh_pops (tr ++ [ev]) =
  fresh_pops tr ++ match ev with EvPop d _ true => [d] | _ => [] end.
Proof.
  unfold fresh_pops. rewrite omap_app. f_equal. by destruct ev as [? ? []|].
Qed.

Lemma observed_snoc B tr ev :
  observed B (tr ++ [ev]) =
  observed B tr ++ (if decide (B ≤ seen ev)%Z then [seen ev] else []).
Proof.
  unfold observed. by rewrite fmap_app, filter_app.
Qed.

Lemma foldr_min_snoc (m x : Z) l :
  foldr Z.min m (l ++ [x]) = Z.min (foldr Z.min m l) x.
Proof. induction l as [|a l IH]; simpl; [lia|]. rewrite IH. lia. Qed.

Lemma foldr_min_observed_snoc B (m : Z) tr ev :
  foldr Z.min m (observed B (tr ++ [ev])) =
  if decide (B ≤ seen ev)%Z
  then Z.min (foldr Z.min m (observed B tr)) (seen ev)
  else foldr Z.min m (observed B tr).
Proof.
  rewrite observed_snoc. case_decide; [apply foldr_min_snoc|by rewrite app_nil_r].
Qed.

Lemma foldr_min_le (m : Z) l : (foldr Z.min m l ≤ m)%Z ∧ Forall (λ x, foldr Z.min m l ≤ x)%Z l.
Proof.
  induction l as [|a l [IH1 IH2]]; simpl; [split; [lia|constructor]|].
  split; [lia|]. constructor; [lia|]. eapply Forall_impl; [done|]. simpl. lia.
Qed.

Lemma foldr_min_in (m : Z) l : foldr Z.min m l = m ∨ foldr Z.min m l ∈ l.
Proof.
  induction l as [|a l IH]; simpl; [by left|].
  destruct (Z.min_spec a (foldr Z.min m l)) as [[_ ->]|[_ ->]].
  - right. by left.
  - destruct IH as [?|?]; [by left|right; by right].
Qed.

(** * The engine: safety and termination *)

Definition total (l : list Z) : Z := foldr Z.add 0%Z l.

Lemma total_insert l i x y :
  l !! i = Some x → total (<[i := y]> l) = (total l - x + y)%Z.
Proof.
  revert i. induction l as [|a l IH]; intros [|i] Hi; simplify_eq/=; [lia|].
  rewrite (IH _ Hi). lia.
Qed.

Lemma total_nonneg l : Forall (λ x, 0 ≤ x)%Z l → (0 ≤ total l)%Z.
Proof. induction 1; simpl; lia. Qed.

Lemma wrap64_range z : (0 ≤ wrap64 z ≤ U64_MAX)%Z.
Proof. unfold wrap64, U64_MAX. lia. Qed.

Lemma wrap64_small z : (0 ≤ z < 2 ^ 64)%Z → wrap64 z = z.
Proof. unfold wrap64. intros. by apply Z.mod_small. Qed.

Lemma bind_Done {A C} (o : outcome A) (f : A → outcome C) c :
  o ≫= f = Done c ↔ ∃ a, o = Done a ∧ f a = Done c.
Proof.
  destruct o; simpl; split; try done; try (by intros (? & ? & ?)); eauto.
  by intros (? & [= <-] & ?).
Qed.

Lemma at_index_Done {A} (l : list A) i x : at_index l i = Done x ↔ l !! i = Some x.
Proof. unfold at_index. destruct (l !! i); naive_solver. Qed.

Section EngineTheory.
Context {Q : Type} {PQ : PriorityQueue Q} {L : PriorityQueueLaws PQ}.
Variable cmod : Z.
Variable g : Graph.t.
Variable B : Z.

Abbreviation elems st := (pq_elems (pq st)).

(** *** Case analysis of the code *)

Lemma relax_edge_inv d e (st st' : State Q) :
  relax_edge cmod B d e st = Done st' →
  ∃ dto, dist st !! Edge.to e = Some dto ∧
    let nd := wrap64 (d + Edge.w e) in
    trace st' = trace st ++ [EvCand nd] ∧ popped st' = popped st ∧
    ((nd < dto ∧ nd < B)%Z ∧ dist st' = <[Edge.to e := nd]> (dist st) ∧
     pq st' = pq_push (pq st) (Entry.mk nd (Edge.to e)) ∧
     b_prime st' = b_prime st
     ∨ ¬ (nd < dto ∧ nd < B)%Z ∧ dist st' = dist st ∧ pq st' = pq st ∧
       ((B ≤ nd ∧ nd < b_prime st)%Z ∧ b_prime st' = nd
        ∨ ¬ (B ≤ nd ∧ nd < b_prime st)%Z ∧ b_prime st' = b_prime st)).
Proof.
  unfold relax_edge. intros (dto & Hdto%at_index_Done & H)%bind_Done.
  exists dto. split; [done|]. cbv zeta.
  destruct (_ && _)%Z eqn:E1 in H.
  { injection H as <-. simpl. apply andb_true_iff in E1 as [?%Z.ltb_lt ?%Z.ltb_lt].
    eauto 10. }
  apply andb_false_iff in E1.
  assert (¬ (wrap64 (d + Edge.w e) < dto ∧ wrap64 (d + Edge.w e) < B)%Z)
    by (rewrite !Z.ltb_ge in E1; lia).
  destruct (_ && _)%Z eqn:E2 in H; injection H as <-; simpl.
  { apply andb_true_iff in E2 as [?%Z.leb_le ?%Z.ltb_lt]. eauto 10. }
  apply andb_false_iff in E2. rewrite Z.leb_gt, Z.ltb_ge in E2.
  split_and!; try done. right. split_and!; try done. right. split; [lia|done].
Qed.

Lemma loop_body_inv (st : State Q) r :
  loop_body cmod g B st = Done r →
  (pq_pop (pq st) = None ∧ r = inr st) ∨
  ∃ cur q' dv,
    pq_pop (pq st) = Some (cur, q') ∧ dist st !! Entry.v cur = Some dv ∧
    let d := Entry.d cur in
    let v := Entry.v cur in
    (d ≠ dv ∧
     r = inl (mkState (dist st) q' (b_prime st) (popped st) (heap_pushes st)
                (edges_scanned st) (trace st ++ [EvPop d v false]))
     ∨ d = dv ∧ (B ≤ d)%Z ∧
       r = inr (mkState (dist st) q' d (popped st) (heap_pushes st)
                  (edges_scanned st) (trace st ++ [EvPop d v true]))
     ∨ d = dv ∧ (d < B)%Z ∧
       ∃ beg en st',
         Graph.head g !! v = Some beg ∧ Graph.head g !! (v + 1) = Some en ∧
         relax cmod g B (en - beg) beg d
           (mkState (dist st) q' (b_prime st) (incr cmod (popped st))
              (heap_pushes st) (edges_scanned st)
              (trace st ++ [EvPop d v true])) = Done st' ∧
         r = inl st').
Proof.
  unfold loop_body.
  destruct (pq_pop (pq st)) as [[cur q']|] eqn:Hpop; [|intros [= <-]; by left].
  intros (dv & Hdv%at_index_Done & H)%bind_Done. right.
  exists cur, q', dv. split_and!; [done..|]. cbv zeta.
  destruct (Z.eqb_spec (Entry.d cur) dv) as [Heq|Hne]; simpl in H.
  - destruct (Z.leb_spec B (Entry.d cur)).
    + injection H as <-. right. by left.
    + apply bind_Done in H as (beg & Hbeg%at_index_Done & H).
      apply bind_Done in H as (en & Hen%at_index_Done & H).
      apply bind_Done in H as (st' & Hrel & [= <-]).
      right. right. split_and!; [done..|]. by exists beg, en, st'.
  - injection H as <-. by left.
Qed.

Lemma relax_ind (M : nat → State Q → Prop) d :
  ∀ cnt ei st st',
    (∀ k e s s', ei ≤ k < ei + cnt → Graph.edges g !! k = Some e →
       M k s → relax_edge cmod B d e s = Done s' → M (S k) s') →
    M ei st → relax cmod g B cnt ei d st = Done st' → M (ei + cnt) st'.
Proof.
  induction cnt as [|cnt IH]; intros ei st st' Hstep HM; simpl.
  - intros [= <-]. by rewrite Nat.add_0_r.
  - intros (e & He%at_index_Done & H)%bind_Done.
    apply bind_Done in H as (s1 & Hs1 & H).
    replace (ei + S cnt) with (S ei + cnt) by lia.
    eapply IH; [|eapply (Hstep ei); [lia|done..]|done].
    intros k e' s s' Hk. apply Hstep. lia.
Qed.

Lemma main_loop_ind (I R : State Q → Prop) :
  (∀ st st', I st → loop_body cmod g B st = Done (inl st') → I st') →
  (∀ st st', I st → loop_body cmod g B st = Done (inr st') → R st') →
  ∀ fuel st r, I st → main_loop cmod g B fuel st = Done r → R r.
Proof.
  intros Hl Hr. induction fuel as [|fuel IH]; intros st r HI; simpl; [done|].
  intros ([st'|st'] & Hb & H)%bind_Done.
  - eapply IH; [|done]. by eapply Hl.
  - injection H as <-. by eapply Hr.
Qed.

(** *** No out-of-bounds access, and termination *)

Definition safe (st : State Q) : Prop :=
  length (dist st) = Graph.n g ∧
  Forall (λ x, 0 ≤ x ≤ U64_MAX)%Z (dist st) ∧
  Forall (λ e, Entry.v e < Graph.n g) (elems st) ∧
  pq_ok (pq st).

(** Every iteration of the main loop takes one entry off the queue, and
    every push lowers one distance by at least one. *)
Definition measure (st : State Q) : Z :=
  (Z.of_nat (length (elems st)) + total (dist st))%Z.

Lemma measure_nonneg st : safe st → (0 ≤ measure st)%Z.
Proof.
  intros (_ & Hd & _). unfold measure.
  assert (0 ≤ total (dist st))%Z; [|lia].
  apply total_nonneg. eapply Forall_impl; [done|]. simpl. lia.
Qed.

Lemma relax_edge_safe d e st st' :
  safe st → relax_edge cmod B d e st = Done st' →
  safe st' ∧ (measure st' ≤ measure st)%Z.
Proof.
  intros (Hlen & Hd & Hv & Hok) (dto & Hdto & H)%relax_edge_inv. cbv zeta in H.
  destruct H as (_ & _ & [(Hlt & Hdist & Hpq & _)|(_ & Hdist & Hpq & _)]).
  - unfold safe, measure. rewrite Hdist, Hpq, length_insert, pq_push_elems.
    split_and!; [done| | |by apply pq_push_ok|].
    + apply Forall_insert; [done|]. apply wrap64_range.
    + constructor; [|done]. simpl. rewrite <- Hlen. by eapply lookup_lt_Some.
    + rewrite (total_insert _ _ _ _ Hdto). simpl. lia.
  - unfold safe, measure. by rewrite Hdist, Hpq.
Qed.

Lemma relax_edge_total d e st :
  Edge.to e < Graph.n g → safe st → ∃ st', relax_edge cmod B d e st = Done st'.
Proof.
  intros He (Hlen & _). unfold relax_edge.
  destruct (lookup_lt_is_Some_2 (dist st) (Edge.to e)) as [dto Hdto]; [lia|].
  unfold at_index. rewrite Hdto. simpl. repeat case_match; eauto.
Qed.

Lemma relax_safe d cnt :
  graph_in_bounds g →
  ∀ ei st, ei + cnt ≤ length (Graph.edges g) → safe st →
    ∃ st', relax cmod g B cnt ei d st = Done st' ∧ safe st' ∧
           (measure st' ≤ measure st)%Z.
Proof.
  intros (_ & _ & Hto). induction cnt as [|cnt IH]; intros ei st Hei Hs; simpl.
  - exists st. split_and!; [done..|lia].
  - destruct (lookup_lt_is_Some_2 (Graph.edges g) ei) as [e He]; [lia|].
    unfold at_index. rewrite He. simpl.
    destruct (relax_edge_total d e st) as [s1 Hs1]; [|done|].
    { by eapply (Forall_lookup_1 _ _ _ _ Hto). }
    rewrite Hs1. simpl. apply relax_edge_safe in Hs1 as [Hs1 Hm1]; [|done].
    destruct (IH (S ei) s1) as (st' & Hst' & Hs' & Hm'); [lia|done|].
    exists st'. split_and!; [done..|lia].
Qed.

Lemma loop_body_safe st :
  graph_in_bounds g → safe st →
  ∃ r, loop_body cmod g B st = Done r ∧
       match r with
       | inl st' => safe st' ∧ (measure st' < measure st)%Z
       | inr st' => safe st'
       end.
Proof.
  intros Hg Hs. pose proof Hg as (Hhead & Hhb & _).
  pose proof Hs as (Hlen & Hd & Hv & Hok).
  unfold loop_body.
  destruct (pq_pop (pq st)) as [[cur q']|] eqn:Hpop; [|by exists (inr st)].
  pose proof (pq_pop_elems _ _ _ Hpop) as Hel.
  pose proof (pq_pop_ok _ _ _ Hok Hpop) as Hok'.
  rewrite Hel in Hv. apply Forall_cons in Hv as [Hcur Hv'].
  destruct (lookup_lt_is_Some_2 (dist st) (Entry.v cur)) as [dv Hdv]; [lia|].
  cbv zeta. rewrite (proj2 (at_index_Done _ _ _) Hdv). simpl.
  assert (Hm : ∀ s, dist s = dist st → pq s = q' →
               (measure s < measure st)%Z).
  { intros s Hsd Hsq. unfold measure. rewrite Hsd, Hsq, Hel. simpl. lia. }
  destruct (negb _).
  { eexists. split; [done|]. split; [done|]. by apply Hm. }
  destruct (B <=? _)%Z.
  { eexists. by split. }
  destruct (lookup_lt_is_Some_2 (Graph.head g) (Entry.v cur)) as [beg Hbeg]; [lia|].
  destruct (lookup_lt_is_Some_2 (Graph.head g) (Entry.v cur + 1)) as [en Hen]; [lia|].
  rewrite (proj2 (at_index_Done _ _ _) Hbeg), (proj2 (at_index_Done _ _ _) Hen).
  simpl.
  pose proof (Forall_lookup_1 _ _ _ _ Hhb Hbeg) as Hb1.
  pose proof (Forall_lookup_1 _ _ _ _ Hhb Hen) as Hb2. simpl in Hb1, Hb2.
  edestruct (relax_safe (Entry.d cur) (en - beg) Hg beg) as (st' & -> & Hs' & Hm');
    [lia| |].
  { by split_and!. }
  simpl. eexists. split; [done|]. split; [done|].
  eapply Z.le_lt_trans; [done|]. by apply Hm.
Qed.

Lemma main_loop_terminates fuel st :
  graph_in_bounds g → safe st → (measure st < Z.of_nat fuel)%Z →
  ∃ r, main_loop cmod g B fuel st = Done r ∧ safe r.
Proof.
  intros Hg. revert st. induction fuel as [|fuel IH]; intros st Hs Hm.
  { pose proof (measure_nonneg st Hs). lia. }
  simpl. destruct (loop_body_safe st Hg Hs) as ([st'|st'] & -> & Hr); simpl.
  - destruct Hr as [Hs' Hm']. apply IH; [done|lia].
  - by exists st'.
Qed.

(** More fuel does not change a result. *)
Lemma main_loop_fuel_mono fuel fuel' st r :
  fuel ≤ fuel' → main_loop cmod g B fuel st = Done r →
  main_loop cmod g B fuel' st = Done r.
Proof.
  revert fuel' st. induction fuel as [|fuel IH]; intros fuel' st Hle; [done|].
  destruct fuel' as [|fuel']; [lia|]. simpl.
  destruct (loop_body cmod g B st) as [[st'|st']| |]; simpl; try done.
  apply IH. lia.
Qed.

(** *** Distances below the bound are shortest distances *)

Section Correctness.
(** the sources entered into the queue, with their initial distances *)
Variable src : list (nat * Z).
Hypothesis B_range : (0 ≤ B ≤ U64_MAX)%Z.
Hypothesis weights_pos : positive_weights g.
Hypothesis weights_fit : no_overflow g B.

(** the edge [e] has been tried from a node at distance [du]: it
    leads past the bound, or its target is at least as near *)
Definition tried (st : State Q) (du : Z) (e : Edge.t) : Prop :=
  (B ≤ du + Edge.w e)%Z ∨
  ∃ dto, dist st !! Edge.to e = Some dto ∧ (dto ≤ du + Edge.w e)%Z.

(** every out-edge of [u] has been tried with [u] at distance [du] *)
Definition relaxed (st : State Q) (u : nat) (du : Z) : Prop :=
  ∀ ei e, edge_at g u ei e → tried st du e.

(** the same for the out-edges of the node being settled, up to
    index [k] *)
Definition relaxed_upto (st : State Q) (v : nat) (d : Z) (k : nat) : Prop :=
  ∀ ei e, edge_at g v ei e → ei < k → tried st d e.

Definition below_bound (st : State Q) : Prop :=
  Forall (λ e, Entry.d e < B)%Z (elems st).

Definition dist_reached (st : State Q) : Prop :=
  ∀ v dv, dist st !! v = Some dv → (dv < B)%Z → reach g src v dv.

Definition sources_seen (st : State Q) : Prop :=
  ∀ s d0, (s, d0) ∈ src → ∃ ds, dist st !! s = Some ds ∧ (ds ≤ d0)%Z.

Definition pending (st : State Q) : Prop :=
  ∀ u du, dist st !! u = Some du → (du < B)%Z →
    Entry.mk du u ∈ elems st ∨ relaxed st u du.

Definition pending_but (st : State Q) (v : nat) (d : Z) (k : nat) : Prop :=
  ∀ u du, dist st !! u = Some du → (du < B)%Z →
    Entry.mk du u ∈ elems st ∨ relaxed st u du ∨
    (u = v ∧ du = d ∧ relaxed_upto st v d k).

Definition inv_sp (st : State Q) : Prop :=
  below_bound st ∧ dist_reached st ∧ sources_seen st ∧ pending st.

Lemma candidate_exact d e :
  (0 ≤ d < B)%Z → e ∈ Graph.edges g →
  wrap64 (d + Edge.w e) = (d + Edge.w e)%Z ∧ (d < d + Edge.w e)%Z.
Proof.
  intros Hd He.
  pose proof (proj1 (Forall_forall _ _) weights_pos _ He) as Hp.
  pose proof (proj1 (Forall_forall _ _) weights_fit _ He) as Hf.
  simpl in *. split; [|lia]. apply wrap64_small. lia.
Qed.

Lemma tried_insert st st' du e to nd dto :
  dist st !! to = Some dto → (nd ≤ dto)%Z →
  dist st' = <[to := nd]> (dist st) →
  tried st du e → tried st' du e.
Proof.
  intros Hto Hle Hd [?|(x & Hx & ?)]; [by left|].
  right. rewrite Hd. destruct (decide (to = Edge.to e)) as [->|Hne].
  - exists nd. rewrite list_lookup_insert_eq by (by eapply lookup_lt_Some).
    split; [done|]. rewrite Hto in Hx. injection Hx as <-. lia.
  - exists x. by rewrite list_lookup_insert_ne.
Qed.

Lemma edge_at_index v k e e' :
  edge_at g v k e → Graph.edges g !! k = Some e' → e = e'.
Proof. intros (? & ? & ? & ? & ? & ?) ?. congruence. Qed.

Lemma tried_ext st st' du e :
  dist st' = dist st → tried st du e → tried st' du e.
Proof. unfold tried. by intros ->. Qed.

(** One edge of the node [v] being settled at distance [d]. *)
Lemma relax_edge_sp v d k e st st' :
  (0 ≤ d < B)%Z → reach g src v d → edge_at g v k e →
  below_bound st ∧ dist_reached st ∧ sources_seen st ∧ pending_but st v d k →
  relax_edge cmod B d e st = Done st' →
  below_bound st' ∧ dist_reached st' ∧ sources_seen st' ∧
  pending_but st' v d (S k).
Proof.
  intros Hd Hreach He (Hb & Hr & Hs & Hp) (dto & Hdto & H)%relax_edge_inv.
  cbv zeta in H.
  assert (Hin : e ∈ Graph.edges g).
  { destruct He as (? & ? & _ & _ & _ & He). by eapply list_elem_of_lookup_2. }
  destruct (candidate_exact d e Hd Hin) as [Hnd Hgt]. rewrite Hnd in H.
  destruct H as (_ & _ & [(Hlt & Hdist & Hpq & _)|(Hge & Hdist & Hpq & _)]).
  - (* dist[to] = nd; push *)
    assert (Hlen : Edge.to e < length (dist st)) by (by eapply lookup_lt_Some).
    split_and!.
    + unfold below_bound. rewrite Hpq, pq_push_elems.
      constructor; [simpl; lia|done].
    + intros u du Hu Hdu. rewrite Hdist in Hu.
      destruct (decide (Edge.to e = u)) as [<-|Hne].
      * rewrite list_lookup_insert_eq in Hu by done. injection Hu as <-.
        apply reach_step with v; [done|]. exists k. by destruct e.
      * rewrite list_lookup_insert_ne in Hu by done. by apply Hr.
    + intros s d0 Hsd. destruct (Hs s d0 Hsd) as (ds & Hds & Hle).
      rewrite Hdist. destruct (decide (Edge.to e = s)) as [<-|Hne].
      * rewrite list_lookup_insert_eq by done. eexists. split; [done|].
        rewrite Hdto in Hds. injection Hds as <-. lia.
      * rewrite list_lookup_insert_ne by done. eauto.
    + intros u du Hu Hdu. rewrite Hdist in Hu.
      destruct (decide (Edge.to e = u)) as [<-|Hne].
      * rewrite list_lookup_insert_eq in Hu by done. injection Hu as <-.
        left. rewrite Hpq, pq_push_elems. by left.
      * rewrite list_lookup_insert_ne in Hu by done.
        destruct (Hp u du Hu Hdu) as [Hq|[Hrel|(-> & -> & Hup)]].
        -- left. rewrite Hpq, pq_push_elems. by right.
        -- right. left. intros ei e' He'.
           apply (tried_insert st st' du e' _ (d + Edge.w e) _ Hdto); [lia|done|].
           by eapply Hrel.
        -- right. right. split_and!; [done..|]. intros ei e' He' Hei.
           destruct (decide (ei = k)) as [->|Hk].
           ++ destruct He as (_ & _ & _ & _ & _ & He).
              rewrite (edge_at_index _ _ _ _ He' He).
              right. rewrite Hdist, list_lookup_insert_eq by done.
              eexists. split; [done|]. lia.
           ++ apply (tried_insert st st' d e' _ (d + Edge.w e) _ Hdto); [lia|done|].
              eapply Hup; [done|lia].
  - (* no push *)
    split_and!.
    + unfold below_bound. by rewrite Hpq.
    + unfold dist_reached. by rewrite Hdist.
    + unfold sources_seen. by rewrite Hdist.
    + intros u du Hu Hdu. rewrite Hdist in Hu. rewrite Hpq.
      destruct (Hp u du Hu Hdu) as [Hq|[Hrel|(-> & -> & Hup)]].
      * by left.
      * right. left. intros ei e' He'. eapply tried_ext; [done|by eapply Hrel].
      * right. right. split_and!; [done..|]. intros ei e' He' Hei.
        destruct (decide (ei = k)) as [->|Hk].
        -- destruct He as (_ & _ & _ & _ & _ & He).
           rewrite (edge_at_index _ _ _ _ He' He).
           destruct (decide (B ≤ d + Edge.w e)%Z); [by left|].
           right. rewrite Hdist. eexists. split; [done|]. lia.
        -- eapply tried_ext; [done|]. eapply Hup; [done|lia].
Qed.

Lemma relax_sp v d beg en st st' :
  (0 ≤ d < B)%Z → reach g src v d →
  Graph.head g !! v = Some beg → Graph.head g !! (v + 1) = Some en →
  below_bound st ∧ dist_reached st ∧ sources_seen st ∧ pending_but st v d beg →
  relax cmod g B (en - beg) beg d st = Done st' →
  below_bound st' ∧ dist_reached st' ∧ sources_seen st' ∧
  pending_but st' v d (beg + (en - beg)).
Proof.
  intros Hd Hreach Hbeg Hen Hinv Hrel.
  eapply (relax_ind
    (λ k s, below_bound s ∧ dist_reached s ∧ sources_seen s ∧
            pending_but s v d k)); [|done..].
  intros k e s s' Hk He. apply relax_edge_sp; [done..|].
  exists beg, en. split_and!; [done..|lia|lia|done].
Qed.

Lemma entry_eta e : Entry.mk (Entry.d e) (Entry.v e) = e.
Proof. by destruct e. Qed.

Lemma loop_body_sp st st' :
  safe st → inv_sp st → loop_body cmod g B st = Done (inl st') → inv_sp st'.
Proof.
  intros (_ & Hrange & _) (Hb & Hr & Hs & Hp) Hbody.
  apply loop_body_inv in Hbody as [[_ [=]]|(cur & q' & dv & Hpop & Hdv & H)].
  cbv zeta in H. pose proof (pq_pop_elems _ _ _ Hpop) as Hel.
  unfold below_bound in Hb. rewrite Hel in Hb. apply Forall_cons in Hb as [Hcur Hb'].
  destruct H as [[Hne [= ->]]|[(_ & _ & [=])|(Heq & Hlt & beg & en & s & Hbeg & Hen & Hrel & [= ->])]].
  - (* stale entry *)
    split_and!; [done..|]. intros u du Hu Hdu. simpl in *.
    destruct (Hp u du Hu Hdu) as [Hq|Hrelx]; [|by right].
    left. rewrite Hel in Hq. apply elem_of_cons in Hq as [Hq|Hq]; [|done].
    subst cur. simpl in *. congruence.
  - (* settled *)
    assert (Hd0 : (0 ≤ Entry.d cur)%Z).
    { rewrite Heq. pose proof (Forall_lookup_1 _ _ _ _ Hrange Hdv). simpl in *. lia. }
    assert (Hreach : reach g src (Entry.v cur) (Entry.d cur)).
    { apply Hr; [by rewrite Heq|done]. }
    eapply relax_sp in Hrel; [|split; done|done..|].
    + destruct Hrel as (Hb1 & Hr1 & Hs1 & Hp1). split_and!; [done..|].
      intros u du Hu Hdu.
      destruct (Hp1 u du Hu Hdu) as [Hq|[Hrelx|(-> & -> & Hup)]]; [by left|by right|].
      right. intros ei e He. eapply Hup; [done|].
      destruct He as (beg' & en' & Hbeg' & Hen' & Hei & _).
      rewrite Hbeg in Hbeg'. rewrite Hen in Hen'.
      injection Hbeg' as <-. injection Hen' as <-. lia.
    + split_and!; [done..|]. intros u du Hu Hdu. simpl in *.
      destruct (Hp u du Hu Hdu) as [Hq|Hrelx]; [|by (right; left)].
      rewrite Hel in Hq. apply elem_of_cons in Hq as [Hq|Hq]; [|by left].
      right. right. subst cur. simpl. split_and!; [done..|].
      intros ei e (beg' & en' & Hbeg' & Hen' & Hei & _) Hlt'.
      simpl in *. rewrite Hbeg in Hbeg'. injection Hbeg' as <-. lia.
Qed.

Lemma loop_body_sp_exit st st' :
  inv_sp st → loop_body cmod g B st = Done (inr st') →
  inv_sp st' ∧ elems st' = [].
Proof.
  intros Hinv Hbody.
  apply loop_body_inv in Hbody as [[Hnone [= <-]]|(cur & q' & dv & Hpop & Hdv & H)].
  { split; [done|]. by apply pq_pop_None. }
  cbv zeta in H. destruct Hinv as (Hb & _).
  unfold below_bound in Hb. rewrite (pq_pop_elems _ _ _ Hpop) in Hb.
  apply Forall_cons in Hb as [Hcur _].
  destruct H as [[_ [=]]|[(_ & Hge & _)|(_ & _ & ? & ? & ? & _ & _ & _ & [=])]]. lia.
Qed.

(** At the fixpoint every walk shorter than the bound is matched. *)
Lemma fixpoint_lower st v len :
  inv_sp st → elems st = [] → reach g src v len → (len < B)%Z →
  ∃ dv, dist st !! v = Some dv ∧ (dv ≤ len)%Z.
Proof.
  intros (_ & _ & Hs & Hp) Hempty Hreach. induction Hreach as [s d0 Hsd|u d to w Hu IH He].
  - intros _. by apply Hs.
  - intros Hlt. destruct He as [ei He].
    assert (Hw : (0 < w)%Z).
    { destruct He as (_ & _ & _ & _ & _ & He%list_elem_of_lookup_2).
      by apply (proj1 (Forall_forall _ _) weights_pos _ He). }
    destruct IH as (du & Hdu & Hle); [lia|].
    destruct (Hp u du Hdu) as [Hq|Hrel]; [lia| |].
    { rewrite Hempty in Hq. by apply elem_of_nil in Hq. }
    destruct (Hrel ei _ He) as [?|(dto & Hdto & ?)]; simpl in *; [lia|].
    exists dto. split; [done|lia].
Qed.

Lemma fixpoint_shortest st v dv :
  inv_sp st → elems st = [] → dist st !! v = Some dv → (dv < B)%Z →
  shortest g src v dv.
Proof.
  intros Hinv Hempty Hdv Hlt. split.
  - destruct Hinv as (_ & Hr & _). by apply Hr.
  - intros len Hreach. destruct (decide (len < B)%Z) as [Hl|]; [|lia].
    destruct (fixpoint_lower st v len Hinv Hempty Hreach Hl) as (x & Hx & ?).
    rewrite Hdv in Hx. injection Hx as <-. lia.
Qed.

Lemma main_loop_sp fuel st r :
  graph_in_bounds g → safe st → inv_sp st →
  main_loop cmod g B fuel st = Done r →
  ∀ v dv, dist r !! v = Some dv → (dv < B)%Z → shortest g src v dv.
Proof.
  intros Hg Hs Hinv Hrun.
  assert (inv_sp r ∧ elems r = []) as [Hr He].
  { eapply (main_loop_ind (λ s, safe s ∧ inv_sp s)
              (λ s, inv_sp s ∧ elems s = [])); [| |split; done|done].
    - intros s s' [Hss Hsi] Hb. split; [|by eapply loop_body_sp].
      destruct (loop_body_safe s Hg Hss) as (r' & Hr' & Hm).
      rewrite Hb in Hr'. injection Hr' as <-. tauto.
    - intros s s' [_ Hsi]. by apply loop_body_sp_exit. }
  intros v dv. by apply fixpoint_shortest.
Qed.

(** *** Fresh pops come in non-decreasing order *)

Definition inv_mono (st : State Q) : Prop :=
  nondecreasing (fresh_pops (trace st)) ∧
  Forall (λ x, Forall (λ e, x ≤ Entry.d e)%Z (elems st)) (fresh_pops (trace st)).

Lemma relax_edge_mono d e st st' :
  (0 ≤ d < B)%Z → e ∈ Graph.edges g →
  inv_mono st ∧ Forall (λ x, x ≤ d)%Z (fresh_pops (trace st)) →
  relax_edge cmod B d e st = Done st' →
  inv_mono st' ∧ Forall (λ x, x ≤ d)%Z (fresh_pops (trace st')).
Proof.
  intros Hd Hin [[Hnd Hall] Hle] (dto & Hdto & H)%relax_edge_inv. cbv zeta in H.
  destruct (candidate_exact d e Hd Hin) as [Hex Hgt]. rewrite Hex in H.
  destruct H as (Htr & _ & H).
  assert (Hfp : fresh_pops (trace st') = fresh_pops (trace st)).
  { by rewrite Htr, fresh_pops_snoc, app_nil_r. }
  unfold inv_mono. rewrite Hfp. split_and!; [done| |done].
  destruct H as [(_ & _ & Hpq & _)|(_ & _ & Hpq & _)]; rewrite Hpq; [|done].
  rewrite Forall_forall in Hall, Hle. apply Forall_forall. intros x Hx.
  rewrite pq_push_elems. constructor; [|by apply Hall].
  simpl. specialize (Hle x Hx). simpl in Hle. lia.
Qed.

Lemma loop_body_mono st r :
  safe st → inv_mono st → loop_body cmod g B st = Done r →
  inv_mono (match r with inl s | inr s => s end).
Proof.
  intros (_ & Hrange & _ & Hok) [Hnd Hall] Hbody.
  apply loop_body_inv in Hbody as [[_ ->]|(cur & q' & dv & Hpop & Hdv & H)]; [done|].
  cbv zeta in H. pose proof (pq_pop_elems _ _ _ Hpop) as Hel.
  pose proof (pq_pop_min _ _ _ Hok Hpop) as Hmin. rewrite Hel in Hmin.
  apply Forall_cons in Hmin as [_ Hmin].
  assert (Hall' : Forall (λ x, (x ≤ Entry.d cur)%Z ∧
                               Forall (λ e, x ≤ Entry.d e)%Z (pq_elems q'))
                    (fresh_pops (trace st))).
  { eapply Forall_impl; [done|]. simpl. intros x Hx. rewrite Hel in Hx.
    by apply Forall_cons in Hx. }
  apply Forall_and in Hall' as [Hle Hq'].
  assert (Hfresh : ∀ s : State Q,
            pq s = q' →
            trace s = trace st ++ [EvPop (Entry.d cur) (Entry.v cur) true] →
            inv_mono s ∧ Forall (λ x, x ≤ Entry.d cur)%Z (fresh_pops (trace s))).
  { intros s Hsq Hst. unfold inv_mono. rewrite Hsq, Hst, fresh_pops_snoc.
    split_and!.
    - by apply nondecreasing_snoc.
    - apply Forall_app. split; [done|]. by constructor.
    - apply Forall_app. split; [done|]. constructor; [lia|done]. }
  destruct H as [[Hne ->]|[(_ & _ & ->)|(Heq & Hlt & beg & en & s & Hbeg & Hen & Hrel & ->)]].
  - unfold inv_mono. simpl. by rewrite fresh_pops_snoc, app_nil_r.
  - by apply Hfresh.
  - assert (Hd0 : (0 ≤ Entry.d cur)%Z).
    { rewrite Heq. pose proof (Forall_lookup_1 _ _ _ _ Hrange Hdv). simpl in *. lia. }
    eapply (relax_ind
      (λ _ s, inv_mono s ∧ Forall (λ x, x ≤ Entry.d cur)%Z (fresh_pops (trace s))))
      in Hrel as [? _]; [done| |by apply Hfresh].
    intros k e s1 s2 _ He. apply relax_edge_mono; [lia|].
    by eapply list_elem_of_lookup_2.
Qed.

Lemma main_loop_mono fuel st r :
  graph_in_bounds g → safe st → inv_mono st →
  main_loop cmod g B fuel st = Done r → inv_mono r.
Proof.
  intros Hg Hs Hinv.
  apply (main_loop_ind (λ s, safe s ∧ inv_mono s) inv_mono); [| |done].
  - intros s s' [Hss Hsi] Hb. split; [|by apply (loop_body_mono s _ Hss Hsi Hb)].
    destruct (loop_body_safe s Hg Hss) as (r' & Hr' & Hm).
    rewrite Hb in Hr'. injection Hr' as <-. tauto.
  - intros s s' [Hss Hsi] Hb. by apply (loop_body_mono s _ Hss Hsi Hb).
Qed.
End Correctness.

(** *** Entering the sources *)

(** the sources that make it into the queue *)
Definition active (src : list (nat * Z)) : list (nat * Z) :=
  filter (λ sd, sd.2 < B)%Z src.

Definition entry_of (sd : nat * Z) : Entry.t := Entry.mk sd.2 sd.1.

(** State after the sources [done] have been entered. *)
Definition entered (done : list (nat * Z)) (st : State Q) : Prop :=
  safe st ∧
  elems st ≡ₚ entry_of <$> active done ∧
  (∀ v dv, dist st !! v = Some dv → (dv < B)%Z → (v, dv) ∈ done) ∧
  (∀ s d0, (s, d0) ∈ done → (d0 < B)%Z → dist st !! s = Some d0) ∧
  (∀ s, s < Graph.n g → s ∉ (active done).*1 → dist st !! s = Some U64_MAX) ∧
  b_prime st = U64_MAX ∧ trace st = [] ∧ popped st = 0%Z ∧
  heap_pushes st = 0%Z ∧ edges_scanned st = 0%Z.

Definition functional (src : list (nat * Z)) : Prop :=
  ∀ s a b, (s, a) ∈ src → (s, b) ∈ src → a = b.

Definition sources_in_range (src : list (nat * Z)) : Prop :=
  Forall (λ sd, sd.1 < Graph.n g ∧ (0 ≤ sd.2 ≤ U64_MAX)%Z) src.

Lemma NoDup_functional src : NoDup src.*1 → functional src.
Proof.
  intros Hnd s a b Ha Hb.
  apply list_elem_of_lookup in Ha as [i Hi]. apply list_elem_of_lookup in Hb as [j Hj].
  assert (i = j) as ->; [|congruence].
  eapply NoDup_lookup; [done| |]; rewrite list_lookup_fmap.
  - by rewrite Hi.
  - by rewrite Hj.
Qed.

Lemma start_entered : (B ≤ U64_MAX)%Z → entered [] (start g).
Proof.
  intros HB. unfold entered, safe, start. simpl.
  rewrite pq_empty_elems, length_replicate.
  split_and!; try done.
  - apply Forall_replicate. unfold U64_MAX. lia.
  - apply pq_empty_ok.
  - intros v dv [-> _]%lookup_replicate. lia.
  - intros s d0 []%elem_of_nil.
  - intros s Hs _. by apply lookup_replicate.
Qed.

Lemma cpp_enter_entered done st s d0 :
  (B ≤ U64_MAX)%Z → functional (done ++ [(s, d0)]) →
  s < Graph.n g → (0 ≤ d0 ≤ U64_MAX)%Z →
  entered done st →
  ∃ st', cpp_enter B st (s, d0) = Done st' ∧ entered (done ++ [(s, d0)]) st'.
Proof.
  intros HB Hfun Hs Hd0 ((Hlen & Hrange & Hv & Hok) & Hel & Hdist & Hsrc & Hmax & Hrest).
  assert (Hact : active (done ++ [(s, d0)]) =
                 active done ++ (if decide (d0 < B)%Z then [(s, d0)] else [])).
  { unfold active. rewrite filter_app, filter_cons, filter_nil. simpl.
    by case_decide. }
  unfold cpp_enter, entered. rewrite Hact. clear Hact.
  destruct (Z.ltb_spec d0 B) as [Hlt|Hge].
  - rewrite decide_True by lia. eexists. split; [done|].
    rewrite decide_True by done. unfold safe. simpl.
    rewrite length_insert, pq_push_elems, fmap_app, Hel. simpl.
    split_and!; try done.
    + by apply Forall_insert.
    + constructor; [done|]. by rewrite <- Hel.
    + by apply pq_push_ok.
    + by rewrite Permutation_app_comm.
    + intros v dv Hvd Hdv. apply elem_of_app.
      destruct (decide (s = v)) as [<-|Hne].
      * rewrite list_lookup_insert_eq in Hvd by lia. injection Hvd as <-.
        right. by apply list_elem_of_singleton.
      * rewrite list_lookup_insert_ne in Hvd by done. left. by apply Hdist.
    + intros s' d0' Hin Hlt'. destruct (decide (s = s')) as [<-|Hne].
      * rewrite list_lookup_insert_eq by lia. f_equal.
        eapply Hfun; [|done]. apply elem_of_app. right. by apply list_elem_of_singleton.
      * rewrite list_lookup_insert_ne by done. apply Hsrc; [|done].
        apply elem_of_app in Hin as [|[=]%list_elem_of_singleton]; [done|]. congruence.
    + intros s' Hs' Hnin. rewrite fmap_app, not_elem_of_app in Hnin.
      destruct Hnin as [Hn1 Hn2]. simpl in Hn2.
      rewrite list_lookup_insert_ne; [by apply Hmax|].
      intros ->. apply Hn2. by left.
    + tauto.
    + tauto.
    + tauto.
    + tauto.
    + tauto.
  - eexists. split; [done|]. rewrite decide_False by lia.
    rewrite app_nil_r. unfold safe. split_and!; try done; try tauto.
    + intros v dv Hvd Hdv. apply elem_of_app. left. by apply Hdist.
    + intros s' d0' Hin Hlt'. apply Hsrc; [|done].
      apply elem_of_app in Hin as [|[=]%list_elem_of_singleton]; [done|]. lia.
Qed.

Lemma cpp_enter_all_entered src :
  (B ≤ U64_MAX)%Z → functional src → sources_in_range src →
  ∀ todo done st, done ++ todo = src → entered done st →
    ∃ st', enter_all (cpp_enter B) todo st = Done st' ∧ entered src st'.
Proof.
  intros HB Hfun Hr. induction todo as [|[s d0] todo IH]; intros done st Heq Hst.
  - rewrite app_nil_r in Heq. subst. by exists st.
  - assert (Hin : (s, d0) ∈ src).
    { rewrite <- Heq. apply elem_of_app. right. by left. }
    pose proof (proj1 (Forall_forall _ _) Hr _ Hin) as [Hs Hd0]. simpl in Hs, Hd0.
    destruct (cpp_enter_entered done st s d0) as (s1 & Hs1 & He1); [done| |done..|].
    { assert (Hsub : ∀ x, x ∈ done ++ [(s, d0)] → x ∈ src).
      { intros x. rewrite <- Heq, !elem_of_app, !elem_of_cons, elem_of_nil.
        tauto. }
      intros x a b Ha Hb. apply (Hfun x); by apply Hsub. }
    cbn [enter_all]. rewrite Hs1. simpl. apply (IH (done ++ [(s, d0)])); [|done].
    by rewrite <- app_assoc.
Qed.

Lemma entered_inv_sp src st : entered src st → inv_sp (active src) st.
Proof.
  intros (Hsafe & Hel & Hdist & Hsrc & _). split_and!.
  - unfold below_bound. rewrite Hel. apply Forall_fmap, Forall_forall.
    intros sd [Hlt _]%list_elem_of_filter. done.
  - intros v dv Hv Hdv. apply reach_source. apply list_elem_of_filter. split; [done|].
    by apply Hdist.
  - intros s d0 [Hlt Hin]%list_elem_of_filter. exists d0. split; [|lia]. by apply Hsrc.
  - intros u du Hu Hdu. left. rewrite Hel.
    apply (list_elem_of_fmap_2 entry_of _ (u, du)).
    apply list_elem_of_filter. split; [done|]. by apply Hdist.
Qed.

(** The C program enters every source at distance 0; for a positive
    bound that is what the C++ program does with the pairs [(s, 0)]. *)
Lemma c_enter_cpp_enter st s : (0 < B)%Z → c_enter st s = cpp_enter B st (s, 0%Z).
Proof. intros HB. unfold c_enter, cpp_enter. by destruct (Z.ltb_spec 0 B); [|lia]. Qed.

Lemma c_enter_all_cpp sources st :
  (0 < B)%Z →
  enter_all c_enter sources st = enter_all (cpp_enter B) (at_zero sources) st.
Proof.
  intros HB. revert st. induction sources as [|s sources IH]; intros st; [done|].
  cbn [enter_all fmap list_fmap at_zero]. rewrite c_enter_cpp_enter by done.
  destruct (cpp_enter B st (s, 0%Z)); simpl; [apply IH|done..].
Qed.

Lemma at_zero_functional sources : functional (at_zero sources).
Proof.
  intros s a b (? & [= -> ->] & _)%list_elem_of_fmap (? & [= _ ->] & _)%list_elem_of_fmap.
  done.
Qed.

Lemma at_zero_active sources : (0 < B)%Z → active (at_zero sources) = at_zero sources.
Proof.
  intros HB. unfold active, at_zero. induction sources as [|s l IH]; [done|].
  rewrite fmap_cons, filter_cons. simpl. rewrite decide_True by done. by rewrite IH.
Qed.

(** *** The bound on queue and distances, and the boundary value *)

Definition dist_bounded (st : State Q) : Prop :=
  Forall (λ x, x = U64_MAX ∨ x < B)%Z (dist st).

Definition inv_bound (st : State Q) : Prop :=
  below_bound st ∧ dist_bounded st ∧
  b_prime st = foldr Z.min U64_MAX (observed B (trace st)) ∧
  Forall (λ x, x ≤ U64_MAX)%Z (observed B (trace st)).

Lemma relax_edge_bound d e st st' :
  inv_bound st → relax_edge cmod B d e st = Done st' → inv_bound st'.
Proof.
  intros (Hb & Hd & Hbp & Hobs) (dto & Hdto & H)%relax_edge_inv. cbv zeta in H.
  destruct H as (Htr & _ & H). unfold inv_bound, below_bound, dist_bounded.
  rewrite Htr, foldr_min_observed_snoc, <- Hbp.
  assert (Forall (λ x, x ≤ U64_MAX)%Z
            (observed B (trace st ++ [EvCand (wrap64 (d + Edge.w e))]))).
  { rewrite observed_snoc. apply Forall_app. split; [done|].
    case_decide; repeat constructor. apply wrap64_range. }
  simpl.
  destruct H as [(Hlt & -> & -> & ->)|(Hge & -> & -> & [[Hc ->]|[Hc ->]])].
  - rewrite pq_push_elems. split_and!; [| | |done].
    + constructor; [simpl; lia|done].
    + apply Forall_insert; [done|]. lia.
    + rewrite decide_False by lia. simpl. lia.
  - split_and!; [done..| |done]. rewrite decide_True by lia. simpl. lia.
  - split_and!; [done..| |done]. case_decide; simpl; lia.
Qed.

Lemma loop_body_bound st r :
  inv_bound st → loop_body cmod g B st = Done r →
  inv_bound (match r with inl s | inr s => s end).
Proof.
  intros (Hb & Hd & Hbp & Hobs) Hbody.
  apply loop_body_inv in Hbody as [[_ ->]|(cur & q' & dv & Hpop & Hdv & H)]; [done|].
  cbv zeta in H. pose proof (pq_pop_elems _ _ _ Hpop) as Hel.
  unfold below_bound in Hb. rewrite Hel in Hb. apply Forall_cons in Hb as [Hcur Hb'].
  assert (Hpopped : ∀ (s : State Q) f,
            pq s = q' → dist s = dist st → b_prime s = b_prime st →
            trace s = trace st ++ [EvPop (Entry.d cur) (Entry.v cur) f] →
            inv_bound s).
  { intros s f Hsq Hsd Hsb Hst. unfold inv_bound, below_bound, dist_bounded.
    rewrite Hsq, Hsd, Hsb, Hst, foldr_min_observed_snoc, observed_snoc. simpl.
    rewrite !decide_False by lia. by rewrite app_nil_r. }
  destruct H as [[Hne ->]|[(_ & Hge & _)|(Heq & Hlt & beg & en & s & Hbeg & Hen & Hrel & ->)]].
  - by eapply Hpopped.
  - lia.
  - eapply (relax_ind (λ _ s, inv_bound s)) in Hrel; [done| |by eapply Hpopped].
    intros k e s1 s2 _ _. apply relax_edge_bound.
Qed.

Lemma main_loop_bound fuel st r :
  inv_bound st → main_loop cmod g B fuel st = Done r → inv_bound r.
Proof.
  apply (main_loop_ind inv_bound inv_bound).
  - intros s s' Hs Hb. by apply (loop_body_bound s _ Hs Hb).
  - intros s s' Hs Hb. by apply (loop_body_bound s _ Hs Hb).
Qed.

Lemma entered_inv_bound src st :
  (B ≤ U64_MAX)%Z → entered src st → inv_bound st.
Proof.
  intros HB Hent. pose proof (entered_inv_sp src st Hent) as (Hb & _).
  destruct Hent as ((Hlen & _) & _ & Hdist & Hsrc & Hmax & Hbp & Htr & _).
  split_and!; [done| |by rewrite Hbp, Htr|by rewrite Htr].
  apply Forall_lookup. intros v dv Hv.
  destruct (decide (v ∈ (active src).*1)) as [Hin|Hnin].
  - apply list_elem_of_fmap in Hin as ([s d0] & -> & [Hlt Hin]%list_elem_of_filter).
    simpl in *. rewrite (Hsrc _ _ Hin Hlt) in Hv. injection Hv as <-. by right.
  - rewrite Hmax in Hv; [|by rewrite <- Hlen; eapply lookup_lt_Some|done].
    injection Hv as <-. by left.
Qed.

Lemma entered_inv_mono src st : entered src st → inv_mono st.
Proof.
  intros (_ & _ & _ & _ & _ & _ & Htr & _). unfold inv_mono. rewrite Htr. simpl.
  split; [|constructor]. intros i j a b _ Hi. by rewrite lookup_nil in Hi.
Qed.

(** *** Entering the sources keeps the bound invariants *)

Definition primed (st : State Q) : Prop :=
  safe st ∧ inv_bound st ∧ trace st = [] ∧ popped st = 0%Z.

Lemma start_primed : (B ≤ U64_MAX)%Z → primed (start g).
Proof.
  intros HB. pose proof (start_entered HB) as He.
  split_and!; [apply He|by eapply entered_inv_bound|done..].
Qed.

Lemma cpp_enter_lt st s d0 :
  (d0 < B)%Z → s < length (dist st) →
  cpp_enter B st (s, d0) =
  Done (mkState (<[s := d0]> (dist st)) (pq_push (pq st) (Entry.mk d0 s))
          (b_prime st) (popped st) (heap_pushes st) (edges_scanned st)
          (trace st)).
Proof.
  intros Hlt Hs. unfold cpp_enter.
  destruct (Z.ltb_spec d0 B); [|lia]. by rewrite decide_True.
Qed.

Lemma cpp_enter_ge st s d0 : (B ≤ d0)%Z → cpp_enter B st (s, d0) = Done st.
Proof. intros Hge. unfold cpp_enter. by destruct (Z.ltb_spec d0 B); [lia|]. Qed.

Lemma c_enter_in_range st s :
  s < length (dist st) →
  c_enter st s =
  Done (mkState (<[s := 0%Z]> (dist st)) (pq_push (pq st) (Entry.mk 0 s))
          (b_prime st) (popped st) (heap_pushes st) (edges_scanned st)
          (trace st)).
Proof. intros Hs. unfold c_enter. by rewrite decide_True. Qed.

Lemma cpp_enter_all_primed src st :
  sources_in_range src → primed st →
  ∃ st', enter_all (cpp_enter B) src st = Done st' ∧ primed st'.
Proof.
  intros Hr. revert st. induction Hr as [|[s d0] src [Hs Hd0] _ IH]; intros st Hst.
  { by exists st. }
  simpl in Hs, Hd0. cbn [enter_all].
  destruct (Z.lt_ge_cases d0 B) as [Hlt|Hge];
    [|rewrite cpp_enter_ge by done; by apply IH].
  destruct Hst as ((Hlen & Hrange & Hv & Hok) & (Hb & Hd & Hbp & Hobs) & Htr & Hpop).
  rewrite cpp_enter_lt by (done || lia). simpl. apply IH.
  unfold primed, safe, inv_bound, below_bound, dist_bounded. simpl.
  rewrite length_insert, pq_push_elems.
  split_and!; try done.
  - by apply Forall_insert.
  - by constructor.
  - by apply pq_push_ok.
  - by constructor.
  - apply Forall_insert; [done|]. by right.
Qed.

Lemma c_enter_all_safe sources st :
  Forall (λ s, s < Graph.n g) sources → safe st →
  ∃ st', enter_all c_enter sources st = Done st' ∧ safe st'.
Proof.
  intros Hr. revert st. induction Hr as [|s sources Hs _ IH]; intros st Hst.
  { by exists st. }
  cbn [enter_all].
  destruct Hst as (Hlen & Hrange & Hv & Hok).
  rewrite c_enter_in_range by lia. simpl. apply IH.
  unfold safe. simpl. rewrite length_insert, pq_push_elems.
  split_and!; try done.
  - apply Forall_insert; [done|]. unfold U64_MAX. lia.
  - by constructor.
  - by apply pq_push_ok.
Qed.

Lemma at_zero_in_range sources :
  Forall (λ s, s < Graph.n g) sources → sources_in_range (at_zero sources).
Proof.
  intros H. apply Forall_fmap. eapply Forall_impl; [done|].
  simpl. unfold U64_MAX. intros s Hs. split; [done|lia].
Qed.
End EngineTheory.

(** * The two programs *)

Section Runs.
Context {Q : Type} {PQ : PriorityQueue Q} {L : PriorityQueueLaws PQ}.
Variable cmod : Z.
Variable g : Graph.t.
Variable B : Z.
Hypothesis g_ok : graph_in_bounds g.
Hypothesis B_range : (0 ≤ B ≤ U64_MAX)%Z.

(** Entering sources the C++ way and running the loop, over either queue. *)
Definition run (fuel : nat) (src : list (nat * Z)) : outcome (State Q) :=
  st ← enter_all (cpp_enter B) src (start g);
  main_loop cmod g B fuel st.

Lemma run_terminates src :
  sources_in_range g src →
  ∃ fuel st r,
    enter_all (cpp_enter B) src (start g) = Done st ∧ primed g B st ∧
    main_loop cmod g B fuel st = Done r ∧ run fuel src = Done r ∧
    safe g r ∧ inv_bound B r.
Proof.
  intros Hsrc.
  destruct (cpp_enter_all_primed g B src (start g) Hsrc) as (st & Hst & Hp).
  { apply start_primed. lia. }
  pose proof Hp as (Hsafe & Hb & _).
  destruct (main_loop_terminates cmod g B (S (Z.to_nat (measure st))) st)
    as (r & Hr & Hsr); [done..| |].
  { pose proof (measure_nonneg g st Hsafe). lia. }
  exists (S (Z.to_nat (measure st))), st, r. unfold run. rewrite Hst.
  split_and!; try done. by eapply main_loop_bound.
Qed.

Lemma run_shortest src :
  positive_weights g → no_overflow g B →
  functional src → sources_in_range g src →
  ∃ fuel r, run fuel src = Done r ∧
    ∀ v dv, dist r !! v = Some dv → (dv < B)%Z →
      shortest g (active B src) v dv.
Proof.
  intros Hpos Hfit Hfun Hsrc.
  destruct (run_terminates src Hsrc) as (fuel & st & r & Hst & Hp & Hr & Hrun & _).
  exists fuel, r. split; [done|].
  destruct (cpp_enter_all_entered g B src ltac:(lia) Hfun Hsrc src [] (start g))
    as (st' & Hst' & Hent); [done|apply start_entered; lia|].
  rewrite Hst in Hst'. injection Hst' as <-.
  eapply main_loop_sp; [done..|apply Hent|by apply entered_inv_sp|done].
Qed.

Lemma run_nondecreasing src :
  positive_weights g → no_overflow g B → sources_in_range g src →
  ∃ fuel r, run fuel src = Done r ∧ nondecreasing (fresh_pops (trace r)).
Proof.
  intros Hpos Hfit Hsrc.
  destruct (run_terminates src Hsrc) as (fuel & st & r & Hst & Hp & Hr & Hrun & _).
  exists fuel, r. split; [done|].
  destruct Hp as (Hsafe & _ & Htr & _).
  eapply (main_loop_mono cmod g B B_range Hpos Hfit fuel st r); [done..| |done].
  unfold inv_mono. rewrite Htr. simpl. split; [|constructor].
  intros i j a b _ Hi. by rewrite lookup_nil in Hi.
Qed.
End Runs.

Lemma cpp_trial_run fuel g src B :
  cpp_trial fuel g src B = run (PQ := cpp_priority_queue) (2 ^ 64) g B fuel src.
Proof. done. Qed.

Lemma c_trial_run fuel g sources B :
  (0 < B)%Z →
  c_trial fuel g sources B = run (PQ := c_heap) (2 ^ 32) g B fuel (at_zero sources).
Proof.
  intros HB. unfold c_trial, run. by rewrite (c_enter_all_cpp (PQ := c_heap) B _ _ HB).
Qed.

(** State of the C program after the sources [done] have been entered. *)
Definition c_entered (g : Graph.t) (done : list nat) (st : State (list Entry.t)) : Prop :=
  safe (PQ := c_heap) g st ∧
  pq st ≡ₚ (λ s, Entry.mk 0 s) <$> done ∧
  (∀ s, s ∈ done → dist st !! s = Some 0%Z) ∧
  b_prime st = U64_MAX ∧ trace st = [] ∧ popped st = 0%Z.

Lemma c_enter_all_entered g :
  ∀ todo done st,
    Forall (λ s, s < Graph.n g) todo → c_entered g done st →
    ∃ st', enter_all (c_enter (PQ := c_heap)) todo st = Done st' ∧
           c_entered g (done ++ todo) st'.
Proof.
  induction todo as [|s todo IH]; intros done st Hr Hst.
  { rewrite app_nil_r. by exists st. }
  apply Forall_cons in Hr as [Hs Hr].
  destruct Hst as ((Hlen & Hrange & Hv & Hok) & Hel & Hd & Hbp & Htr & Hpop).
  cbn [enter_all]. rewrite c_enter_in_range by lia. simpl.
  replace (done ++ s :: todo) with ((done ++ [s]) ++ todo) by (by rewrite <- app_assoc).
  apply IH; [done|]. unfold c_entered, safe. simpl in *.
  rewrite length_insert.
  split_and!; try done.
  - apply Forall_insert; [done|]. unfold U64_MAX. lia.
  - rewrite heap_push_perm. by constructor.
  - by apply heap_push_ordered.
  - rewrite heap_push_perm, fmap_app, Hel. simpl. by rewrite Permutation_app_comm.
  - intros s' Hin. destruct (decide (s = s')) as [<-|Hne].
    + rewrite list_lookup_insert_eq by lia. done.
    + rewrite list_lookup_insert_ne by done. apply Hd.
      apply elem_of_app in Hin as [|Hin%list_elem_of_singleton]; [done|congruence].
Qed.

(** With [B = 0] the C program breaks out of the loop at the first pop. *)
Lemma c_trial_B0 g sources fuel :
  Forall (λ s, s < Graph.n g) sources →
  ∃ r,
    c_trial (S fuel) g sources 0 = Done r ∧ popped r = 0%Z ∧
    (∀ v dv, dist r !! v = Some dv → (0 ≤ dv)%Z) ∧
    (sources = [] → trace r = [] ∧ b_prime r = U64_MAX) ∧
    (sources ≠ [] → b_prime r = 0%Z ∧
       ∃ s, s ∈ sources ∧ trace r = [EvPop 0 s true]).
Proof.
  intros Hsrc.
  destruct (c_enter_all_entered g sources [] (start (PQ := c_heap) g) Hsrc)
    as (st & Hst & Hent).
  { pose proof (start_primed (PQ := c_heap) g 0 ltac:(unfold U64_MAX; lia))
      as (Hsafe & _).
    split_and!; try done. intros s Hs. by apply elem_of_nil in Hs. }
  simpl in Hent. destruct Hent as ((Hlen & Hrange & Hv & Hok) & Hel & Hd & Hbp & Htr & Hpop).
  assert (Hnn : ∀ v dv, dist st !! v = Some dv → (0 ≤ dv)%Z).
  { intros v dv Hvd. pose proof (Forall_lookup_1 _ _ _ _ Hrange Hvd). simpl in *. lia. }
  unfold c_trial. rewrite Hst. cbn [mbind outcome_bind main_loop].
  unfold loop_body. simpl pq_pop.
  destruct (heap_pop (pq st)) as [[cur q']|] eqn:Hpopq.
  - pose proof (heap_pop_perm _ _ _ Hpopq) as Hperm.
    assert (Hcur : cur ∈ (λ s, Entry.mk 0 s) <$> sources).
    { rewrite <- Hel, Hperm. by left. }
    apply list_elem_of_fmap in Hcur as (s & -> & Hs).
    cbv zeta. simpl Entry.v. simpl Entry.d.
    rewrite (proj2 (at_index_Done _ _ _) (Hd s Hs)). simpl.
    eexists. split; [done|]. simpl. split_and!; [done|done| |].
    + intros ->. by apply elem_of_nil in Hs.
    + intros _. split; [done|]. exists s. by rewrite Htr.
  - apply heap_pop_None in Hpopq. simpl. exists st. split_and!; [done..| |].
    + done.
    + intros Hne. rewrite Hpopq in Hel. symmetry in Hel.
      apply Permutation_nil_r in Hel. by destruct sources.
Qed.

(** * Source selection *)

(** The loop of [pick_sources] keeps [used] and [out] in step. *)
Definition pick_ok (n : nat) (used : list bool) (out : list nat) : Prop :=
  length used = n ∧ NoDup out ∧ ∀ s, used !! s = Some true ↔ s ∈ out.

Lemma pick_ok_start n : pick_ok n (replicate n false) [].
Proof.
  split_and!; [by rewrite length_replicate|constructor|].
  intros s. split.
  - by intros [[=] _]%lookup_replicate.
  - by intros ?%elem_of_nil.
Qed.

Lemma pick_ok_range n used out : pick_ok n used out → Forall (λ s, s < n) out.
Proof.
  intros (Hlen & _ & Hu). apply Forall_forall. intros s Hs.
  apply Hu in Hs. rewrite <- Hlen. by eapply lookup_lt_Some.
Qed.

Lemma pick_ok_length n used out : pick_ok n used out → length out ≤ n.
Proof.
  intros Hok. pose proof (pick_ok_range _ _ _ Hok) as Hr. destruct Hok as (_ & Hnd & _).
  transitivity (length (seq 0 n)); [|by rewrite length_seq].
  apply submseteq_length, NoDup_submseteq; [done|].
  intros s Hs. apply elem_of_seq. rewrite Forall_forall in Hr. specialize (Hr s Hs).
  simpl in Hr. lia.
Qed.

Lemma pick_ok_step n used out s :
  pick_ok n used out → used !! s = Some false →
  pick_ok n (<[s := true]> used) (out ++ [s]).
Proof.
  intros (Hlen & Hnd & Hu) Hs.
  assert (Hnin : s ∉ out).
  { intros Hin. apply Hu in Hin. congruence. }
  split_and!.
  - by rewrite length_insert.
  - apply NoDup_app. split_and!; [done| |apply NoDup_singleton].
    intros x Hx ->%list_elem_of_singleton. done.
  - intros x. rewrite elem_of_app, list_elem_of_singleton.
    destruct (decide (s = x)) as [<-|Hne].
    + rewrite list_lookup_insert_eq by (by eapply lookup_lt_Some). tauto.
    + rewrite list_lookup_insert_ne by done. rewrite Hu. split; [tauto|].
      intros [?|?]; [done|congruence].
Qed.

Lemma draw_in_range (z : Z) (n : nat) : n ≠ 0 → Z.to_nat (z mod Z.of_nat n) < n.
Proof. intros Hn. pose proof (Z.mod_pos_bound z (Z.of_nat n)). lia. Qed.

Lemma pick_loop_never fuel draws n k :
  0 < n → n < k →
  ∀ i used out, pick_ok n used out →
    pick_loop fuel draws i n k used out = OutOfFuel.
Proof.
  intros Hn Hk. induction fuel as [|fuel IH]; intros i used out Hok; [done|].
  pose proof (pick_ok_length _ _ _ Hok) as Hlen. simpl.
  rewrite decide_True by lia. rewrite decide_False by lia.
  pose proof (draw_in_range (draws i) n ltac:(lia)) as Hs.
  destruct (lookup_lt_is_Some_2 used (Z.to_nat (draws i mod Z.of_nat n)))
    as [u Hu]; [destruct Hok as [-> _]; lia|].
  rewrite (proj2 (at_index_Done _ _ _) Hu). simpl.
  destruct u; [by apply IH|]. apply IH. by apply pick_ok_step.
Qed.

Lemma pick_loop_result fuel draws n k :
  ∀ i used out r, pick_ok n used out → length out ≤ k →
    pick_loop fuel draws i n k used out = Done r →
    length r = k ∧ NoDup r ∧ Forall (λ s, s < n) r.
Proof.
  induction fuel as [|fuel IH]; intros i used out r Hok Hlen; [done|].
  simpl. case_decide as Hc.
  - case_decide as Hn0; [done|].
    intros (u & Hu%at_index_Done & Hrun)%bind_Done.
    destruct u; [by eapply IH|].
    eapply IH in Hrun; [done|by apply pick_ok_step|].
    rewrite length_app. simpl. lia.
  - intros [= <-]. split_and!; [lia|apply Hok|by eapply pick_ok_range].
Qed.

Lemma read_source_lines_all pairs :
  read_source_lines (length pairs) (source_lines pairs) =
  inr ((λ p, Z.to_nat (p.1 mod 2 ^ 32)) <$> pairs).
Proof.
  induction pairs as [|[s d0] pairs IH]; [done|].
  cbn [length source_lines read_source_lines scan]. by rewrite IH.
Qed.

Lemma cpp_read_source_lines_all pairs :
  cpp_read_source_lines (length pairs) (Some (source_lines pairs)) =
  Done ((λ p, (Z.to_nat (p.1 mod 2 ^ 32), wrap64 p.2)) <$> pairs).
Proof.
  induction pairs as [|[s d0] pairs IH]; [done|].
  cbn [length source_lines cpp_read_source_lines extract stored mbind outcome_bind].
  by rewrite IH.
Qed.

Lemma length_fits (k : nat) :
  (Z.of_nat k < 2 ^ 32)%Z → Z.to_nat (Z.of_nat k mod 2 ^ 32) = k.
Proof. intros H. rewrite Z.mod_small by lia. lia. Qed.

(** * CSR graphs *)

Lemma wrap32_small (k : nat) : (Z.of_nat k < 2 ^ 32)%Z → wrap32 k = k.
Proof. intros H. unfold wrap32. rewrite Z.mod_small by lia. lia. Qed.

Lemma group_step_lookup n adj t u :
  length adj = n → u < n →
  group_step n adj t !! u = Some (adj !!! u ++ out_edges n [t] u).
Proof.
  intros Hlen Hu. destruct t as [[u' v] w]. unfold group_step, out_edges. simpl.
  assert (Hsome : adj !! u = Some (adj !!! u)).
  { apply list_lookup_lookup_total_lt. lia. }
  destruct (decide (u' < n ∧ v < n)) as [[Hu' Hv]|Hno].
  - destruct (decide (u' = u)) as [->|Hne].
    + rewrite list_lookup_insert_eq by lia. by rewrite decide_True.
    + rewrite list_lookup_insert_ne by done. rewrite decide_False by tauto.
      by rewrite app_nil_r.
  - rewrite decide_False by tauto. by rewrite app_nil_r.
Qed.

Lemma group_step_length n adj t : length (group_step n adj t) = length adj.
Proof.
  destruct t as [[u' v] w]. unfold group_step. case_decide; [|done].
  by rewrite length_insert.
Qed.

Lemma group_all n elist :
  ∀ adj, length adj = n →
    length (foldl (group_step n) adj elist) = n ∧
    ∀ u, u < n →
      foldl (group_step n) adj elist !!! u = adj !!! u ++ out_edges n elist u.
Proof.
  induction elist as [|t elist IH]; intros adj Hlen; simpl.
  - split; [done|]. intros u Hu. by rewrite app_nil_r.
  - destruct (IH (group_step n adj t)) as [Hl Hu']; [by rewrite group_step_length|].
    split; [done|]. intros u Hu. rewrite (Hu' u Hu).
    rewrite (list_lookup_total_correct _ _ _ (group_step_lookup n adj t u Hlen Hu)).
    rewrite <- app_assoc. f_equal. unfold out_edges. simpl.
    by destruct (decide _).
Qed.

(** what [csr_loop] has built when it has done the nodes below [u] *)
Definition csr_upto (adj : list (list Edge.t)) (u : nat)
    (edges : list Edge.t) (head : list nat) : Prop :=
  edges = concat (take u adj) ∧
  length head = S (length adj) ∧
  ∀ j, j ≤ u → head !! j = Some (length (concat (take j adj))).

Lemma csr_loop_upto adj :
  (Z.of_nat (length (concat adj)) < 2 ^ 32)%Z →
  ∀ cnt u edges head,
    u + cnt = length adj → csr_upto adj u edges head →
    csr_upto adj (length adj) (csr_loop cnt u adj edges head).1
      (csr_loop cnt u adj edges head).2.
Proof.
  intros Hfit. induction cnt as [|cnt IH]; intros u edges head Hu Hinv; simpl.
  { by replace (length adj) with u by lia. }
  apply IH; [lia|]. destruct Hinv as (-> & Hlen & Hhead).
  assert (Hadj : adj !! u = Some (adj !!! u)).
  { apply list_lookup_lookup_total_lt. lia. }
  assert (Hnext : concat (take (S u) adj) = concat (take u adj) ++ adj !!! u).
  { rewrite (take_S_r _ _ _ Hadj), concat_app. simpl. by rewrite app_nil_r. }
  assert (Hle : length (concat (take (S u) adj)) ≤ length (concat adj)).
  { rewrite <- (take_drop (S u) adj) at 2. rewrite concat_app, length_app. lia. }
  split_and!.
  - done.
  - by rewrite length_insert.
  - intros j Hj. destruct (decide (j = S u)) as [->|Hne].
    + rewrite list_lookup_insert_eq by lia. rewrite <- Hnext.
      by rewrite wrap32_small by lia.
    + rewrite list_lookup_insert_ne by done. apply Hhead. lia.
Qed.

Lemma concat_block (adj : list (list Edge.t)) (u : nat) :
  u < length adj →
  take (length (concat (take (S u) adj)) - length (concat (take u adj)))
       (drop (length (concat (take u adj))) (concat adj)) = adj !!! u.
Proof.
  intros Hu.
  assert (Hadj : adj !! u = Some (adj !!! u)).
  { by apply list_lookup_lookup_total_lt. }
  assert (Hall : concat adj =
                 concat (take u adj) ++ adj !!! u ++ concat (drop (S u) adj)).
  { rewrite <- (take_drop_middle adj u _ Hadj) at 1.
    by rewrite concat_app. }
  assert (Hnext : concat (take (S u) adj) = concat (take u adj) ++ adj !!! u).
  { rewrite (take_S_r _ _ _ Hadj), concat_app. simpl. by rewrite app_nil_r. }
  rewrite Hnext, Hall, drop_app_length, length_app.
  replace (length (concat (take u adj)) + length (adj !!! u)
           - length (concat (take u adj))) with (length (adj !!! u)) by lia.
  by rewrite take_app_length.
Qed.

Lemma concat_insert_length (adj : list (list Edge.t)) (u : nat) (l : list Edge.t) :
  u < length adj →
  length (concat (<[u := l]> adj)) + length (adj !!! u) =
  length (concat adj) + length l.
Proof.
  intros Hu.
  assert (Hadj : adj !! u = Some (adj !!! u)).
  { by apply list_lookup_lookup_total_lt. }
  rewrite <- (take_drop_middle adj u _ Hadj) at 3.
  rewrite (insert_take_drop adj u l Hu), !concat_app, !length_app. simpl.
  rewrite !length_app. lia.
Qed.

Lemma group_count n elist :
  ∀ adj, length adj = n →
    length (concat (foldl (group_step n) adj elist)) ≤
    length (concat adj) + length elist.
Proof.
  induction elist as [|[[u v] w] elist IH]; intros adj Hlen; [simpl; lia|].
  cbn [foldl]. etransitivity; [apply IH; by rewrite group_step_length|].
  cbn [length]. unfold group_step. case_decide as Hd; [|lia].
  pose proof (concat_insert_length adj u (adj !!! u ++ [Edge.mk v w]) ltac:(lia)) as H.
  rewrite length_app in H. simpl in H. lia.
Qed.

Lemma take_concat_mono (adj : list (list Edge.t)) (i : nat) :
  length (concat (take i adj)) ≤ length (concat (take (S i) adj)).
Proof.
  destruct (adj !! i) as [l|] eqn:Hi.
  - rewrite (take_S_r _ _ _ Hi), concat_app, length_app. lia.
  - apply lookup_ge_None in Hi. by rewrite !take_ge by lia.
Qed.

(** The graph [from_edge_list] builds has well-formed offsets, and the
    block of every node holds exactly its out-edges. *)
Lemma from_edge_list_csr (n : nat) (elist : list (nat * nat * Z)) :
  (Z.of_nat n + 1 < 2 ^ 32)%Z → (Z.of_nat (length elist) < 2 ^ 32)%Z →
  let g := from_edge_list n elist in
  Graph.n g = n ∧ csr_offsets g ∧
  (∀ u, u < n → csr_block g u = out_edges n elist u) ∧
  (∀ e, e ∈ Graph.edges g → ∃ t, t ∈ elist ∧ Edge.w e = t.2 ∧ Edge.to e < n).
Proof.
  intros Hn Hm. unfold from_edge_list.
  set (adj := foldl (group_step n) (replicate n []) elist).
  destruct (group_all n elist (replicate n [])) as [Hlen Hadj];
    [by rewrite length_replicate|]. fold adj in Hlen, Hadj.
  pose proof (group_count n elist (replicate n []) ltac:(by rewrite length_replicate))
    as Hcount. fold adj in Hcount.
  assert (Hzero : concat (replicate n ([] : list Edge.t)) = []).
  { clear. induction n as [|n IH]; [done|]. simpl. by rewrite IH. }
  rewrite Hzero in Hcount. simpl in Hcount.
  rewrite (wrap32_small (n + 1)) by lia.
  pose proof (csr_loop_upto adj ltac:(lia) n 0 [] (replicate (n + 1) 0)
                ltac:(lia)) as Hup.
  destruct (csr_loop n 0 adj [] (replicate (n + 1) 0)) as [edges head] eqn:Hloop.
  rewrite Hlen in Hup. simpl in Hup.
  destruct Hup as (Hedges & Hhl & Hhead).
  { split_and!; [done|rewrite length_replicate; lia|].
    intros j Hj. replace j with 0 by lia. by apply lookup_replicate_2; lia. }
  rewrite firstn_all2 in Hedges by lia.
  simpl. split_and!.
  - done.
  - split_and!; simpl.
    + lia.
    + by rewrite (Hhead 0) by lia.
    + intros i a b Ha Hb.
      assert (S i ≤ n) by (apply lookup_lt_Some in Hb; lia).
      rewrite Hhead in Ha by lia. rewrite Hhead in Hb by lia.
      injection Ha as <-. injection Hb as <-. apply take_concat_mono.
    + rewrite Hhead by lia. by rewrite firstn_all2, Hedges by lia.
    + done.
  - intros u Hu. unfold csr_block. simpl.
    rewrite (list_lookup_total_correct head u _ (Hhead u ltac:(lia))).
    replace (u + 1) with (S u) by lia.
    rewrite (list_lookup_total_correct head (S u) _ (Hhead (S u) ltac:(lia))).
    rewrite Hedges, concat_block by lia. rewrite Hadj by done.
    rewrite lookup_total_replicate_2 by done. done.
  - intros e He. rewrite Hedges in He.
    apply list_elem_of_In, in_concat in He as (l & Hl & He).
    apply list_elem_of_In in Hl, He.
    apply list_elem_of_lookup in Hl as [u Hul].
    assert (Hu : u < n) by (rewrite <- Hlen; by eapply lookup_lt_Some).
    specialize (Hadj u Hu). rewrite (list_lookup_total_correct adj u _ Hul) in Hadj.
    rewrite lookup_total_replicate_2 in Hadj by done.
    simpl in Hadj. subst l.
    apply list_elem_of_omap in He as (t & Ht & Hsome).
    case_decide as Hd; [|done]. injection Hsome as <-.
    exists t. simpl. tauto.
Qed.

Lemma from_adj_csr (adj : list (list Edge.t)) :
  (Z.of_nat (length adj) + 1 < 2 ^ 32)%Z →
  (Z.of_nat (length (concat adj)) < 2 ^ 32)%Z →
  let g := from_adj adj in
  Graph.n g = length adj ∧ csr_offsets g ∧
  (∀ u, u < length adj → csr_block g u = adj !!! u).
Proof.
  intros Hn Hm. unfold from_adj.
  rewrite (wrap32_small (length adj)) by lia.
  rewrite (wrap32_small (length adj + 1)) by lia.
  pose proof (csr_loop_upto adj Hm (length adj) 0 [] (replicate (length adj + 1) 0)
                ltac:(lia)) as Hup.
  destruct (csr_loop (length adj) 0 adj [] (replicate (length adj + 1) 0))
    as [edges head] eqn:Hloop.
  simpl in Hup. destruct Hup as (Hedges & Hhl & Hhead).
  { split_and!; [done|rewrite length_replicate; lia|].
    intros j Hj. replace j with 0 by lia. by apply lookup_replicate_2; lia. }
  rewrite firstn_all in Hedges.
  simpl. split_and!.
  - done.
  - split_and!; simpl.
    + lia.
    + by rewrite (Hhead 0) by lia.
    + intros i a b Ha Hb.
      assert (S i ≤ length adj) by (apply lookup_lt_Some in Hb; lia).
      rewrite Hhead in Ha by lia. rewrite Hhead in Hb by lia.
      injection Ha as <-. injection Hb as <-. apply take_concat_mono.
    + rewrite Hhead by lia. by rewrite firstn_all, Hedges.
    + done.
  - intros u Hu. unfold csr_block. simpl.
    rewrite (list_lookup_total_correct head u _ (Hhead u ltac:(lia))).
    replace (u + 1) with (S u) by lia.
    rewrite (list_lookup_total_correct head (S u) _ (Hhead (S u) ltac:(lia))).
    by rewrite Hedges, concat_block by lia.
Qed.

Lemma rnd_w_positive (draw : Z) (maxw : nat) (w : Z) :
  (0 ≤ draw)%Z → (Z.of_nat maxw < 2 ^ 32)%Z → rnd_w draw maxw = Done w →
  (1 ≤ w ≤ Z.of_nat maxw)%Z.
Proof.
  intros Hd Hm. unfold rnd_w. case_decide; [done|]. intros [= <-].
  pose proof (Z.mod_pos_bound draw (Z.of_nat maxw) ltac:(lia)).
  rewrite wrap64_small; lia.
Qed.

(** * The example inputs *)

Lemma g_small_in_bounds : graph_in_bounds g_small.
Proof. unfold graph_in_bounds. simpl. split_and!; [done|..]; repeat constructor. Qed.

Lemma g_small_positive : positive_weights g_small.
Proof. unfold positive_weights. simpl. repeat constructor. Qed.

Lemma g_small_fits : no_overflow g_small 4.
Proof. unfold no_overflow. simpl. repeat constructor; done. Qed.

Ltac some_inj :=
  repeat match goal with
         | H : Some _ = Some _ |- _ => injection H as ?; subst
         | H : None = Some _ |- _ => discriminate H
         end.

Lemma g_wrap_edges u to w :
  has_edge g_wrap u to w →
  (u = 0 ∧ to = 1 ∧ w = (2 ^ 63)%Z) ∨ (u = 1 ∧ to = 2 ∧ w = (2 ^ 63)%Z).
Proof.
  intros (ei & beg & en & Hb & He & Hr & Hedge).
  pose proof (lookup_lt_Some _ _ _ He) as Hlt. simpl in Hlt.
  destruct u as [|[|[|u]]]; [| | |lia]; cbn in Hb, He; some_inj.
  - left. replace ei with 0 in Hedge by lia. cbn in Hedge. by some_inj.
  - right. replace ei with 1 in Hedge by lia. cbn in Hedge. by some_inj.
  - lia.
Qed.

Lemma g_wrap_reach v d :
  reach g_wrap [(0, 0%Z)] v d →
  (v = 0 ∧ d = 0%Z) ∨ (v = 1 ∧ d = (2 ^ 63)%Z) ∨ (v = 2 ∧ d = (2 ^ 64)%Z).
Proof.
  induction 1 as [s d0 Hin|u d to w _ IH He].
  - apply list_elem_of_singleton in Hin as [= -> ->]. by left.
  - apply g_wrap_edges in He as [(-> & -> & ->)|(-> & -> & ->)]; lia.
Qed.

(** * The claims *)

(** ** C1: distances below the bound are shortest distances *)




(** ** C2: the boundary value *)

Lemma least_observed (bp : Z) (obs : list Z) :
  bp = foldr Z.min U64_MAX obs → Forall (λ x, x ≤ U64_MAX)%Z obs →
  (obs ≠ [] → bp ∈ obs ∧ Forall (λ x, bp ≤ x)%Z obs) ∧
  (bp = U64_MAX ↔ Forall (λ x, x = U64_MAX) obs).
Proof.
  intros -> Hmax.
  destruct (foldr_min_le U64_MAX obs) as [Hle Hall].
  destruct (foldr_min_in U64_MAX obs) as [Heq|Hin].
  - rewrite Heq in *. split.
    + intros Hne. split; [|done]. destruct obs as [|x obs]; [done|].
      apply Forall_cons in Hmax as [Hx _]. apply Forall_cons in Hall as [Hx' _].
      replace x with U64_MAX by lia. by left.
    + split; [|done]. intros _. apply Forall_forall. intros x Hx.
      rewrite Forall_forall in Hmax, Hall. specialize (Hmax x Hx).
      specialize (Hall x Hx). simpl in *. lia.
  - split; [done|]. split.
    + intros Heq. rewrite Heq in *. apply Forall_forall. intros x Hx.
      rewrite Forall_forall in Hmax, Hall. specialize (Hmax x Hx).
      specialize (Hall x Hx). simpl in *. lia.
    + intros Hsent. by apply (proj1 (Forall_forall _ _) Hsent).
Qed.

(** C2, as stated, fails in its second half.  On [g_sentinel] with source
    node 0 at distance 0 and [B = 1] the one relaxation candidate is
    [0 + (2^64-1)], which reaches the bound; it is not below [b_prime], so
    [b_prime] stays at the sentinel although a candidate reached [B]. *)
Lemma C2_sentinel_counterexample :
  ∃ r, cpp_trial 10 g_sentinel [(0, 0%Z)] 1 = Done r ∧
       b_prime r = U64_MAX ∧
       trace r = [EvPop 0 0 true; EvCand U64_MAX] ∧
       observed 1 (trace r) = [U64_MAX] ∧ observed 1 (trace r) ≠ [].
Proof. eexists. split; [by vm_compute|]. by split_and!. Qed.

(** C2 (amended): for every graph in CSR form, sources below [n] and
    bound [B], the run terminates and [bprime] is the least of the
    sentinel and the values observed at or above [B] (popped distances and
    relaxation candidates): when there are any it is the least of them,
    and it is the sentinel exactly when every one of them, if any, is the
    sentinel value [2^64-1] itself. *)
Theorem C2_boundary_value (g : Graph.t) (B : Z) :
  graph_in_bounds g → (0 ≤ B ≤ U64_MAX)%Z →
  (∀ src, sources_in_range g src →
     ∃ fuel r, cpp_trial fuel g src B = Done r ∧ boundary B r) ∧
  (∀ sources, Forall (λ s, s < Graph.n g) sources →
     ∃ fuel r, c_trial fuel g sources B = Done r ∧ boundary B r).
Proof.
  intros Hg HB. split.
  - intros src Hsrc.
    destruct (run_terminates (PQ := cpp_priority_queue) (2 ^ 64) g B Hg HB src Hsrc)
      as (fuel & st & r & _ & _ & _ & Hrun & _ & (_ & _ & Hbp & Hobs)).
    exists fuel, r. split; [done|]. by apply least_observed.
  - intros sources Hsrc. destruct (decide (B = 0%Z)) as [->|HB0].
    + destruct (c_trial_B0 g sources 0 Hsrc) as (r & Hr & _ & _ & Hnil & Hcons).
      exists 1, r. split; [done|]. apply least_observed.
      * destruct sources as [|s0 sources].
        -- by destruct Hnil as [-> ->].
        -- by destruct Hcons as (-> & s & _ & ->).
      * destruct sources as [|s0 sources].
        -- destruct Hnil as [-> _]; [done|]. constructor.
        -- destruct Hcons as (_ & s & _ & ->); [done|]. by repeat constructor.
    + destruct (run_terminates (PQ := c_heap) (2 ^ 32) g B Hg HB (at_zero sources))
        as (fuel & st & r & _ & _ & _ & Hrun & _ & (_ & _ & Hbp & Hobs)).
      { by apply at_zero_in_range. }
      exists fuel, r. rewrite c_trial_run by lia. split; [done|].
      by apply least_observed.
Qed.

Lemma C2_boundary_value_witness :
  (graph_in_bounds g_small ∧ (0 ≤ 4 ≤ U64_MAX)%Z) ∧
  ((∀ src, sources_in_range g_small src →
      ∃ fuel r, cpp_trial fuel g_small src 4 = Done r ∧ boundary 4 r) ∧
   (∀ sources, Forall (λ s, s < Graph.n g_small) sources →
      ∃ fuel r, c_trial fuel g_small sources 4 = Done r ∧ boundary 4 r)).
Proof.
  assert (H : graph_in_bounds g_small ∧ (0 ≤ 4 ≤ U64_MAX)%Z).
  { split; [apply g_small_in_bounds|done]. }
  split; [exact H|]. destruct H as [H1 H2].
  exact (C2_boundary_value g_small 4 H1 H2).
Defined.

(** ** C3: entering the sources *)

(** In the C++ program a source is entered exactly when [d0 < B]. *)
Lemma cpp_enter_spec B (st : State (list Entry.t)) (s : nat) (d0 : Z) :
  s < length (dist st) →
  ∃ st', cpp_enter (PQ := cpp_priority_queue) B st (s, d0) = Done st' ∧
    ((d0 < B)%Z → dist st' = <[s := d0]> (dist st) ∧ pq st' = Entry.mk d0 s :: pq st) ∧
    ((B ≤ d0)%Z → st' = st).
Proof.
  intros Hs. destruct (Z.lt_ge_cases d0 B) as [Hlt|Hge].
  - rewrite cpp_enter_lt by done. eexists. split; [done|]. split; [done|lia].
  - rewrite cpp_enter_ge by done. eexists. split; [done|]. split; [lia|done].
Qed.

(** After all sources with distinct ids have been entered, each holds its
    [d0] and is queued when [d0 < B], and holds the sentinel when not; the
    queue holds nothing else. *)
Lemma cpp_enter_all_spec (g : Graph.t) (B : Z) (src : list (nat * Z)) :
  (B ≤ U64_MAX)%Z → NoDup src.*1 → sources_in_range g src →
  ∃ st, enter_all (cpp_enter (PQ := cpp_priority_queue) B) src
          (start (PQ := cpp_priority_queue) g) = Done st ∧
    pq st ≡ₚ entry_of <$> active B src ∧
    ∀ s d0, (s, d0) ∈ src →
      dist st !! s = Some (if decide (d0 < B)%Z then d0 else U64_MAX).
Proof.
  intros HB Hnd Hsrc.
  destruct (cpp_enter_all_entered (PQ := cpp_priority_queue) g B src HB
              (NoDup_functional src Hnd) Hsrc src []
              (start (PQ := cpp_priority_queue) g))
    as (st & Hst & Hent); [done|by apply start_entered|].
  exists st. split; [done|]. destruct Hent as (_ & Hel & _ & Hin & Hout & _).
  split; [done|]. intros s d0 Hsd. case_decide as Hlt; [by apply Hin|].
  apply Hout.
  - by apply (proj1 (Forall_forall _ _) Hsrc _ Hsd).
  - intros ([s' d0'] & -> & [Hlt' Hin']%list_elem_of_filter)%list_elem_of_fmap.
    simpl in *. by rewrite (NoDup_functional src Hnd _ _ _ Hsd Hin') in Hlt.
Qed.

(** C3 fails in the C program: [read_sources_file] scans the initial
    distance and drops it, and the trial enters every source at distance
    0 without comparing with [B].  For the sources file [1 / 0 5] and
    [B = 3] the claim leaves node 0 at the sentinel with an empty queue
    (as the C++ program does); the C program sets [dist[0] = 0] and
    queues [(0, 0)]. *)
Theorem C3_c_drops_initial_distance :
  read_sources_file (Some [Num 1; Num 0; Num 5]) = inr [0] ∧
  (∃ st, enter_all (c_enter (PQ := c_heap)) [0] (start (PQ := c_heap) g_one) = Done st ∧
         dist st = [0%Z] ∧ pq st = [Entry.mk 0 0]) ∧
  cpp_read_sources [Num 1; Num 0; Num 5] = Done [(0, 5%Z)] ∧
  (∃ st, enter_all (cpp_enter (PQ := cpp_priority_queue) 3) [(0, 5%Z)]
           (start (PQ := cpp_priority_queue) g_one) = Done st ∧
         dist st = [U64_MAX] ∧ pq st = []).
Proof.
  split_and!; [done| |done|]; (eexists; split; [by vm_compute|done]).
Qed.

(** ** C4: no distance at or above the bound *)

(** In the C++ program every entry of the final distance array is the
    sentinel or below the bound. *)
Lemma cpp_trial_dist_bounded (g : Graph.t) (src : list (nat * Z)) (B : Z) :
  graph_in_bounds g → (0 ≤ B ≤ U64_MAX)%Z → sources_in_range g src →
  ∃ fuel r, cpp_trial fuel g src B = Done r ∧
    Forall (λ x, x = U64_MAX ∨ x < B)%Z (dist r).
Proof.
  intros Hg HB Hsrc.
  destruct (run_terminates (PQ := cpp_priority_queue) (2 ^ 64) g B Hg HB src Hsrc)
    as (fuel & st & r & _ & _ & _ & Hrun & _ & (_ & Hd & _)).
  by exists fuel, r.
Qed.

(** So it is in the C program when the bound is positive. *)
Lemma c_trial_dist_bounded (g : Graph.t) (sources : list nat) (B : Z) :
  graph_in_bounds g → (0 < B ≤ U64_MAX)%Z →
  Forall (λ s, s < Graph.n g) sources →
  ∃ fuel r, c_trial fuel g sources B = Done r ∧
    Forall (λ x, x = U64_MAX ∨ x < B)%Z (dist r).
Proof.
  intros Hg HB Hsrc.
  destruct (run_terminates (PQ := c_heap) (2 ^ 32) g B Hg ltac:(lia) (at_zero sources))
    as (fuel & st & r & _ & _ & _ & Hrun & _ & (_ & Hd & _)).
  { by apply at_zero_in_range. }
  exists fuel, r. rewrite c_trial_run by lia. by split.
Qed.


(** ** C5: what source selection reports *)




(** ** C6: the CSR invariants *)

(** Neither loader looks at the weights: an edge of weight 0 in the file
    is stored as it is. *)
Lemma loaders_keep_zero_weight :
  (∃ g, read_graph_file (Some [Num 2; Num 1; Num 0; Num 1; Num 0]) = inr g ∧
        Graph.edges g = [Edge.mk 1 0]) ∧
  (∃ g, cpp_read_graph [Num 2; Num 1; Num 0; Num 1; Num 0] = Done g ∧
        Graph.edges g = [Edge.mk 1 0]).
Proof. split; (eexists; split; [by vm_compute|done]). Qed.

(** C6 fails for the C loader.  [read_graph_file] keeps the edges in file
    order and only raises [head[u+1]]; on a file that lists an edge of
    node 1 before an edge of node 0 the block of node 0 takes in both
    edges and the block of node 1 is empty.  [from_edge_list] of the C++
    program groups the same file by source. *)
Theorem C6_c_loader_keeps_file_order :
  (∃ g, read_graph_file (Some toks_unsorted) = inr g ∧
        Graph.head g = [0; 2; 2] ∧
        Graph.edges g = [Edge.mk 0 1; Edge.mk 1 1] ∧
        csr_block g 0 = [Edge.mk 0 1; Edge.mk 1 1] ∧ csr_block g 1 = []) ∧
  (out_edges 2 [(1, 0, 1%Z); (0, 1, 1%Z)] 0 = [Edge.mk 1 1] ∧
   out_edges 2 [(1, 0, 1%Z); (0, 1, 1%Z)] 1 = [Edge.mk 0 1]) ∧
  (∃ g, cpp_read_graph toks_unsorted = Done g ∧
        Graph.head g = [0; 1; 2] ∧
        csr_block g 0 = [Edge.mk 1 1] ∧ csr_block g 1 = [Edge.mk 0 1]).
Proof.
  split_and!; [|done|done|]; (eexists; split; [by vm_compute|by split_and!]).
Qed.

(** ** C7: the order of the pops *)

(** C7, as stated, fails for the C heap, which compares distances only:
    after pushing [(0, 5)] and then [(0, 3)] the first pop yields node 5
    although node 3 is queued at the same distance. *)
Lemma C7_c_heap_counterexample :
  let h := heap_push (heap_push heap_init (Entry.mk 0 5)) (Entry.mk 0 3) in
  heap_pop h = Some (Entry.mk 0 5, [Entry.mk 0 3]) ∧
  Entry.mk 0 3 ∈ h ∧ ¬ lex_le (Entry.mk 0 5) (Entry.mk 0 3).
Proof.
  split_and!.
  - by vm_compute.
  - vm_compute. right. by left.
  - unfold lex_le. simpl. lia.
Qed.

(** C7 (amended): the C++ queue pops in lexicographic (distance, node id)
    order: the entry popped is least in that order among the entries
    queued, so among equal distances the smaller node id comes first.  The
    C heap pops an entry of least distance; which of several entries of
    that distance comes first is decided by the positions the heap
    operations left them in, not by node id.  Both pops are functions of
    the queue, and both remove exactly the entry they return. *)
Theorem C7_pop_order :
  (∀ q x q', priority_queue_pop q = Some (x, q') →
     Forall (lex_le x) q ∧ q ≡ₚ x :: q') ∧
  (∀ h x h', heap_ordered h → heap_pop h = Some (x, h') →
     Forall (λ y, Entry.d x ≤ Entry.d y)%Z h ∧ h ≡ₚ x :: h').
Proof.
  split.
  - intros q x q' Hp. split;
      [by eapply priority_queue_pop_lex_min|by apply priority_queue_pop_perm].
  - intros h x h' Hh Hp. split; [by eapply heap_pop_min|by apply heap_pop_perm].
Qed.

Lemma C7_pop_order_witness :
  let q := [Entry.mk 0 5; Entry.mk 0 3] in
  let h := heap_push (heap_push heap_init (Entry.mk 0 5)) (Entry.mk 0 3) in
  (priority_queue_pop q = Some (Entry.mk 0 3, [Entry.mk 0 5]) ∧
   Forall (lex_le (Entry.mk 0 3)) q ∧ q ≡ₚ Entry.mk 0 3 :: [Entry.mk 0 5]) ∧
  (heap_ordered h ∧ heap_pop h = Some (Entry.mk 0 5, [Entry.mk 0 3]) ∧
   Forall (λ y, 0 ≤ Entry.d y)%Z h ∧ h ≡ₚ Entry.mk 0 5 :: [Entry.mk 0 3]).
Proof.
  cbv zeta.
  assert (Hq : priority_queue_pop [Entry.mk 0 5; Entry.mk 0 3] =
               Some (Entry.mk 0 3, [Entry.mk 0 5])) by (by vm_compute).
  assert (Hh : heap_ordered
                 (heap_push (heap_push heap_init (Entry.mk 0 5)) (Entry.mk 0 3))).
  { apply heap_push_ordered, heap_push_ordered, heap_ordered_nil. }
  assert (Hp : heap_pop (heap_push (heap_push heap_init (Entry.mk 0 5)) (Entry.mk 0 3)) =
               Some (Entry.mk 0 5, [Entry.mk 0 3])) by (by vm_compute).
  split.
  - split; [exact Hq|]. exact (proj1 C7_pop_order _ _ _ Hq).
  - split; [exact Hh|]. split; [exact Hp|].
    exact (proj2 C7_pop_order _ _ _ Hh Hp).
Defined.

(** ** C8: the scenario [B = 0] *)

(** C8, as stated, fails in the C++ program: a source with [d0 = 0] does
    not pass [d0 < B] for [B = 0], so nothing is entered, nothing is popped
    and [b_prime] keeps the sentinel instead of becoming 0. *)
Lemma C8_cpp_counterexample :
  ∃ r, cpp_trial 10 g_one [(0, 0%Z)] 0 = Done r ∧
       trace r = [] ∧ b_prime r = U64_MAX ∧ b_prime r ≠ 0%Z.
Proof. eexists. split; [by vm_compute|]. by split_and!. Qed.

Lemma cpp_enter_all_none B (src : list (nat * Z)) (st : State (list Entry.t)) :
  Forall (λ sd, B ≤ sd.2)%Z src →
  enter_all (cpp_enter (PQ := cpp_priority_queue) B) src st = Done st.
Proof.
  induction 1 as [|[s d0] src Hge _ IH]; [done|].
  cbn [enter_all]. by rewrite cpp_enter_ge.
Qed.

(** C8 (amended): for every graph and every source set whose initial
    distances are all 0, a run with [B = 0] finishes with settled count 0.
    The C program, given at least one source (all below [n]), pops one
    source entry with [d = 0], finds [d >= B], sets [bprime = 0] and
    leaves the loop.  The C++ program, which enters a source only when
    [d0 < B], enters none: its queue stays empty, no entry is popped, and
    [bprime] and every distance keep the sentinel. *)
Theorem C8_bound_zero (g : Graph.t) (fuel : nat) :
  (∀ src, Forall (λ sd, sd.2 = 0%Z) src →
     cpp_trial (S fuel) g src 0 = Done (start (PQ := cpp_priority_queue) g)) ∧
  (∀ sources, Forall (λ s, s < Graph.n g) sources → sources ≠ [] →
     ∃ r s, c_trial (S fuel) g sources 0 = Done r ∧ s ∈ sources ∧
       trace r = [EvPop 0 s true] ∧ b_prime r = 0%Z ∧ popped r = 0%Z).
Proof.
  split.
  - intros src Hsrc. unfold cpp_trial. rewrite cpp_enter_all_none; [done|].
    eapply Forall_impl; [done|]. simpl. lia.
  - intros sources Hsrc Hne.
    destruct (c_trial_B0 g sources fuel Hsrc) as (r & Hr & Hp & _ & _ & Hcons).
    destruct (Hcons Hne) as (Hbp & s & Hs & Htr). by exists r, s.
Qed.

Lemma C8_bound_zero_witness :
  Forall (λ sd : nat * Z, sd.2 = 0%Z) [(0, 0%Z); (2, 0%Z)] ∧
  (Forall (λ s, s < Graph.n g_small) [0; 2] ∧ [0; 2] ≠ []) ∧
  cpp_trial 1 g_small [(0, 0%Z); (2, 0%Z)] 0 =
    Done (start (PQ := cpp_priority_queue) g_small) ∧
  ∃ r s, c_trial 1 g_small [0; 2] 0 = Done r ∧ s ∈ [0; 2] ∧
    trace r = [EvPop 0 s true] ∧ b_prime r = 0%Z ∧ popped r = 0%Z.
Proof.
  assert (H1 : Forall (λ sd : nat * Z, sd.2 = 0%Z) [(0, 0%Z); (2, 0%Z)])
    by (by repeat constructor).
  assert (H2 : Forall (λ s, s < Graph.n g_small) [0; 2])
    by (repeat constructor; simpl; lia).
  assert (H3 : [0; 2] ≠ @nil nat) by done.
  split_and!; [exact H1|exact H2|exact H3|..].
  - exact (proj1 (C8_bound_zero g_small 0) _ H1).
  - exact (proj2 (C8_bound_zero g_small 0) _ H2 H3).
Defined.

(** ** C9: fresh pops come in non-decreasing order *)

(** C9, as stated, fails with wrap-around: on [g_wrap] both programs pop
    node 0 at distance 0, node 1 at [2^63] and then node 2 at the wrapped
    distance 0. *)
Lemma C9_wraparound_counterexample :
  (∃ r, cpp_trial 10 g_wrap [(0, 0%Z)] U64_MAX = Done r ∧
        fresh_pops (trace r) = [0; 2 ^ 63; 0]%Z ∧
        ¬ nondecreasing (fresh_pops (trace r))) ∧
  (∃ r, c_trial 10 g_wrap [0] U64_MAX = Done r ∧
        fresh_pops (trace r) = [0; 2 ^ 63; 0]%Z ∧
        ¬ nondecreasing (fresh_pops (trace r))).
Proof.
  assert (Hno : ¬ nondecreasing [0; 2 ^ 63; 0]%Z).
  { intros H. specialize (H 1 2 (2 ^ 63)%Z 0%Z ltac:(lia) eq_refl eq_refl). lia. }
  split; (eexists; split; [by vm_compute|]); by split.
Qed.

(** C9 (amended): for a positive-weight graph in CSR form whose
    candidates cannot wrap ([B + w <= 2^64] for every edge weight [w]) and
    sources below [n], the run terminates and the distances of the popped
    entries that pass the staleness check form a non-decreasing
    sequence. *)
Theorem C9_fresh_pops_nondecreasing (g : Graph.t) (B : Z) :
  graph_in_bounds g → positive_weights g → no_overflow g B →
  (0 ≤ B ≤ U64_MAX)%Z →
  (∀ src, sources_in_range g src →
     ∃ fuel r, cpp_trial fuel g src B = Done r ∧
       nondecreasing (fresh_pops (trace r))) ∧
  (∀ sources, Forall (λ s, s < Graph.n g) sources →
     ∃ fuel r, c_trial fuel g sources B = Done r ∧
       nondecreasing (fresh_pops (trace r))).
Proof.
  intros Hg Hpos Hfit HB. split.
  - intros src Hsrc.
    by apply (run_nondecreasing (PQ := cpp_priority_queue) _ g B Hg HB src).
  - intros sources Hsrc. destruct (decide (B = 0%Z)) as [->|HB0].
    + destruct (c_trial_B0 g sources 0 Hsrc) as (r & Hr & _ & _ & Hnil & Hcons).
      exists 1, r. split; [done|].
      assert (Hfp : fresh_pops (trace r) = [] ∨ fresh_pops (trace r) = [0%Z]).
      { destruct sources as [|s0 sources].
        - destruct Hnil as [-> _]; [done|]. by left.
        - destruct Hcons as (_ & s & _ & ->); [done|]. by right. }
      intros i j a b Hij Hi Hj. destruct Hfp as [Hfp|Hfp]; rewrite Hfp in Hi, Hj.
      * by rewrite lookup_nil in Hi.
      * apply list_lookup_singleton_Some in Hi as [_ <-].
        apply list_lookup_singleton_Some in Hj as [_ <-]. lia.
    + destruct (run_nondecreasing (PQ := c_heap) (2 ^ 32) g B Hg HB (at_zero sources)
                  Hpos Hfit) as (fuel & r & Hr & Hnd).
      { by apply at_zero_in_range. }
      exists fuel, r. rewrite c_trial_run by lia. by split.
Qed.

Lemma C9_fresh_pops_nondecreasing_witness :
  (graph_in_bounds g_small ∧ positive_weights g_small ∧ no_overflow g_small 4 ∧
   (0 ≤ 4 ≤ U64_MAX)%Z) ∧
  ((∀ src, sources_in_range g_small src →
      ∃ fuel r, cpp_trial fuel g_small src 4 = Done r ∧
        nondecreasing (fresh_pops (trace r))) ∧
   (∀ sources, Forall (λ s, s < Graph.n g_small) sources →
      ∃ fuel r, c_trial fuel g_small sources 4 = Done r ∧
        nondecreasing (fresh_pops (trace r)))).
Proof.
  assert (H : graph_in_bounds g_small ∧ positive_weights g_small ∧
              no_overflow g_small 4 ∧ (0 ≤ 4 ≤ U64_MAX)%Z).
  { split_and!; [apply g_small_in_bounds|apply g_small_positive|
                 apply g_small_fits|done|done]. }
  split; [exact H|].
  destruct H as (H1 & H2 & H3 & H4).
  exact (C9_fresh_pops_nondecreasing g_small 4 H1 H2 H3 H4).
Defined.

(** ** C10: the C heap *)

Lemma heap_run_ordered ops : heap_ordered (heap_run ops).
Proof.
  unfold heap_run. induction ops as [|op ops IH] using rev_ind.
  - apply heap_ordered_nil.
  - rewrite foldl_app. simpl. destruct op as [e|]; simpl.
    + by apply heap_push_ordered.
    + destruct (heap_pop _) as [[x h']|] eqn:Hp; [|done].
      by eapply heap_pop_ordered.
Qed.

(** C10: after any sequence of [heap_push] and [heap_pop] from
    [heap_init], the heap is in heap order (every parent's [d] is at most
    its children's); [heap_pop] on the empty heap returns 0 and no entry;
    on a non-empty heap it returns an entry of the heap whose [d] is least
    among the entries in it, and leaves the other entries, in heap order;
    [heap_push] adds its entry and keeps the heap order. *)
Theorem C10_c_heap_correct (ops : list heap_op) :
  let h := heap_run ops in
  heap_ordered h ∧
  (h = [] → heap_pop h = None) ∧
  (h ≠ [] → ∃ x h', heap_pop h = Some (x, h') ∧ h ≡ₚ x :: h' ∧
              Forall (λ y, Entry.d x ≤ Entry.d y)%Z h ∧ heap_ordered h') ∧
  (∀ e, heap_push h e ≡ₚ e :: h ∧ heap_ordered (heap_push h e)).
Proof.
  cbv zeta. pose proof (heap_run_ordered ops) as Hh. split_and!.
  - done.
  - by intros ->.
  - intros Hne. destruct (heap_pop (heap_run ops)) as [[x h']|] eqn:Hp.
    + exists x, h'. split_and!; [done|by apply heap_pop_perm|
                                 by eapply heap_pop_min|by eapply heap_pop_ordered].
    + by apply heap_pop_None in Hp.
  - intros e. split; [apply heap_push_perm|by apply heap_push_ordered].
Qed.

Lemma C10_c_heap_correct_witness :
  let h := heap_run [Push (Entry.mk 5 1); Push (Entry.mk 3 2); Push (Entry.mk 1 7); Pop] in
  h ≠ [] ∧ heap_ordered h ∧
  ∃ x h', heap_pop h = Some (x, h') ∧ h ≡ₚ x :: h' ∧
          Forall (λ y, Entry.d x ≤ Entry.d y)%Z h ∧ heap_ordered h'.
Proof.
  cbv zeta.
  assert (Hne : heap_run [Push (Entry.mk 5 1); Push (Entry.mk 3 2);
                          Push (Entry.mk 1 7); Pop] ≠ []) by (by vm_compute).
  split; [exact Hne|].
  pose proof (C10_c_heap_correct
                [Push (Entry.mk 5 1); Push (Entry.mk 3 2); Push (Entry.mk 1 7); Pop])
    as (Hord & _ & Hpop & _).
  split; [exact Hord|]. exact (Hpop Hne).
Defined.

(** * Further properties of the queues *)

(** X1 ([Entry::operator<], C++): the comparison handed to
    [std::priority_queue] is a strict total order on entries: no entry is
    below itself, the comparison is transitive, and two entries neither of
    which is below the other are the same entry. *)
Theorem entry_lt_strict_total_order :
  (∀ a, entry_lt a a = false) ∧
  (∀ a b c, entry_lt a b = true → entry_lt b c = true → entry_lt a c = true) ∧
  (∀ a b, entry_lt a b = false → entry_lt b a = false → a = b).
Proof.
  split_and!.
  - intros a. apply not_true_is_false. rewrite entry_lt_spec. unfold lex_le. lia.
  - intros a b c. rewrite !entry_lt_spec. unfold lex_le. lia.
  - intros [da va] [db vb] Hab Hba.
    apply not_true_iff_false in Hab, Hba. rewrite entry_lt_spec in Hab, Hba.
    unfold lex_le in *. simpl in *. f_equal; lia.
Qed.

Lemma push_all_snoc {Q} {PQ : PriorityQueue Q} es e :
  push_all (es ++ [e]) = pq_push (push_all es) e.
Proof. unfold push_all. by rewrite foldl_app. Qed.

Lemma push_all_laws {Q} {PQ : PriorityQueue Q} {L : PriorityQueueLaws PQ} es :
  pq_ok (push_all es) ∧ pq_elems (push_all es) ≡ₚ es.
Proof.
  induction es as [|e es [IH1 IH2]] using rev_ind.
  - unfold push_all. simpl. split; [apply pq_empty_ok|by rewrite pq_empty_elems].
  - rewrite push_all_snoc. split; [by apply pq_push_ok|].
    rewrite pq_push_elems, IH2. by rewrite Permutation_app_comm.
Qed.

(** Emptying a queue gives its entries, least distance first. *)
Lemma drain_sorted {Q} {PQ : PriorityQueue Q} {L : PriorityQueueLaws PQ} n (q : Q) :
  pq_ok q → length (pq_elems q) ≤ n →
  drain n q ≡ₚ pq_elems q ∧ nondecreasing (Entry.d <$> drain n q).
Proof.
  revert q. induction n as [|n IH]; intros q Hok Hlen.
  - destruct (pq_elems q); [|simpl in Hlen; lia]. split; [done|].
    intros i j a b _ Hi. simpl in Hi. by rewrite lookup_nil in Hi.
  - simpl. destruct (pq_pop q) as [[x q']|] eqn:Hp.
    + pose proof (pq_pop_elems _ _ _ Hp) as Hperm.
      pose proof (pq_pop_min _ _ _ Hok Hp) as Hmin.
      destruct (IH q') as [IH1 IH2].
      { by eapply pq_pop_ok. }
      { apply Permutation_length in Hperm. simpl in Hperm. lia. }
      split; [by rewrite Hperm, IH1|].
      assert (Hall : Forall (λ y, Entry.d x ≤ y)%Z (Entry.d <$> drain n q')).
      { apply Forall_fmap. rewrite IH1. rewrite Hperm in Hmin.
        by apply Forall_cons in Hmin as [_ Hmin]. }
      intros [|i] [|j] a b Hij Hi Hj; simpl in *.
      * injection Hi as <-. injection Hj as <-. lia.
      * injection Hi as <-. by apply (Forall_lookup_1 _ _ _ _ Hall Hj).
      * lia.
      * apply (IH2 i j); [lia|done..].
    + apply pq_pop_None in Hp. rewrite Hp. split; [done|].
      intros i j a b _ Hi. simpl in Hi. by rewrite lookup_nil in Hi.
Qed.

(** X2 ([heap_push], [heap_pop], C): heap sort.  Pushing any entries onto
    an empty heap and popping until [heap_pop] returns 0 yields exactly the
    entries pushed, in non-decreasing order of distance. *)
Theorem c_heap_sorts (es : list Entry.t) :
  pop_order (PQ := c_heap) es ≡ₚ es ∧
  nondecreasing (Entry.d <$> pop_order (PQ := c_heap) es).
Proof.
  unfold pop_order.
  destruct (push_all_laws (L := c_heap_laws) es) as [Hok Hel].
  destruct (drain_sorted (L := c_heap_laws) (length es) (push_all (PQ := c_heap) es))
    as [H1 H2]; [done| |].
  { apply Permutation_length in Hel. lia. }
  split; [|done]. by rewrite H1.
Qed.

Lemma lex_le_antisym a b : lex_le a b → lex_le b a → a = b.
Proof.
  destruct a as [da va], b as [db vb]. unfold lex_le. simpl. intros ? ?.
  f_equal; lia.
Qed.

Lemma priority_queue_pop_proper q1 q2 x1 q1' :
  q1 ≡ₚ q2 → priority_queue_pop q1 = Some (x1, q1') →
  ∃ q2', priority_queue_pop q2 = Some (x1, q2') ∧ q1' ≡ₚ q2'.
Proof.
  intros Hperm Hp1.
  destruct (priority_queue_pop q2) as [[x2 q2']|] eqn:Hp2.
  - pose proof (priority_queue_pop_perm _ _ _ Hp1) as He1.
    pose proof (priority_queue_pop_perm _ _ _ Hp2) as He2.
    pose proof (priority_queue_pop_lex_min _ _ _ Hp1) as Hm1.
    pose proof (priority_queue_pop_lex_min _ _ _ Hp2) as Hm2.
    assert (x1 = x2) as <-.
    { apply lex_le_antisym.
      - apply (proj1 (Forall_forall _ _) Hm1). rewrite Hperm, He2. by left.
      - apply (proj1 (Forall_forall _ _) Hm2). rewrite <- Hperm, He1. by left. }
    exists q2'. split; [done|]. apply (Permutation_cons_inv (a := x1)).
    by rewrite <- He1, <- He2.
  - apply priority_queue_pop_None in Hp2. subst q2.
    apply Permutation_nil_r in Hperm. by subst q1.
Qed.

Lemma cpp_drain_proper n q1 q2 :
  q1 ≡ₚ q2 → drain (PQ := cpp_priority_queue) n q1 = drain (PQ := cpp_priority_queue) n q2.
Proof.
  revert q1 q2. induction n as [|n IH]; intros q1 q2 Hperm; [done|].
  simpl. destruct (priority_queue_pop q1) as [[x1 q1']|] eqn:Hp1.
  - destruct (priority_queue_pop_proper _ _ _ _ Hperm Hp1) as (q2' & -> & Hperm').
    f_equal. by apply IH.
  - apply priority_queue_pop_None in Hp1. subst q1.
    apply Permutation_nil_l in Hperm. by subst q2.
Qed.

Lemma cpp_drain_lex_sorted n (q : list Entry.t) :
  length q ≤ n →
  drain (PQ := cpp_priority_queue) n q ≡ₚ q ∧
  lex_sorted (drain (PQ := cpp_priority_queue) n q).
Proof.
  revert q. induction n as [|n IH]; intros q Hlen.
  - destruct q; [|simpl in Hlen; lia]. split; [done|].
    intros i j a b _ Hi. simpl in Hi. by rewrite lookup_nil in Hi.
  - simpl. destruct (priority_queue_pop q) as [[x q']|] eqn:Hp.
    + pose proof (priority_queue_pop_perm _ _ _ Hp) as Hperm.
      pose proof (priority_queue_pop_lex_min _ _ _ Hp) as Hmin.
      destruct (IH q') as [IH1 IH2].
      { apply Permutation_length in Hperm. simpl in Hperm. lia. }
      split; [by rewrite Hperm, IH1|].
      assert (Hall : Forall (lex_le x) (x :: drain (PQ := cpp_priority_queue) n q')).
      { by rewrite IH1, <- Hperm. }
      intros [|i] [|j] a b Hij Hi Hj; simpl in *.
      * injection Hi as <-. injection Hj as <-. unfold lex_le. lia.
      * injection Hi as <-. apply Forall_cons in Hall as [_ Hall].
        by apply (Forall_lookup_1 _ _ _ _ Hall Hj).
      * lia.
      * apply (IH2 i j); [lia|done..].
    + apply priority_queue_pop_None in Hp. subst q. split; [done|].
      intros i j a b _ Hi. simpl in Hi. by rewrite lookup_nil in Hi.
Qed.

(** X3 ([Entry::operator<] under [std::priority_queue], C++): the sequence
    in which the C++ queue gives its entries back holds each entry pushed
    once, runs up in (distance, node id) order, and does not depend on the
    order in which the entries were pushed. *)
Theorem cpp_pop_order_independent (es : list Entry.t) :
  pop_order (PQ := cpp_priority_queue) es ≡ₚ es ∧
  lex_sorted (pop_order (PQ := cpp_priority_queue) es) ∧
  ∀ es', es ≡ₚ es' →
    pop_order (PQ := cpp_priority_queue) es = pop_order (PQ := cpp_priority_queue) es'.
Proof.
  unfold pop_order.
  destruct (push_all_laws (L := cpp_priority_queue_laws) es) as [_ Hel].
  simpl in Hel.
  destruct (cpp_drain_lex_sorted (length es) (push_all (PQ := cpp_priority_queue) es))
    as [H1 H2].
  { apply Permutation_length in Hel. lia. }
  split_and!; [by rewrite H1|done|].
  intros es' Hperm.
  destruct (push_all_laws (L := cpp_priority_queue_laws) es') as [_ Hel'].
  simpl in Hel'. rewrite (Permutation_length Hperm).
  apply cpp_drain_proper. by rewrite Hel, Hel'.
Qed.

Lemma cpp_pop_order_independent_witness :
  [Entry.mk 0 5; Entry.mk 0 3] ≡ₚ [Entry.mk 0 3; Entry.mk 0 5] ∧
  pop_order (PQ := cpp_priority_queue) [Entry.mk 0 5; Entry.mk 0 3] =
  pop_order (PQ := cpp_priority_queue) [Entry.mk 0 3; Entry.mk 0 5].
Proof.
  assert (H : [Entry.mk 0 5; Entry.mk 0 3] ≡ₚ [Entry.mk 0 3; Entry.mk 0 5])
    by apply Permutation_swap.
  split; [exact H|].
  exact (proj2 (proj2 (cpp_pop_order_independent [Entry.mk 0 5; Entry.mk 0 3])) _ H).
Defined.

(** * Further properties of the engine *)

Section Exact.
Context {Q : Type} {PQ : PriorityQueue Q} {L : PriorityQueueLaws PQ}.
Variable cmod : Z.
Variable g : Graph.t.
Variable B : Z.
Hypothesis g_ok : graph_in_bounds g.
Hypothesis B_range : (0 ≤ B ≤ U64_MAX)%Z.
Hypothesis weights_pos : positive_weights g.
Hypothesis weights_fit : no_overflow g B.

(** The loop ends with an empty queue, at a fixpoint of the relaxation. *)
Lemma main_loop_fixpoint src fuel (st r : State Q) :
  safe g st → inv_sp g B src st → main_loop cmod g B fuel st = Done r →
  inv_sp g B src r ∧ pq_elems (pq r) = [].
Proof.
  intros Hs Hinv Hrun.
  eapply (main_loop_ind cmod g B (λ s, safe g s ∧ inv_sp g B src s)
            (λ s, inv_sp g B src s ∧ pq_elems (pq s) = [])); [| |split; done|done].
  - intros s s' [Hss Hsi] Hb. split; [|by eapply loop_body_sp].
    destruct (loop_body_safe cmod g B s g_ok Hss) as (r' & Hr' & Hm).
    rewrite Hb in Hr'. injection Hr' as <-. tauto.
  - intros s s' [_ Hsi]. by apply loop_body_sp_exit.
Qed.

Lemma exact_unique src (d1 d2 : list Z) :
  exact_below g src B d1 → exact_below g src B d2 → d1 = d2.
Proof.
  intros [Hl1 H1] [Hl2 H2]. apply list_eq_same_length with (Graph.n g); [done..|].
  intros v x y _ Hx Hy.
  destruct (H1 v x Hx) as [[Hlt1 Hs1]|[-> Hf1]], (H2 v y Hy) as [[Hlt2 Hs2]|[-> Hf2]].
  - by eapply shortest_unique.
  - destruct Hs1 as [Hr1 _]. specialize (Hf2 _ Hr1). lia.
  - destruct Hs2 as [Hr2 _]. specialize (Hf1 _ Hr2). lia.
  - done.
Qed.

(** *** What the trace records of the settled nodes *)

Definition settled_but (st : State Q) (v : nat) (d : Z) (k : nat) : Prop :=
  (∀ v' d', EvPop d' v' true ∈ trace st → dist st !! v' = Some d') ∧
  (∀ nd, EvCand nd ∈ trace st →
     ∃ v' d' ei e, EvPop d' v' true ∈ trace st ∧ edge_at g v' ei e ∧
                   nd = (d' + Edge.w e)%Z) ∧
  (∀ v' d' ei e, EvPop d' v' true ∈ trace st → edge_at g v' ei e →
     EvCand (d' + Edge.w e) ∈ trace st ∨ (v' = v ∧ d' = d ∧ k ≤ ei)) ∧
  (∀ u du, dist st !! u = Some du → (du < B)%Z →
     Entry.mk du u ∈ pq_elems (pq st) ∨ EvPop du u true ∈ trace st) ∧
  (∀ d' v' f, EvPop d' v' f ∈ trace st → (d' < B)%Z).

Definition settled_inv (st : State Q) : Prop :=
  (∀ v' d', EvPop d' v' true ∈ trace st → dist st !! v' = Some d') ∧
  (∀ nd, EvCand nd ∈ trace st →
     ∃ v' d' ei e, EvPop d' v' true ∈ trace st ∧ edge_at g v' ei e ∧
                   nd = (d' + Edge.w e)%Z) ∧
  (∀ v' d' ei e, EvPop d' v' true ∈ trace st → edge_at g v' ei e →
     EvCand (d' + Edge.w e) ∈ trace st) ∧
  (∀ u du, dist st !! u = Some du → (du < B)%Z →
     Entry.mk du u ∈ pq_elems (pq st) ∨ EvPop du u true ∈ trace st) ∧
  (∀ d' v' f, EvPop d' v' f ∈ trace st → (d' < B)%Z).

Lemma elem_of_snoc {A} (l : list A) (x y : A) : x ∈ l ++ [y] ↔ x ∈ l ∨ x = y.
Proof. by rewrite elem_of_app, list_elem_of_singleton. Qed.

Lemma fresh_pop_in tr d v : EvPop d v true ∈ tr → d ∈ fresh_pops tr.
Proof.
  intros Hin. unfold fresh_pops. apply list_elem_of_omap.
  by exists (EvPop d v true).
Qed.

Lemma relax_edge_settled v d k e (st st' : State Q) :
  (0 ≤ d < B)%Z → edge_at g v k e → EvPop d v true ∈ trace st →
  Forall (λ x, x ≤ d)%Z (fresh_pops (trace st)) →
  settled_but st v d k → relax_edge cmod B d e st = Done st' →
  settled_but st' v d (S k).
Proof.
  intros Hd He Hcur Hle (J1 & J2 & J3 & J4 & J5) (dto & Hdto & H)%relax_edge_inv.
  cbv zeta in H.
  assert (Hin : e ∈ Graph.edges g).
  { destruct He as (? & ? & _ & _ & _ & He). by eapply list_elem_of_lookup_2. }
  destruct (candidate_exact g B weights_pos weights_fit d e Hd Hin) as [Hex Hgt].
  rewrite Hex in H. destruct H as (Htr & _ & H).
  assert (Hpops : ∀ d' v' f, EvPop d' v' f ∈ trace st' ↔ EvPop d' v' f ∈ trace st).
  { intros d' v' f. rewrite Htr, elem_of_snoc. split; [by intros [?|[=]]|by left]. }
  assert (Hcands : ∀ nd, EvCand nd ∈ trace st' ↔
                     EvCand nd ∈ trace st ∨ nd = (d + Edge.w e)%Z).
  { intros nd. rewrite Htr, elem_of_snoc.
    split; [intros [?|[= ->]]; [by left|by right]|intros [?| ->]; [by left|by right]]. }
  assert (Hel : ∀ x, x ∈ pq_elems (pq st) → x ∈ pq_elems (pq st')).
  { intros x Hx. destruct H as [(_ & _ & -> & _)|(_ & _ & -> & _)]; [|done].
    rewrite pq_push_elems. by right. }
  split_and!.
  - intros v' d' Hp. apply Hpops in Hp. pose proof (J1 _ _ Hp) as Hv'.
    destruct H as [(Hlt & -> & _)|(_ & -> & _)]; [|done].
    destruct (decide (Edge.to e = v')) as [<-|Hne]; [|by rewrite list_lookup_insert_ne].
    rewrite Hdto in Hv'. injection Hv' as ->.
    pose proof (proj1 (Forall_forall _ _) Hle _ (fresh_pop_in _ _ _ Hp)). simpl in *. lia.
  - intros nd [Hc| ->]%Hcands.
    + destruct (J2 _ Hc) as (v' & d' & ei & e' & Hp & He' & ->).
      exists v', d', ei, e'. by rewrite Hpops.
    + exists v, d, k, e. by rewrite Hpops.
  - intros v' d' ei e' Hp%Hpops He'.
    destruct (J3 _ _ _ _ Hp He') as [Hc|(-> & -> & Hk)].
    + left. apply Hcands. by left.
    + destruct (decide (ei = k)) as [->|Hne]; [|right; split_and!; [done..|lia]].
      left. apply Hcands. right.
      destruct He as (? & ? & _ & _ & _ & He), He' as (? & ? & _ & _ & _ & He').
      rewrite He in He'. by injection He' as <-.
  - intros u du Hu Hdu.
    destruct H as [(Hlt & Hdist & Hpq & _)|(_ & Hdist & _)]; rewrite Hdist in Hu.
    + destruct (decide (Edge.to e = u)) as [<-|Hne].
      * rewrite list_lookup_insert_eq in Hu by (by eapply lookup_lt_Some).
        injection Hu as <-. left. rewrite Hpq, pq_push_elems. by left.
      * rewrite list_lookup_insert_ne in Hu by done.
        destruct (J4 _ _ Hu Hdu) as [?|?]; [left; by apply Hel|right; by apply Hpops].
    + destruct (J4 _ _ Hu Hdu) as [?|?]; [left; by apply Hel|right; by apply Hpops].
  - intros d' v' f Hp%Hpops. by eapply J5.
Qed.

(** While the node [v] popped at distance [d] is being settled. *)
Definition settling (v : nat) (d : Z) (k : nat) (s : State Q) : Prop :=
  (inv_mono s ∧ Forall (λ x, x ≤ d)%Z (fresh_pops (trace s))) ∧
  EvPop d v true ∈ trace s ∧ settled_but s v d k.

Lemma settling_start (st : State Q) cur q' beg :
  safe g st → inv_mono st → settled_inv st →
  pq_pop (pq st) = Some (cur, q') →
  dist st !! Entry.v cur = Some (Entry.d cur) → (Entry.d cur < B)%Z →
  Graph.head g !! Entry.v cur = Some beg →
  settling (Entry.v cur) (Entry.d cur) beg
    (mkState (dist st) q' (b_prime st) (incr cmod (popped st))
       (heap_pushes st) (edges_scanned st)
       (trace st ++ [EvPop (Entry.d cur) (Entry.v cur) true])).
Proof.
  intros (_ & Hrange & _ & Hok) [Hnd Hall] (J1 & J2 & J3 & J4 & J5) Hpop Hdv Hlt Hbeg.
  pose proof (pq_pop_elems _ _ _ Hpop) as Hel.
  assert (Hle : Forall (λ x, x ≤ Entry.d cur)%Z (fresh_pops (trace st))).
  { eapply Forall_impl; [exact Hall|]. simpl. intros x Hx. rewrite Hel in Hx.
    by apply Forall_cons in Hx as [? _]. }
  split_and!.
  - unfold inv_mono. simpl. rewrite fresh_pops_snoc. split.
    + by apply nondecreasing_snoc.
    + apply Forall_app. split.
      * eapply Forall_impl; [exact Hall|]. simpl. intros x Hx. rewrite Hel in Hx.
        by apply Forall_cons in Hx as [_ ?].
      * constructor; [|done].
        pose proof (pq_pop_min _ _ _ Hok Hpop) as Hmin. rewrite Hel in Hmin.
        by apply Forall_cons in Hmin as [_ ?].
  - simpl. rewrite fresh_pops_snoc. apply Forall_app. split; [done|].
    constructor; [lia|done].
  - apply elem_of_snoc. by right.
  - split_and!; simpl.
    + intros v' d' [Hp|[= -> ->]]%elem_of_snoc; [by apply J1|done].
    + intros nd [Hc|[=]]%elem_of_snoc.
      destruct (J2 _ Hc) as (v' & d' & ei & e & Hp & He & ->).
      exists v', d', ei, e. split_and!; [|done..]. apply elem_of_snoc. by left.
    + intros v' d' ei e [Hp|[= -> ->]]%elem_of_snoc He.
      * left. apply elem_of_snoc. left. by eapply J3.
      * right. split_and!; [done..|].
        destruct He as (beg' & en' & Hbeg' & _ & Hei & _).
        rewrite Hbeg in Hbeg'. injection Hbeg' as <-. lia.
    + intros u du Hu Hdu. destruct (J4 _ _ Hu Hdu) as [Hq|Hp].
      * rewrite Hel in Hq. apply elem_of_cons in Hq as [Hq|Hq]; [|by left].
        right. apply elem_of_snoc. right. by rewrite <- Hq.
      * right. apply elem_of_snoc. by left.
    + intros d' v' f [Hp|[= -> -> _]]%elem_of_snoc; [by eapply J5|done].
Qed.

Lemma settling_step v d beg en k e (s1 s2 : State Q) :
  (0 ≤ d < B)%Z →
  Graph.head g !! v = Some beg → Graph.head g !! (v + 1) = Some en →
  beg ≤ k < beg + (en - beg) → Graph.edges g !! k = Some e →
  settling v d k s1 → relax_edge cmod B d e s1 = Done s2 → settling v d (S k) s2.
Proof.
  intros Hd Hbeg Hen Hk He (Hm1 & Hc1 & Hs1) Hstep.
  assert (Hin : e ∈ Graph.edges g) by (by eapply list_elem_of_lookup_2).
  pose proof (relax_edge_mono cmod g B weights_pos weights_fit
                d e s1 s2 Hd Hin Hm1 Hstep) as Hm2.
  split; [exact Hm2|]. split.
  - apply relax_edge_inv in Hstep as (? & _ & Ht & _). cbv zeta in Ht.
    rewrite Ht. apply elem_of_snoc. by left.
  - eapply relax_edge_settled; [done| |done|apply Hm1|done..].
    exists beg, en. split_and!; [done..|lia|lia|done].
Qed.

Lemma settling_end v d beg en (s : State Q) :
  Graph.head g !! v = Some beg → Graph.head g !! (v + 1) = Some en →
  settling v d (beg + (en - beg)) s → settled_inv s.
Proof.
  intros Hbeg Hen (_ & _ & J1 & J2 & J3 & J4 & J5). split_and!; try done.
  intros v' d' ei e Hp He. destruct (J3 _ _ _ _ Hp He) as [?|(-> & -> & Hk)]; [done|].
  destruct He as (beg' & en' & Hbeg' & Hen' & Hei & _).
  rewrite Hbeg in Hbeg'. rewrite Hen in Hen'.
  injection Hbeg' as <-. injection Hen' as <-. lia.
Qed.

Lemma loop_body_settled (st : State Q) r :
  safe g st → below_bound B st → inv_mono st → settled_inv st →
  loop_body cmod g B st = Done r →
  settled_inv (match r with inl s | inr s => s end).
Proof.
  intros Hsafe Hb Hmono Hj Hbody.
  pose proof Hsafe as (_ & Hrange & _). pose proof Hj as (J1 & J2 & J3 & J4 & J5).
  apply loop_body_inv in Hbody as [[_ ->]|(cur & q' & dv & Hpop & Hdv & H)]; [done|].
  cbv zeta in H. pose proof (pq_pop_elems _ _ _ Hpop) as Hel.
  unfold below_bound in Hb. rewrite Hel in Hb. apply Forall_cons in Hb as [Hcur Hb'].
  destruct H as [[Hne ->]|[(_ & Hge & _)|(Heq & Hlt & beg & en & s & Hbeg & Hen & Hrel & ->)]];
    [|lia|].
  - (* stale entry *)
    simpl. split_and!; simpl.
    + intros v' d' [Hp|[=]]%elem_of_snoc. by apply J1.
    + intros nd [Hc|[=]]%elem_of_snoc.
      destruct (J2 _ Hc) as (v' & d' & ei & e & Hp & He & ->).
      exists v', d', ei, e. split_and!; [|done..]. apply elem_of_snoc. by left.
    + intros v' d' ei e [Hp|[=]]%elem_of_snoc He. apply elem_of_snoc. left.
      by eapply J3.
    + intros u du Hu Hdu. destruct (J4 _ _ Hu Hdu) as [Hq|Hp].
      * rewrite Hel in Hq. apply elem_of_cons in Hq as [Hq|Hq]; [|by left].
        subst cur. simpl in *. congruence.
      * right. apply elem_of_snoc. by left.
    + intros d' v' f [Hp|[= -> -> _]]%elem_of_snoc; [by eapply J5|done].
  - (* settled *)
    assert (Hd0 : (0 ≤ Entry.d cur)%Z).
    { rewrite Heq. pose proof (Forall_lookup_1 _ _ _ _ Hrange Hdv). simpl in *. lia. }
    rewrite <- Heq in Hdv.
    eapply (relax_ind cmod g B (settling (Entry.v cur) (Entry.d cur))) in Hrel.
    + simpl. by eapply (settling_end _ _ beg en).
    + intros k e s1 s2 Hk He. apply (settling_step _ _ beg en); [lia|done..].
    + by apply settling_start.
Qed.

Lemma main_loop_settled fuel (st r : State Q) :
  safe g st → inv_bound B st → inv_mono st → settled_inv st →
  main_loop cmod g B fuel st = Done r → settled_inv r.
Proof.
  intros Hs Hb Hm Hj.
  apply (main_loop_ind cmod g B
           (λ s, safe g s ∧ inv_bound B s ∧ inv_mono s ∧ settled_inv s) settled_inv);
    [| |by split_and!].
  - intros s s' (Hss & Hsb & Hsm & Hsj) Hbody. split_and!.
    + destruct (loop_body_safe cmod g B s g_ok Hss) as (r' & Hr' & Hr).
      rewrite Hbody in Hr'. injection Hr' as <-. tauto.
    + by apply (loop_body_bound cmod g B s _ Hsb Hbody).
    + by apply (loop_body_mono cmod g B weights_pos weights_fit s _ Hss Hsm Hbody).
    + by apply (loop_body_settled s _ Hss (proj1 Hsb) Hsm Hsj Hbody).
  - intros s s' (Hss & Hsb & Hsm & Hsj) Hbody.
    by apply (loop_body_settled s _ Hss (proj1 Hsb) Hsm Hsj Hbody).
Qed.

Lemma entered_settled src (st : State Q) : entered g B src st → settled_inv st.
Proof.
  intros (_ & Hel & Hdist & _ & _ & _ & Htr & _).
  unfold settled_inv. rewrite Htr. split_and!.
  - by intros v' d' ?%elem_of_nil.
  - by intros nd ?%elem_of_nil.
  - by intros v' d' ei e ?%elem_of_nil.
  - intros u du Hu Hdu. left. rewrite Hel.
    apply (list_elem_of_fmap_2 entry_of _ (u, du)).
    apply list_elem_of_filter. split; [done|]. by apply Hdist.
  - by intros d' v' f ?%elem_of_nil.
Qed.

Lemma observed_spec x tr :
  x ∈ observed B tr ↔ (B ≤ x)%Z ∧ ∃ ev, ev ∈ tr ∧ seen ev = x.
Proof.
  unfold observed. rewrite list_elem_of_filter, list_elem_of_fmap.
  split; intros [? (ev & ? & ?)]; (split; [done|]); by exists ev.
Qed.

Lemma facts_exact src (r : State Q) :
  safe g r → inv_bound B r → inv_sp g B src r → pq_elems (pq r) = [] →
  exact_below g src B (dist r).
Proof.
  intros Hsafe Hbound Hinv Hempty.
  split; [apply Hsafe|]. intros v dv Hv.
  destruct Hbound as (_ & Hdb & _).
  destruct (Forall_lookup_1 _ _ _ _ Hdb Hv) as [->|Hlt].
  - right. split; [done|]. intros d Hreach.
    destruct (decide (d < B)%Z) as [Hd|]; [|lia].
    destruct (fixpoint_lower g B src weights_pos r v d Hinv Hempty Hreach Hd)
      as (x & Hx & Hle).
    rewrite Hv in Hx. injection Hx as <-. lia.
  - left. split; [done|].
    by apply (fixpoint_shortest g B src weights_pos r v dv Hinv Hempty).
Qed.

Lemma facts_frontier src (r : State Q) :
  inv_bound B r → inv_sp g B src r → pq_elems (pq r) = [] → settled_inv r →
  least_frontier g src B (b_prime r).
Proof.
  intros (_ & _ & Hbp & Hobs) Hinv Hempty (J1 & J2 & J3 & J4 & J5).
  destruct (foldr_min_le U64_MAX (observed B (trace r))) as [Hmax Hall].
  rewrite <- Hbp in Hmax, Hall.
  split_and!; [done| |].
  - intros x (u & du & to & w & Hsh & Hdu & [ei He] & -> & Hge).
    apply (proj1 (Forall_forall _ _) Hall). apply observed_spec. split; [done|].
    exists (EvCand (du + w)). split; [|done].
    destruct (fixpoint_lower g B src weights_pos r u du Hinv Hempty (proj1 Hsh) Hdu)
      as (dv & Hdv & Hle).
    assert (dv = du) as ->.
    { eapply shortest_unique; [|done].
      apply (fixpoint_shortest g B src weights_pos r u dv Hinv Hempty Hdv). lia. }
    destruct (J4 _ _ Hdv Hdu) as [Hq|Hp].
    { rewrite Hempty in Hq. by apply elem_of_nil in Hq. }
    apply (J3 _ _ _ _ Hp He).
  - intros Hlt.
    destruct (foldr_min_in U64_MAX (observed B (trace r))) as [Heq|Hin];
      rewrite <- Hbp in *; [lia|].
    apply observed_spec in Hin as (Hge & ev & Hev & Hseen).
    destruct ev as [d v f|nd]; simpl in Hseen; subst.
    { specialize (J5 _ _ _ Hev). lia. }
    destruct (J2 _ Hev) as (v' & d' & ei & e & Hp & He & Hnd).
    exists v', d', (Edge.to e), (Edge.w e). split_and!.
    + apply (fixpoint_shortest g B src weights_pos r v' d' Hinv Hempty);
        [by apply J1|by eapply J5].
    + by eapply J5.
    + exists ei. by destruct e.
    + done.
    + lia.
Qed.

Lemma least_frontier_unique src (b1 b2 : Z) :
  least_frontier g src B b1 → least_frontier g src B b2 → b1 = b2.
Proof.
  intros (Hm1 & Hl1 & Hf1) (Hm2 & Hl2 & Hf2).
  destruct (decide (b1 < U64_MAX)%Z) as [H1|H1], (decide (b2 < U64_MAX)%Z) as [H2|H2].
  - specialize (Hl1 _ (Hf2 H2)). specialize (Hl2 _ (Hf1 H1)). lia.
  - specialize (Hl2 _ (Hf1 H1)). lia.
  - specialize (Hl1 _ (Hf2 H2)). lia.
  - lia.
Qed.

(** *** Every node is settled once *)

Hypothesis cmod_pos : (0 < cmod)%Z.

Definition fresh_entry (ds : list Z) (e : Entry.t) : Prop :=
  ds !! Entry.v e = Some (Entry.d e).

#[local] Instance fresh_entry_dec ds e : Decision (fresh_entry ds e).
Proof. unfold fresh_entry. apply _. Defined.

(** [todo] edges of the node being settled are still to be scanned. *)
Definition once_inv (st : State Q) (todo : nat) : Prop :=
  NoDup (settled_nodes (trace st)) ∧
  Forall (λ e, ∃ dv, dist st !! Entry.v e = Some dv ∧ (dv ≤ Entry.d e)%Z)
         (pq_elems (pq st)) ∧
  NoDup (filter (fresh_entry (dist st)) (pq_elems (pq st))) ∧
  Forall (λ e, fresh_entry (dist st) e → Entry.v e ∉ settled_nodes (trace st))
         (pq_elems (pq st)) ∧
  popped st = (Z.of_nat (length (settled_nodes (trace st))) mod cmod)%Z ∧
  edges_scanned st = (Z.of_nat (length (candidates (trace st))) mod cmod)%Z ∧
  length (candidates (trace st)) + todo =
    sum_list (out_degree g <$> settled_nodes (trace st)).

Lemma settled_nodes_snoc tr ev :
  settled_nodes (tr ++ [ev]) =
  settled_nodes tr ++ match ev with EvPop _ v true => [v] | _ => [] end.
Proof.
  unfold settled_nodes. rewrite omap_app. f_equal. by destruct ev as [? ? []|].
Qed.

Lemma candidates_snoc tr ev :
  candidates (tr ++ [ev]) =
  candidates tr ++ match ev with EvCand nd => [nd] | _ => [] end.
Proof. unfold candidates. rewrite omap_app. f_equal. by destruct ev. Qed.

Lemma settled_nodes_spec tr v :
  v ∈ settled_nodes tr ↔ ∃ d, EvPop d v true ∈ tr.
Proof.
  unfold settled_nodes. rewrite list_elem_of_omap. split.
  - intros ([d v' [|]|nd] & Hin & [= <-]). by exists d.
  - intros [d Hin]. by exists (EvPop d v true).
Qed.

Lemma incr_count (k : nat) :
  incr cmod (Z.of_nat k mod cmod) = (Z.of_nat (S k) mod cmod)%Z.
Proof.
  unfold incr. rewrite Z.add_mod_idemp_l by lia. f_equal. lia.
Qed.

Lemma relax_edge_counters d e (st st' : State Q) :
  relax_edge cmod B d e st = Done st' →
  edges_scanned st' = incr cmod (edges_scanned st).
Proof.
  unfold relax_edge. intros (dto & _ & H)%bind_Done.
  destruct (_ && _)%Z in H; [by injection H as <-|].
  destruct (_ && _)%Z in H; by injection H as <-.
Qed.

Lemma NoDup_filter_impl {A} (P P' : A → Prop) `{∀ x, Decision (P x)}
    `{∀ x, Decision (P' x)} (l : list A) :
  Forall (λ x, P' x → P x) l → NoDup (filter P l) → NoDup (filter P' l).
Proof.
  induction 1 as [|x l Hx _ IH]; [done|].
  rewrite !filter_cons. destruct (decide (P' x)) as [Hp'|Hp'].
  - rewrite decide_True by auto. intros [Hnin Hnd]%NoDup_cons.
    apply NoDup_cons. split; [|by apply IH].
    intros [_ Hin]%list_elem_of_filter. apply Hnin. apply list_elem_of_filter.
    split; [auto|done].
  - destruct (decide (P x)); [|by apply IH]. intros [_ Hnd]%NoDup_cons. by apply IH.
Qed.

Lemma relax_edge_once d e todo (st st' : State Q) :
  (0 ≤ d < B)%Z → e ∈ Graph.edges g →
  (∀ v' d', EvPop d' v' true ∈ trace st → dist st !! v' = Some d') →
  Forall (λ x, x ≤ d)%Z (fresh_pops (trace st)) →
  once_inv st (S todo) → relax_edge cmod B d e st = Done st' →
  once_inv st' todo.
Proof.
  intros Hd Hin J1 Hle (K1 & K2 & K3 & K4 & K5 & K6 & K7) Hstep.
  pose proof (relax_edge_counters _ _ _ _ Hstep) as Hes.
  apply relax_edge_inv in Hstep as (dto & Hdto & H). cbv zeta in H.
  destruct (candidate_exact g B weights_pos weights_fit d e Hd Hin) as [Hex Hgt].
  rewrite Hex in H. destruct H as (Htr & Hpop & H).
  assert (Hsn : settled_nodes (trace st') = settled_nodes (trace st)).
  { by rewrite Htr, settled_nodes_snoc, app_nil_r. }
  assert (Hcn : length (candidates (trace st')) = S (length (candidates (trace st)))).
  { rewrite Htr, candidates_snoc, length_app. simpl. lia. }
  unfold once_inv. rewrite Hsn, Hcn, Hes, Hpop, K6, incr_count.
  destruct H as [(Hlt & Hdist & Hpq & _)|(_ & Hdist & Hpq & _)].
  - (* the distance of [to] is lowered *)
    assert (Hto : Edge.to e ∉ settled_nodes (trace st)).
    { intros [d' Hp]%settled_nodes_spec. pose proof (J1 _ _ Hp) as Hv'.
      rewrite Hdto in Hv'. injection Hv' as ->.
      pose proof (proj1 (Forall_forall _ _) Hle _ (fresh_pop_in _ _ _ Hp)).
      simpl in *. lia. }
    assert (Hold : Forall (λ x, fresh_entry (dist st') x → fresh_entry (dist st) x ∧ Entry.v x ≠ Edge.to e)
                     (pq_elems (pq st))).
    { eapply Forall_impl; [exact K2|]. simpl. intros x (dv & Hdv & Hdle).
      unfold fresh_entry. rewrite Hdist.
      destruct (decide (Edge.to e = Entry.v x)) as [Heq|Hne].
      - rewrite <- Heq. rewrite list_lookup_insert_eq by (by eapply lookup_lt_Some).
        intros [= Hx]. rewrite <- Heq, Hdto in Hdv. injection Hdv as <-. lia.
      - rewrite list_lookup_insert_ne by done. intros. split; [done|]. congruence. }
    rewrite Hpq. split_and!; try done.
    + rewrite pq_push_elems. constructor.
      * exists (d + Edge.w e)%Z. simpl. rewrite Hdist.
        rewrite list_lookup_insert_eq by (by eapply lookup_lt_Some). split; [done|lia].
      * eapply Forall_impl; [exact K2|]. simpl. intros x (dv & Hdv & Hdle).
        rewrite Hdist. destruct (decide (Edge.to e = Entry.v x)) as [Heq|Hne].
        -- rewrite <- Heq. rewrite list_lookup_insert_eq by (by eapply lookup_lt_Some).
           eexists. split; [done|]. rewrite <- Heq, Hdto in Hdv. injection Hdv as <-. lia.
        -- rewrite list_lookup_insert_ne by done. by exists dv.
    + rewrite pq_push_elems, filter_cons.
      assert (Hnd' : NoDup (filter (fresh_entry (dist st')) (pq_elems (pq st)))).
      { eapply (NoDup_filter_impl (fresh_entry (dist st))); [|done].
        eapply Forall_impl; [exact Hold|]. simpl. tauto. }
      case_decide; [|done]. apply NoDup_cons. split; [|done].
      intros [Hf Hx]%list_elem_of_filter.
      destruct (proj1 (Forall_forall _ _) Hold _ Hx Hf) as [_ Hne]. by simpl in Hne.
    + rewrite pq_push_elems. constructor; [done|].
      apply Forall_forall. intros x Hx Hf.
      destruct (proj1 (Forall_forall _ _) Hold _ Hx Hf) as [Hf0 _].
      by apply (proj1 (Forall_forall _ _) K4 _ Hx).
    + lia.
  - rewrite Hpq, Hdist. split_and!; try done. lia.
Qed.

Lemma loop_body_once (st : State Q) r :
  safe g st → below_bound B st → inv_mono st → settled_inv st → once_inv st 0 →
  loop_body cmod g B st = Done r →
  once_inv (match r with inl s | inr s => s end) 0.
Proof.
  intros Hsafe Hb Hmono Hj (K1 & K2 & K3 & K4 & K5 & K6 & K7) Hbody.
  pose proof Hsafe as (_ & Hrange & _).
  apply loop_body_inv in Hbody as [[_ ->]|(cur & q' & dv & Hpop & Hdv & H)]; [done|].
  cbv zeta in H. pose proof (pq_pop_elems _ _ _ Hpop) as Hel.
  unfold below_bound in Hb. rewrite Hel in Hb. apply Forall_cons in Hb as [Hcur Hb'].
  rewrite Hel in K2, K3, K4.
  apply Forall_cons in K2 as [_ K2]. apply Forall_cons in K4 as [K4c K4].
  rewrite filter_cons in K3.
  destruct H as [[Hne ->]|[(_ & Hge & _)|(Heq & Hlt & beg & en & s & Hbeg & Hen & Hrel & ->)]];
    [|lia|].
  - (* stale entry *)
    rewrite decide_False in K3 by (unfold fresh_entry; congruence).
    unfold once_inv. simpl. rewrite settled_nodes_snoc, candidates_snoc, !app_nil_r.
    by split_and!.
  - (* settled *)
    assert (Hd0 : (0 ≤ Entry.d cur)%Z).
    { rewrite Heq. pose proof (Forall_lookup_1 _ _ _ _ Hrange Hdv). simpl in *. lia. }
    rewrite <- Heq in Hdv.
    rewrite decide_True in K3 by done. apply NoDup_cons in K3 as [K3c K3].
    specialize (K4c Hdv).
    eapply (relax_ind cmod g B
              (λ k s, settling (Entry.v cur) (Entry.d cur) k s ∧
                      once_inv s (beg + (en - beg) - k))) in Hrel.
    + simpl. destruct Hrel as [_ Hrel].
      by replace (beg + (en - beg) - (beg + (en - beg))) with 0 in Hrel by lia.
    + intros k e s1 s2 Hk He [Hs1 Ho1].
      split; [by apply (settling_step _ _ beg en k e s1); [lia|..]|].
      replace (beg + (en - beg) - k) with (S (beg + (en - beg) - S k)) in Ho1 by lia.
      destruct Hs1 as ((_ & Hle1) & _ & J1 & _).
      eapply relax_edge_once; [|by eapply list_elem_of_lookup_2|done..]. lia.
    + split; [by apply settling_start|].
      unfold once_inv. simpl.
      rewrite settled_nodes_snoc, candidates_snoc, app_nil_r, length_app, fmap_app,
        sum_list_with_app. simpl.
      split_and!; try done.
      * apply NoDup_app. split_and!; [done| |apply NoDup_singleton].
        intros x Hx ->%list_elem_of_singleton. done.
      * apply Forall_forall. intros x Hx Hf [Hin|Hv%list_elem_of_singleton]%elem_of_app.
        -- by apply (proj1 (Forall_forall _ _) K4 _ Hx).
        -- apply K3c. apply list_elem_of_filter. split; [done|].
           replace cur with x; [done|]. destruct x, cur. unfold fresh_entry in Hf.
           simpl in *. subst. rewrite Hdv in Hf. by injection Hf as ->.
      * rewrite K5, incr_count. f_equal. lia.
      * rewrite <- K7. unfold out_degree.
        rewrite (list_lookup_total_correct _ _ _ Hbeg), (list_lookup_total_correct _ _ _ Hen).
        lia.
Qed.

Lemma main_loop_once fuel (st r : State Q) :
  safe g st → inv_bound B st → inv_mono st → settled_inv st → once_inv st 0 →
  main_loop cmod g B fuel st = Done r → once_inv r 0.
Proof.
  intros Hs Hb Hm Hj Ho.
  apply (main_loop_ind cmod g B
           (λ s, safe g s ∧ inv_bound B s ∧ inv_mono s ∧ settled_inv s ∧ once_inv s 0)
           (λ s, once_inv s 0)); [| |by split_and!].
  - intros s s' (Hss & Hsb & Hsm & Hsj & Hso) Hbody. split_and!.
    + destruct (loop_body_safe cmod g B s g_ok Hss) as (r' & Hr' & Hr).
      rewrite Hbody in Hr'. injection Hr' as <-. tauto.
    + by apply (loop_body_bound cmod g B s _ Hsb Hbody).
    + by apply (loop_body_mono cmod g B weights_pos weights_fit s _ Hss Hsm Hbody).
    + by apply (loop_body_settled s _ Hss (proj1 Hsb) Hsm Hsj Hbody).
    + by apply (loop_body_once s _ Hss (proj1 Hsb) Hsm Hsj Hso Hbody).
  - intros s s' (Hss & Hsb & Hsm & Hsj & Hso) Hbody.
    by apply (loop_body_once s _ Hss (proj1 Hsb) Hsm Hsj Hso Hbody).
Qed.

Lemma entered_once src (st : State Q) :
  NoDup src.*1 → entered g B src st → once_inv st 0.
Proof.
  intros Hnd (_ & Hel & _ & Hsrc & _ & _ & Htr & Hpop & _ & Hes).
  assert (Hnd' : NoDup (pq_elems (pq st))).
  { rewrite Hel. apply NoDup_fmap_2.
    - by intros [s1 d1] [s2 d2] [= -> ->].
    - apply NoDup_filter. by eapply NoDup_fmap_1. }
  unfold once_inv. rewrite Htr, Hpop, Hes. simpl. split_and!; try done.
  - constructor.
  - rewrite Hel. apply Forall_fmap, Forall_forall.
    intros [s d0] [Hlt Hin]%list_elem_of_filter. simpl in *.
    exists d0. split; [by apply Hsrc|lia].
  - by apply NoDup_filter.
  - apply Forall_forall. by intros x _ _ ?%elem_of_nil.
Qed.

Lemma settled_below (r : State Q) :
  safe g r → pq_elems (pq r) = [] → settled_inv r → once_inv r 0 →
  settled_nodes (trace r) ≡ₚ below_nodes g B (dist r).
Proof.
  intros (Hlen & _) Hempty (J1 & _ & _ & J4 & J5) (K1 & _).
  apply NoDup_Permutation; [done|apply NoDup_filter, NoDup_seq|].
  intros v. unfold below_nodes. rewrite settled_nodes_spec, list_elem_of_filter, elem_of_seq.
  split.
  - intros [d Hp]. pose proof (J1 _ _ Hp) as Hv.
    rewrite (list_lookup_total_correct _ _ _ Hv).
    split; [by eapply J5|]. apply lookup_lt_Some in Hv. lia.
  - intros [Hlt Hv].
    assert (Hsome : dist r !! v = Some (dist r !!! v)).
    { apply list_lookup_lookup_total_lt. lia. }
    destruct (J4 _ _ Hsome Hlt) as [Hq|Hp]; [|by eexists].
    rewrite Hempty in Hq. by apply elem_of_nil in Hq.
Qed.

Lemma facts_counters (r : State Q) :
  safe g r → pq_elems (pq r) = [] → settled_inv r → once_inv r 0 →
  popped r = (Z.of_nat (length (below_nodes g B (dist r))) mod cmod)%Z ∧
  edges_scanned r =
    (Z.of_nat (sum_list (out_degree g <$> below_nodes g B (dist r))) mod cmod)%Z.
Proof.
  intros Hsafe Hempty Hj Ho.
  pose proof (settled_below r Hsafe Hempty Hj Ho) as Hperm.
  destruct Ho as (_ & _ & _ & _ & K5 & K6 & K7).
  rewrite <- Hperm. split; [done|]. rewrite K6. f_equal. lia.
Qed.

(** What a finished run has established. *)
Lemma run_facts src :
  functional src → sources_in_range g src →
  ∃ fuel r, run cmod g B fuel src = Done r ∧
    safe g r ∧ inv_bound B r ∧ inv_sp g B (active B src) r ∧
    pq_elems (pq r) = [] ∧ settled_inv r ∧ (NoDup src.*1 → once_inv r 0).
Proof.
  intros Hfun Hsrc.
  destruct (run_terminates cmod g B g_ok B_range src Hsrc)
    as (fuel & st & r & Hst & Hp & Hr & Hrun & Hsafe & Hbound).
  exists fuel, r. split; [done|].
  destruct (cpp_enter_all_entered g B src ltac:(lia) Hfun Hsrc src [] (start g))
    as (st' & Hst' & Hent); [done|apply start_entered; lia|].
  rewrite Hst in Hst'. injection Hst' as <-.
  destruct (main_loop_fixpoint (active B src) fuel st r) as [Hinv Hempty];
    [apply Hent|by apply entered_inv_sp|done|].
  pose proof (entered_inv_mono g B src st Hent) as Hmono.
  pose proof (entered_settled src st Hent) as Hj.
  split_and!; [done..| |].
  - eapply main_loop_settled; [apply Hent|apply Hp|done..].
  - intros Hnd. eapply main_loop_once; [apply Hent|apply Hp|done..| |done].
    by apply (entered_once src).
Qed.
End Exact.

Lemma at_zero_fst sources : (at_zero sources).*1 = sources.
Proof.
  unfold at_zero. induction sources as [|s l IH]; [done|].
  rewrite !fmap_cons. simpl. by rewrite IH.
Qed.

(** X4 (the trial loop of [main], both programs): a run computes exactly
    the shortest distances below the bound.  For a positive-weight graph in
    CSR form whose candidates cannot wrap and sources in range, the run
    terminates and ends with a distance array of [n] entries in which every
    node holds its true shortest distance from the active sources when that
    is below [B], and the sentinel when no walk reaches it below [B].  The
    C++ program is given pairs that agree on repeated nodes; the C program
    a positive bound. *)
Theorem trials_compute_exact_distances (g : Graph.t) (B : Z) :
  graph_in_bounds g → positive_weights g → no_overflow g B →
  (0 ≤ B ≤ U64_MAX)%Z →
  (∀ src, functional src → sources_in_range g src →
     ∃ fuel r, cpp_trial fuel g src B = Done r ∧
       exact_below g (active B src) B (dist r)) ∧
  (∀ sources, (0 < B)%Z → Forall (λ s, s < Graph.n g) sources →
     ∃ fuel r, c_trial fuel g sources B = Done r ∧
       exact_below g (at_zero sources) B (dist r)).
Proof.
  intros Hg Hpos Hfit HB. split.
  - intros src Hfun Hsrc.
    destruct (run_facts (L := cpp_priority_queue_laws) (2 ^ 64) g B Hg HB Hpos Hfit
                ltac:(lia) src Hfun Hsrc)
      as (fuel & r & Hr & Hsafe & Hbound & Hinv & Hempty & _).
    exists fuel, r. split; [done|]. by eapply facts_exact.
  - intros sources HB0 Hsrc.
    destruct (run_facts (L := c_heap_laws) (2 ^ 32) g B Hg HB Hpos Hfit
                ltac:(lia) (at_zero sources) (at_zero_functional _)
                (at_zero_in_range g sources Hsrc))
      as (fuel & r & Hr & Hsafe & Hbound & Hinv & Hempty & _).
    exists fuel, r. rewrite c_trial_run by done. split; [done|].
    rewrite at_zero_active in Hinv by done. by eapply facts_exact.
Qed.

Lemma trials_compute_exact_distances_witness :
  (graph_in_bounds g_small ∧ positive_weights g_small ∧ no_overflow g_small 4 ∧
   (0 ≤ 4 ≤ U64_MAX)%Z) ∧
  ((∀ src, functional src → sources_in_range g_small src →
      ∃ fuel r, cpp_trial fuel g_small src 4 = Done r ∧
        exact_below g_small (active 4 src) 4 (dist r)) ∧
   (∀ sources, (0 < 4)%Z → Forall (λ s, s < Graph.n g_small) sources →
      ∃ fuel r, c_trial fuel g_small sources 4 = Done r ∧
        exact_below g_small (at_zero sources) 4 (dist r))).
Proof.
  assert (H : graph_in_bounds g_small ∧ positive_weights g_small ∧
              no_overflow g_small 4 ∧ (0 ≤ 4 ≤ U64_MAX)%Z).
  { split_and!; [apply g_small_in_bounds|apply g_small_positive|
                 apply g_small_fits|done|done]. }
  split; [exact H|].
  destruct H as (H1 & H2 & H3 & H4).
  exact (trials_compute_exact_distances g_small 4 H1 H2 H3 H4).
Defined.

(** X5 (the trial loop of [main], both programs): what the boundary value
    is.  Under the conditions of X4 the final [b_prime] is the least
    [sd(u) + w] over the edges [u -> to] of weight [w] that leave a node
    [u] of shortest distance [sd(u) < B] and lead to or beyond the bound
    ([B <= sd(u) + w]); it is the sentinel when there is no such edge.  It
    does not depend on the order in which the queue breaks ties. *)
Theorem boundary_is_least_frontier (g : Graph.t) (B : Z) :
  graph_in_bounds g → positive_weights g → no_overflow g B →
  (0 ≤ B ≤ U64_MAX)%Z →
  (∀ src, functional src → sources_in_range g src →
     ∃ fuel r, cpp_trial fuel g src B = Done r ∧
       least_frontier g (active B src) B (b_prime r)) ∧
  (∀ sources, (0 < B)%Z → Forall (λ s, s < Graph.n g) sources →
     ∃ fuel r, c_trial fuel g sources B = Done r ∧
       least_frontier g (at_zero sources) B (b_prime r)).
Proof.
  intros Hg Hpos Hfit HB. split.
  - intros src Hfun Hsrc.
    destruct (run_facts (L := cpp_priority_queue_laws) (2 ^ 64) g B Hg HB Hpos Hfit
                ltac:(lia) src Hfun Hsrc)
      as (fuel & r & Hr & Hsafe & Hbound & Hinv & Hempty & Hj & _).
    exists fuel, r. split; [done|]. by eapply facts_frontier.
  - intros sources HB0 Hsrc.
    destruct (run_facts (L := c_heap_laws) (2 ^ 32) g B Hg HB Hpos Hfit
                ltac:(lia) (at_zero sources) (at_zero_functional _)
                (at_zero_in_range g sources Hsrc))
      as (fuel & r & Hr & Hsafe & Hbound & Hinv & Hempty & Hj & _).
    exists fuel, r. rewrite c_trial_run by done. split; [done|].
    rewrite at_zero_active in Hinv by done. by eapply facts_frontier.
Qed.

Lemma boundary_is_least_frontier_witness :
  (graph_in_bounds g_small ∧ positive_weights g_small ∧ no_overflow g_small 4 ∧
   (0 ≤ 4 ≤ U64_MAX)%Z) ∧
  ((∀ src, functional src → sources_in_range g_small src →
      ∃ fuel r, cpp_trial fuel g_small src 4 = Done r ∧
        least_frontier g_small (active 4 src) 4 (b_prime r)) ∧
   (∀ sources, (0 < 4)%Z → Forall (λ s, s < Graph.n g_small) sources →
      ∃ fuel r, c_trial fuel g_small sources 4 = Done r ∧
        least_frontier g_small (at_zero sources) 4 (b_prime r))).
Proof.
  assert (H : graph_in_bounds g_small ∧ positive_weights g_small ∧
              no_overflow g_small 4 ∧ (0 ≤ 4 ≤ U64_MAX)%Z).
  { split_and!; [apply g_small_in_bounds|apply g_small_positive|
                 apply g_small_fits|done|done]. }
  split; [exact H|].
  destruct H as (H1 & H2 & H3 & H4).
  exact (boundary_is_least_frontier g_small 4 H1 H2 H3 H4).
Defined.

(** X6 (the counters of the trial loop, both programs): with sources of
    distinct nodes, every node whose final distance is below the bound is
    settled exactly once.  [popped] ends as the number of those nodes and
    [edges_scanned] as the sum of their [head[v+1] - head[v]], each reduced
    to the width of the counter (64 bits in C++, 32 bits in C). *)
Theorem counters_count_settled_nodes (g : Graph.t) (B : Z) :
  graph_in_bounds g → positive_weights g → no_overflow g B →
  (0 ≤ B ≤ U64_MAX)%Z →
  (∀ src, NoDup src.*1 → sources_in_range g src →
     ∃ fuel r, cpp_trial fuel g src B = Done r ∧
       settled_nodes (trace r) ≡ₚ below_nodes g B (dist r) ∧
       popped r = (Z.of_nat (length (below_nodes g B (dist r))) mod 2 ^ 64)%Z ∧
       edges_scanned r =
         (Z.of_nat (sum_list (out_degree g <$> below_nodes g B (dist r))) mod 2 ^ 64)%Z) ∧
  (∀ sources, (0 < B)%Z → NoDup sources → Forall (λ s, s < Graph.n g) sources →
     ∃ fuel r, c_trial fuel g sources B = Done r ∧
       settled_nodes (trace r) ≡ₚ below_nodes g B (dist r) ∧
       popped r = (Z.of_nat (length (below_nodes g B (dist r))) mod 2 ^ 32)%Z ∧
       edges_scanned r =
         (Z.of_nat (sum_list (out_degree g <$> below_nodes g B (dist r))) mod 2 ^ 32)%Z).
Proof.
  intros Hg Hpos Hfit HB. split.
  - intros src Hnd Hsrc.
    destruct (run_facts (L := cpp_priority_queue_laws) (2 ^ 64) g B Hg HB Hpos Hfit
                ltac:(lia) src (NoDup_functional src Hnd) Hsrc)
      as (fuel & r & Hr & Hsafe & Hbound & Hinv & Hempty & Hj & Ho).
    exists fuel, r. split; [done|]. specialize (Ho Hnd). split.
    + by eapply (settled_below (L := cpp_priority_queue_laws)).
    + by eapply (facts_counters (L := cpp_priority_queue_laws)).
  - intros sources HB0 Hnd Hsrc.
    destruct (run_facts (L := c_heap_laws) (2 ^ 32) g B Hg HB Hpos Hfit
                ltac:(lia) (at_zero sources) (at_zero_functional _)
                (at_zero_in_range g sources Hsrc))
      as (fuel & r & Hr & Hsafe & Hbound & Hinv & Hempty & Hj & Ho).
    exists fuel, r. rewrite c_trial_run by done. split; [done|].
    rewrite at_zero_fst in Ho. specialize (Ho Hnd). split.
    + by eapply (settled_below (L := c_heap_laws)).
    + by eapply (facts_counters (L := c_heap_laws)).
Qed.

Lemma counters_count_settled_nodes_witness :
  (graph_in_bounds g_small ∧ positive_weights g_small ∧ no_overflow g_small 4 ∧
   (0 ≤ 4 ≤ U64_MAX)%Z) ∧
  (NoDup [(0, 0%Z)].*1 ∧ sources_in_range g_small [(0, 0%Z)]) ∧
  ((0 < 4)%Z ∧ NoDup [0] ∧ Forall (λ s, s < Graph.n g_small) [0]) ∧
  (∃ fuel r, cpp_trial fuel g_small [(0, 0%Z)] 4 = Done r ∧
     settled_nodes (trace r) ≡ₚ below_nodes g_small 4 (dist r) ∧
     popped r = (Z.of_nat (length (below_nodes g_small 4 (dist r))) mod 2 ^ 64)%Z ∧
     edges_scanned r =
       (Z.of_nat (sum_list (out_degree g_small <$> below_nodes g_small 4 (dist r)))
        mod 2 ^ 64)%Z) ∧
  (∃ fuel r, c_trial fuel g_small [0] 4 = Done r ∧
     settled_nodes (trace r) ≡ₚ below_nodes g_small 4 (dist r) ∧
     popped r = (Z.of_nat (length (below_nodes g_small 4 (dist r))) mod 2 ^ 32)%Z ∧
     edges_scanned r =
       (Z.of_nat (sum_list (out_degree g_small <$> below_nodes g_small 4 (dist r)))
        mod 2 ^ 32)%Z).
Proof.
  assert (H : graph_in_bounds g_small ∧ positive_weights g_small ∧
              no_overflow g_small 4 ∧ (0 ≤ 4 ≤ U64_MAX)%Z).
  { split_and!; [apply g_small_in_bounds|apply g_small_positive|
                 apply g_small_fits|done|done]. }
  assert (Hcpp : NoDup [(0, 0%Z)].*1 ∧ sources_in_range g_small [(0, 0%Z)]).
  { split; [apply NoDup_singleton|]. repeat constructor; simpl; lia. }
  assert (Hc : (0 < 4)%Z ∧ NoDup [0] ∧ Forall (λ s, s < Graph.n g_small) [0]).
  { split_and!; [done|apply NoDup_singleton|]. repeat constructor; simpl; lia. }
  split; [exact H|]. split; [exact Hcpp|]. split; [exact Hc|].
  destruct H as (H1 & H2 & H3 & H4), Hcpp as [H5 H6], Hc as (H7 & H8 & H9).
  split.
  - exact (proj1 (counters_count_settled_nodes g_small 4 H1 H2 H3 H4) _ H5 H6).
  - exact (proj2 (counters_count_settled_nodes g_small 4 H1 H2 H3 H4) _ H7 H8 H9).
Defined.

(** X7 (the trial loops of the two programs): the C and the C++ program
    compute the same thing.  On a positive-weight graph in CSR form whose
    candidates cannot wrap, with a positive bound and distinct sources in
    range (taken at distance 0 by the C++ program), both programs terminate
    with the same distance array and the same boundary value, and the C
    counters [popped] and [edges_scanned] are the C++ counters reduced to
    32 bits, although the two queues break ties differently. *)
Theorem c_and_cpp_agree (g : Graph.t) (B : Z) (sources : list nat) :
  graph_in_bounds g → positive_weights g → no_overflow g B →
  (0 < B ≤ U64_MAX)%Z →
  NoDup sources → Forall (λ s, s < Graph.n g) sources →
  ∃ fc fcpp rc rcpp,
    c_trial fc g sources B = Done rc ∧
    cpp_trial fcpp g (at_zero sources) B = Done rcpp ∧
    dist rc = dist rcpp ∧ b_prime rc = b_prime rcpp ∧
    popped rc = (popped rcpp mod 2 ^ 32)%Z ∧
    edges_scanned rc = (edges_scanned rcpp mod 2 ^ 32)%Z.
Proof.
  intros Hg Hpos Hfit HB Hnd Hsrc.
  assert (HB' : (0 ≤ B ≤ U64_MAX)%Z) by lia.
  assert (Hnd' : NoDup (at_zero sources).*1) by (by rewrite at_zero_fst).
  destruct (run_facts (L := c_heap_laws) (2 ^ 32) g B Hg HB' Hpos Hfit
              ltac:(lia) (at_zero sources) (at_zero_functional _)
              (at_zero_in_range g sources Hsrc))
    as (fc & rc & Hrc & Hsafe1 & Hbound1 & Hinv1 & Hempty1 & Hj1 & Ho1).
  destruct (run_facts (L := cpp_priority_queue_laws) (2 ^ 64) g B Hg HB' Hpos Hfit
              ltac:(lia) (at_zero sources) (at_zero_functional _)
              (at_zero_in_range g sources Hsrc))
    as (fcpp & rcpp & Hrcpp & Hsafe2 & Hbound2 & Hinv2 & Hempty2 & Hj2 & Ho2).
  exists fc, fcpp, rc, rcpp. rewrite c_trial_run by lia.
  split; [done|]. split; [done|].
  specialize (Ho1 Hnd'). specialize (Ho2 Hnd').
  assert (Hd : dist rc = dist rcpp).
  { eapply (exact_unique g B (active B (at_zero sources))).
    - by eapply (facts_exact (L := c_heap_laws)).
    - by eapply (facts_exact (L := cpp_priority_queue_laws)). }
  split; [done|]. split.
  { eapply (least_frontier_unique g B (active B (at_zero sources))).
    - by eapply (facts_frontier (L := c_heap_laws)).
    - by eapply (facts_frontier (L := cpp_priority_queue_laws)). }
  destruct (facts_counters (L := c_heap_laws) (2 ^ 32) g B ltac:(lia) rc
              Hsafe1 Hempty1 Hj1 Ho1) as [Hp1 He1].
  destruct (facts_counters (L := cpp_priority_queue_laws) (2 ^ 64) g B ltac:(lia) rcpp
              Hsafe2 Hempty2 Hj2 Ho2) as [Hp2 He2].
  rewrite Hp1, He1, Hp2, He2, Hd.
  assert (Hdiv : ∀ a, (a mod 2 ^ 32 = (a mod 2 ^ 64) mod 2 ^ 32)%Z).
  { intros a. symmetry. apply Z.mod_mod_divide. by exists (2 ^ 32)%Z. }
  split; apply Hdiv.
Qed.

Lemma c_and_cpp_agree_witness :
  (graph_in_bounds g_small ∧ positive_weights g_small ∧ no_overflow g_small 4 ∧
   (0 < 4 ≤ U64_MAX)%Z ∧ NoDup [0; 2] ∧ Forall (λ s, s < Graph.n g_small) [0; 2]) ∧
  ∃ fc fcpp rc rcpp,
    c_trial fc g_small [0; 2] 4 = Done rc ∧
    cpp_trial fcpp g_small (at_zero [0; 2]) 4 = Done rcpp ∧
    dist rc = dist rcpp ∧ b_prime rc = b_prime rcpp ∧
    popped rc = (popped rcpp mod 2 ^ 32)%Z ∧
    edges_scanned rc = (edges_scanned rcpp mod 2 ^ 32)%Z.
Proof.
  assert (H : graph_in_bounds g_small ∧ positive_weights g_small ∧
              no_overflow g_small 4 ∧ (0 < 4 ≤ U64_MAX)%Z ∧ NoDup [0; 2] ∧
              Forall (λ s, s < Graph.n g_small) [0; 2]).
  { split_and!; [apply g_small_in_bounds|apply g_small_positive|
                 apply g_small_fits|done|done| |].
    - apply NoDup_cons. split; [|apply NoDup_singleton].
      by intros [=]%list_elem_of_singleton.
    - repeat constructor; simpl; lia. }
  split; [exact H|].
  destruct H as (H1 & H2 & H3 & H4 & H5 & H6).
  exact (c_and_cpp_agree g_small 4 [0; 2] H1 H2 H3 H4 H5 H6).
Defined.

(** * Further properties of the loaders *)

Lemma csr_offsets_bounded (g : Graph.t) :
  csr_offsets g → Forall (λ h, h ≤ length (Graph.edges g)) (Graph.head g).
Proof.
  intros (Hlen & _ & Hmono & Hlast & _).
  assert (Hup : ∀ k i a, i + k = Graph.n g → Graph.head g !! i = Some a →
                  a ≤ length (Graph.edges g)).
  { induction k as [|k IH]; intros i a Hi Ha.
    - replace i with (Graph.n g) in Ha by lia. rewrite Hlast in Ha.
      injection Ha as <-. lia.
    - destruct (lookup_lt_is_Some_2 (Graph.head g) (S i)) as [b Hb]; [lia|].
      specialize (Hmono _ _ _ Ha Hb). specialize (IH (S i) b ltac:(lia) Hb). lia. }
  apply Forall_lookup. intros i a Ha.
  apply (Hup (Graph.n g - i) i); [|done]. apply lookup_lt_Some in Ha. lia.
Qed.

Lemma cpp_read_edge_lines_all elist rest :
  cpp_read_edge_lines (length elist) (Some (edge_lines elist ++ rest)) =
  Done (cpp_edge <$> elist).
Proof.
  induction elist as [|[[u v] w] elist IH]; [done|].
  cbn [length edge_lines cpp_read_edge_lines extract stored mbind outcome_bind app].
  by rewrite IH.
Qed.

(** X8 ([main] and [from_edge_list], C++): the C++ loader builds the CSR
    form of the file.  For a file [n m] followed by [m] edge lines (and
    whatever comes after them), with [n + 1] and [m] below [2^32], the
    graph has [n] nodes, offsets that start at 0, never decrease and end at
    the number of edges kept, and the block of every node [u] holds exactly
    the file's edges out of [u] with both ends below [n], in file order; no
    edge points outside the graph, so the engine stays inside its arrays. *)
Theorem cpp_loader_builds_csr (n : nat) (elist : list (Z * Z * Z)) (rest : list token) :
  (Z.of_nat n + 1 < 2 ^ 32)%Z → (Z.of_nat (length elist) < 2 ^ 32)%Z →
  ∃ g, cpp_read_graph (graph_tokens (Z.of_nat n) elist ++ rest) = Done g ∧
    Graph.n g = n ∧ csr_offsets g ∧
    (∀ u, u < n → csr_block g u = out_edges n (cpp_edge <$> elist) u) ∧
    graph_in_bounds g.
Proof.
  intros Hn Hm. exists (from_edge_list n (cpp_edge <$> elist)).
  destruct (from_edge_list_csr n (cpp_edge <$> elist) Hn) as (Hgn & Hoff & Hblk & Hto).
  { by rewrite length_fmap. }
  split_and!; [|done..|].
  - unfold cpp_read_graph, graph_tokens.
    cbn [extract stored mbind outcome_bind app].
    rewrite wrap64_small by lia. rewrite Nat2Z.id, cpp_read_edge_lines_all.
    cbn [mbind outcome_bind]. by rewrite Z.mod_small, Nat2Z.id by lia.
  - split_and!; [apply Hoff|by apply csr_offsets_bounded|].
    apply Forall_forall. intros e He. destruct (Hto e He) as (_ & _ & _ & Hlt).
    by rewrite Hgn.
Qed.

Lemma cpp_loader_builds_csr_witness :
  ((Z.of_nat 2 + 1 < 2 ^ 32)%Z ∧
   (Z.of_nat (length [(1, 0, 1); (0, 1, 1)]%Z) < 2 ^ 32)%Z) ∧
  ∃ g, cpp_read_graph (graph_tokens (Z.of_nat 2) [(1, 0, 1); (0, 1, 1)]%Z ++ []) = Done g ∧
    Graph.n g = 2 ∧ csr_offsets g ∧
    (∀ u, u < 2 → csr_block g u = out_edges 2 (cpp_edge <$> [(1, 0, 1); (0, 1, 1)]%Z) u) ∧
    graph_in_bounds g.
Proof.
  assert (H1 : (Z.of_nat 2 + 1 < 2 ^ 32)%Z) by done.
  assert (H2 : (Z.of_nat (length [(1, 0, 1); (0, 1, 1)]%Z) < 2 ^ 32)%Z) by done.
  split; [by split|].
  exact (cpp_loader_builds_csr 2 [(1, 0, 1); (0, 1, 1)]%Z [] H1 H2).
Defined.

Lemma wrap32_le (k : nat) : wrap32 k ≤ k.
Proof.
  unfold wrap32. pose proof (Z.mod_le (Z.of_nat k) (2 ^ 32) ltac:(lia) ltac:(lia)). lia.
Qed.

Lemma read_edge_lines_all n elist rest :
  ∀ edges head,
    length head = S n → Forall (λ h, h ≤ length edges) head →
    ∃ head',
      read_edge_lines (length elist) n (edge_lines elist ++ rest) edges head =
        inr (edges ++ (c_edge <$> elist), head') ∧
      length head' = S n ∧
      Forall (λ h, h ≤ length edges + length elist) head'.
Proof.
  induction elist as [|[[u v] w] elist IH]; intros edges head Hlen Hb.
  - exists head. rewrite app_nil_r. split_and!; [done..|].
    eapply Forall_impl; [done|]. simpl. lia.
  - cbn [length edge_lines read_edge_lines scan app].
    destruct (IH (edges ++ [Edge.mk (Z.to_nat (v mod 2 ^ 32)) (wrap64 w)])
                (if decide (Z.to_nat (wrap64 (u + 1)) ≤ n ∧
                            head !!! Z.to_nat (wrap64 (u + 1)) <
                            length (edges ++ [Edge.mk (Z.to_nat (v mod 2 ^ 32)) (wrap64 w)]))
                 then <[Z.to_nat (wrap64 (u + 1)) :=
                          wrap32 (length (edges ++ [Edge.mk (Z.to_nat (v mod 2 ^ 32))
                                                      (wrap64 w)]))]> head
                 else head))
      as (head' & Hr & Hl' & Hb').
    + case_decide; [by rewrite length_insert|done].
    + rewrite length_app. simpl.
      assert (Hb1 : Forall (λ h, h ≤ length edges + 1) head).
      { eapply Forall_impl; [done|]. simpl. lia. }
      case_decide; [|done]. apply Forall_insert; [done|].
      apply wrap32_le.
    + exists head'. rewrite Hr. split_and!; [|done|].
      * by rewrite <- app_assoc.
      * rewrite length_app in Hb'. simpl in Hb'. eapply Forall_impl; [done|].
        simpl. lia.
Qed.

Lemma lookup_total_ge_nat (l : list nat) (i : nat) : length l ≤ i → l !!! i = 0.
Proof. intros H. by rewrite list_lookup_total_alt, lookup_ge_None_2. Qed.

Lemma fix_head_spec cnt :
  ∀ i head,
    1 ≤ i → (∀ j, S j < i → S j < length head → head !!! j ≤ head !!! S j) →
    length (fix_head cnt i head) = length head ∧
    (∀ j, S j < i + cnt → S j < length head →
       fix_head cnt i head !!! j ≤ fix_head cnt i head !!! S j) ∧
    (∀ bound, Forall (λ h, h ≤ bound) head →
       Forall (λ h, h ≤ bound) (fix_head cnt i head)).
Proof.
  induction cnt as [|cnt IH]; intros i head Hi Hmono.
  { simpl. split_and!; [done| |done]. intros j Hj Hjl. apply Hmono; [lia|done]. }
  destruct i as [|p]; [lia|].
  cbn [fix_head]. replace (S p - 1) with p by lia.
  set (head' := if decide (head !!! S p < head !!! p)
                then <[S p := head !!! p]> head else head).
  assert (Hlen : length head' = length head).
  { unfold head'. case_decide; [by rewrite length_insert|done]. }
  assert (Hstep : ∀ j, S j < S (S p) → S j < length head' → head' !!! j ≤ head' !!! S j).
  { intros j Hj Hjl. rewrite Hlen in Hjl. unfold head'. case_decide as Hc.
    - destruct (decide (j = p)) as [->|Hne].
      + rewrite list_lookup_total_insert_ne by lia.
        by rewrite list_lookup_total_insert_eq by done.
      + rewrite !list_lookup_total_insert_ne by lia. apply Hmono; [lia|done].
    - destruct (decide (j = p)) as [->|Hne]; [lia|]. apply Hmono; [lia|done]. }
  destruct (IH (S (S p)) head' ltac:(lia) Hstep) as (Hl & Hm & Hb).
  split_and!.
  - by rewrite Hl.
  - intros j Hj Hjl. apply Hm; [lia|by rewrite Hlen].
  - intros bound Hbound. apply Hb. unfold head'. case_decide; [|done].
    apply Forall_insert; [done|].
    destruct (decide (p < length head)) as [Hin|Hge].
    + apply (Forall_lookup_1 _ _ _ _ Hbound (list_lookup_lookup_total_lt _ _ Hin)).
    + rewrite lookup_total_ge_nat by lia. lia.
Qed.

(** X9 ([read_graph_file], C): what the C loader returns for a file [n m]
    followed by [m] edge lines, [n + 1] below [2^32] and [m] below [2^64].  It keeps every edge
    of the file, in file order, as [(to, w)]; [head] has [n + 1] entries,
    never decreases and never exceeds the number of edges.  When every
    target is a node, the graph is one the engine stays inside its arrays
    on. *)
Theorem c_loader_shape (n : nat) (elist : list (Z * Z * Z)) (rest : list token) :
  (Z.of_nat n + 1 < 2 ^ 32)%Z → (Z.of_nat (length elist) < 2 ^ 64)%Z →
  ∃ g, read_graph_file (Some (graph_tokens (Z.of_nat n) elist ++ rest)) = inr g ∧
    Graph.n g = n ∧ Graph.m g = length elist ∧
    Graph.edges g = c_edge <$> elist ∧
    length (Graph.head g) = S n ∧ monotone (Graph.head g) ∧
    Forall (λ h, h ≤ length (Graph.edges g)) (Graph.head g) ∧
    (Forall (λ t, 0 ≤ t.1.2 < Z.of_nat n)%Z elist → graph_in_bounds g).
Proof.
  intros Hn Hm. unfold read_graph_file, graph_tokens. cbn [scan app].
  rewrite !wrap64_small by lia. rewrite !Nat2Z.id.
  destruct (read_edge_lines_all n elist rest [] (replicate (n + 1) 0))
    as (head & -> & Hlen & Hb).
  { rewrite length_replicate. lia. }
  { apply Forall_replicate. lia. }
  destruct (fix_head_spec n 1 head) as (Hfl & Hfm & Hfb); [lia|intros j Hj; lia|].
  simpl in Hb. specialize (Hfb _ Hb).
  eexists. split; [done|]. simpl. rewrite length_fmap.
  split_and!; try done.
  - apply wrap32_small. lia.
  - lia.
  - intros i a b Ha Hb'. pose proof (lookup_lt_Some _ _ _ Hb') as Hlt.
    rewrite Hfl in Hlt.
    specialize (Hfm i ltac:(lia) Hlt).
    by rewrite (list_lookup_total_correct _ _ _ Ha),
      (list_lookup_total_correct _ _ _ Hb') in Hfm.
  - intros Hto. split_and!; simpl.
    + rewrite wrap32_small by lia. lia.
    + by rewrite length_fmap.
    + rewrite wrap32_small by lia. apply Forall_fmap.
      eapply Forall_impl; [done|]. simpl. intros [[u v] w] Hv. simpl in *.
      rewrite Z.mod_small by lia. lia.
Qed.

Lemma c_loader_shape_witness :
  ((Z.of_nat 2 + 1 < 2 ^ 32)%Z ∧
   (Z.of_nat (length [(1, 0, 1); (0, 1, 1)]%Z) < 2 ^ 64)%Z ∧
   Forall (λ t : Z * Z * Z, 0 ≤ t.1.2 < Z.of_nat 2)%Z [(1, 0, 1); (0, 1, 1)]%Z) ∧
  ∃ g, read_graph_file (Some (graph_tokens (Z.of_nat 2) [(1, 0, 1); (0, 1, 1)]%Z ++ [])) = inr g ∧
    Graph.edges g = c_edge <$> [(1, 0, 1); (0, 1, 1)]%Z ∧
    monotone (Graph.head g) ∧ graph_in_bounds g.
Proof.
  assert (H1 : (Z.of_nat 2 + 1 < 2 ^ 32)%Z) by done.
  assert (H2 : Forall (λ t : Z * Z * Z, 0 ≤ t.1.2 < Z.of_nat 2)%Z
                 [(1, 0, 1); (0, 1, 1)]%Z) by (repeat constructor; simpl; lia).
  assert (H3 : (Z.of_nat (length [(1, 0, 1); (0, 1, 1)]%Z) < 2 ^ 64)%Z) by done.
  split; [by split_and!|].
  destruct (c_loader_shape 2 [(1, 0, 1); (0, 1, 1)]%Z [] H1 H3)
    as (g & Hg & _ & _ & He & _ & Hm & _ & Hb).
  exists g. split_and!; [done..|]. by apply Hb.
Defined.

(** ** The C loader on a file sorted by source *)

(** [head] as the reading loop of [read_graph_file] leaves it: the entry
    after a node with edges holds the position after its last edge. *)
Definition raw_head (n : nat) (el : list (nat * nat * Z)) : list nat :=
  (λ j, match j with
        | 0 => 0
        | S u => if decide (u ∈ el.*1.*1) then sources_below el j else 0
        end) <$> seq 0 (S n).

Lemma raw_head_lookup n el j :
  j ≤ n →
  raw_head n el !! j =
  Some (match j with
        | 0 => 0
        | S u => if decide (u ∈ el.*1.*1) then sources_below el j else 0
        end).
Proof.
  intros Hj. unfold raw_head. rewrite list_lookup_fmap, lookup_seq_lt by lia. done.
Qed.

Lemma raw_head_length n el : length (raw_head n el) = S n.
Proof. unfold raw_head. by rewrite length_fmap, length_seq. Qed.

Lemma sources_below_le el j : sources_below el j ≤ length el.
Proof. apply length_filter. Qed.

Lemma sources_below_snoc el t j :
  sources_below (el ++ [t]) j = sources_below el j + (if decide (t.1.1 < j) then 1 else 0).
Proof.
  unfold sources_below. rewrite filter_app, length_app, filter_cons, filter_nil.
  by case_decide.
Qed.

Lemma sources_below_all el j :
  Forall (λ t, t.1.1 < j) el → sources_below el j = length el.
Proof.
  intros H. unfold sources_below. f_equal.
  induction H as [|t el Ht _ IH]; [done|].
  rewrite filter_cons, decide_True by done. by rewrite IH.
Qed.

Lemma sorted_snoc_le el t :
  sorted_by_source (el ++ [t]) → Forall (λ t', t'.1.1 ≤ t.1.1) el.
Proof.
  intros Hs. apply Forall_lookup. intros i t' Hi.
  apply (Hs i (length el) t' t).
  - apply lookup_lt_Some in Hi. lia.
  - by rewrite lookup_app_l by (by eapply lookup_lt_Some).
  - by rewrite list_lookup_middle.
Qed.

Lemma sorted_prefix el1 el2 : sorted_by_source (el1 ++ el2) → sorted_by_source el1.
Proof.
  intros Hs i j ti tj Hij Hi Hj. apply (Hs i j); [done|..];
    by rewrite lookup_app_l by (by eapply lookup_lt_Some).
Qed.

Lemma raw_head_snoc n el t :
  sorted_by_source (el ++ [t]) → t.1.1 < n → (Z.of_nat (length el) + 1 < 2 ^ 32)%Z →
  <[S t.1.1 := wrap32 (length el + 1)]> (raw_head n el) = raw_head n (el ++ [t]).
Proof.
  intros Hs Hu Hm. pose proof (sorted_snoc_le _ _ Hs) as Hle.
  rewrite wrap32_small by lia.
  apply list_eq_same_length with (S n);
    [by rewrite raw_head_length|by rewrite length_insert, raw_head_length|].
  intros j x y Hj Hx Hy.
  rewrite raw_head_lookup in Hy by lia. injection Hy as <-.
  destruct (decide (j = S t.1.1)) as [->|Hne].
  - rewrite list_lookup_insert_eq in Hx by (rewrite raw_head_length; lia).
    injection Hx as <-.
    rewrite decide_True.
    + rewrite sources_below_snoc, decide_True by lia.
      rewrite sources_below_all; [done|].
      eapply Forall_impl; [done|]. simpl. lia.
    + rewrite !fmap_app. apply elem_of_app. right. simpl. by left.
  - rewrite list_lookup_insert_ne in Hx by done.
    rewrite raw_head_lookup in Hx by lia. injection Hx as <-.
    destruct j as [|u]; [done|].
    assert (Hiff : u ∈ (el ++ [t]).*1.*1 ↔ u ∈ el.*1.*1).
    { rewrite !fmap_app, elem_of_app. simpl. rewrite list_elem_of_singleton.
      split; [intros [?| ->]; [done|lia]|by left]. }
    destruct (decide (u ∈ el.*1.*1)) as [Hin|Hnin].
    + rewrite decide_True by (by apply Hiff).
      rewrite sources_below_snoc, decide_False; [lia|].
      apply list_elem_of_fmap in Hin as (p & -> & Hin).
      apply list_elem_of_fmap in Hin as (t' & -> & Hin).
      pose proof (proj1 (Forall_forall _ _) Hle _ Hin). simpl in *. lia.
    + by rewrite decide_False by (by rewrite Hiff).
Qed.

Lemma raw_head_le n el j : raw_head n el !!! j ≤ length el.
Proof.
  destruct (decide (j ≤ n)) as [Hj|Hj].
  - rewrite (list_lookup_total_correct _ _ _ (raw_head_lookup n el j Hj)).
    destruct j as [|u]; [lia|]. case_decide; [apply sources_below_le|lia].
  - rewrite lookup_total_ge_nat by (rewrite raw_head_length; lia). lia.
Qed.

Lemma read_edge_lines_sorted n rest :
  (Z.of_nat n + 1 < 2 ^ 32)%Z →
  ∀ todo done,
    lines_in_range n (done ++ todo) →
    sorted_by_source (cpp_edge <$> done ++ todo) →
    (Z.of_nat (length (done ++ todo)) < 2 ^ 32)%Z →
    read_edge_lines (length todo) n (edge_lines todo ++ rest)
      (c_edge <$> done) (raw_head n (cpp_edge <$> done)) =
    inr (c_edge <$> done ++ todo, raw_head n (cpp_edge <$> done ++ todo)).
Proof.
  intros Hn. induction todo as [|[[u v] w] todo IH]; intros done Hr Hs Hm.
  { by rewrite app_nil_r. }
  assert (Hin : (0 ≤ u < Z.of_nat n)%Z).
  { apply Forall_app in Hr as [_ Hr]. apply Forall_cons in Hr as [[? _] _]. done. }
  cbn [length edge_lines read_edge_lines scan app].
  replace (done ++ (u, v, w) :: todo) with ((done ++ [(u, v, w)]) ++ todo) in *
    by (by rewrite <- app_assoc).
  rewrite length_app in Hm. rewrite length_app in Hm. simpl in Hm.
  assert (Hi : Z.to_nat (wrap64 (u + 1)) = S (cpp_edge (u, v, w)).1.1).
  { simpl. rewrite wrap64_small by lia. rewrite Z.mod_small by lia. lia. }
  rewrite Hi.
  assert (Hu : (cpp_edge (u, v, w)).1.1 < n).
  { simpl. rewrite Z.mod_small by lia. lia. }
  assert (Hlen : length ((c_edge <$> done) ++
                         [Edge.mk (Z.to_nat (v mod 2 ^ 32)) (wrap64 w)]) =
                 length (cpp_edge <$> done) + 1).
  { by rewrite length_app, !length_fmap. }
  rewrite Hlen. rewrite decide_True.
  - rewrite raw_head_snoc.
    + rewrite <- fmap_snoc.
      change ((c_edge <$> done) ++ [Edge.mk (Z.to_nat (v mod 2 ^ 32)) (wrap64 w)])
        with ((c_edge <$> done) ++ [c_edge (u, v, w)]).
      rewrite <- fmap_snoc. apply IH; [done..|].
      rewrite !length_app. simpl. lia.
    + rewrite <- fmap_snoc. rewrite fmap_app in Hs. by apply sorted_prefix in Hs.
    + done.
    + rewrite length_fmap. lia.
  - split; [lia|].
    pose proof (raw_head_le n (cpp_edge <$> done) (S (cpp_edge (u, v, w)).1.1)). lia.
Qed.

Lemma sources_below_succ (el : list (nat * nat * Z)) (u : nat) :
  sources_below el (S u) = sources_below el u + length (filter (λ t, t.1.1 = u) el).
Proof.
  unfold sources_below. induction el as [|t el IH]; [done|].
  rewrite !filter_cons. repeat case_decide; simpl; lia.
Qed.

Lemma filter_source_nil (el : list (nat * nat * Z)) (u : nat) : u ∉ el.*1.*1 → filter (λ t, t.1.1 = u) el = [].
Proof.
  intros Hnin. induction el as [|t el IH]; [done|].
  rewrite filter_cons. rewrite !fmap_cons in Hnin. apply not_elem_of_cons in Hnin as [Hne Hnin].
  rewrite decide_False by done. by apply IH.
Qed.

(** [head] after the pass that makes it non-decreasing has reached [i]. *)
Definition fixed_upto (n : nat) (el : list (nat * nat * Z)) (i : nat) : list nat :=
  (λ j, if decide (j < i) then sources_below el j
        else match j with
             | 0 => 0
             | S u => if decide (u ∈ el.*1.*1) then sources_below el j else 0
             end) <$> seq 0 (S n).

Lemma fixed_upto_lookup n el i j :
  j ≤ n →
  fixed_upto n el i !! j =
  Some (if decide (j < i) then sources_below el j
        else match j with
             | 0 => 0
             | S u => if decide (u ∈ el.*1.*1) then sources_below el j else 0
             end).
Proof.
  intros Hj. unfold fixed_upto. by rewrite list_lookup_fmap, lookup_seq_lt by lia.
Qed.

Lemma fixed_upto_length n el i : length (fixed_upto n el i) = S n.
Proof. unfold fixed_upto. by rewrite length_fmap, length_seq. Qed.

Lemma fix_head_raw n el :
  ∀ cnt i, 1 ≤ i → i + cnt = S n →
    fix_head cnt i (fixed_upto n el i) = fixed_upto n el (S n).
Proof.
  induction cnt as [|cnt IH]; intros i Hi Hn.
  { simpl. by replace i with (S n) by lia. }
  destruct i as [|u]; [lia|].
  cbn [fix_head]. replace (S u - 1) with u by lia.
  rewrite (list_lookup_total_correct (fixed_upto n el (S u)) _ _
             (fixed_upto_lookup n el (S u) (S u) ltac:(lia))).
  rewrite (list_lookup_total_correct (fixed_upto n el (S u)) _ _
             (fixed_upto_lookup n el (S u) u ltac:(lia))).
  rewrite (decide_False (P := S u < S u)) by lia.
  rewrite !(decide_True (P := u < S u)) by lia.
  rewrite <- (IH (S (S u))) by lia. f_equal.
  pose proof (sources_below_succ el u) as Hsucc.
  apply list_eq_same_length with (S n).
  { by rewrite fixed_upto_length. }
  { case_decide; [by rewrite length_insert, fixed_upto_length|by rewrite fixed_upto_length]. }
  intros j x y Hj Hx Hy.
  rewrite fixed_upto_lookup in Hy by lia. injection Hy as <-.
  assert (Hother : j ≠ S u → fixed_upto n el (S u) !! j = Some x →
            x = if decide (j < S (S u)) then sources_below el j
                else match j with
                     | 0 => 0
                     | S u0 => if decide (u0 ∈ el.*1.*1) then sources_below el j else 0
                     end).
  { intros Hne Hx'. rewrite fixed_upto_lookup in Hx' by lia. injection Hx' as <-.
    destruct (decide (j < S u)); [by rewrite decide_True by lia|].
    by rewrite decide_False by lia. }
  destruct (decide (u ∈ el.*1.*1)) as [Hin|Hnin].
  - rewrite decide_False in Hx by lia.
    destruct (decide (j = S u)) as [->|Hne]; [|by apply Hother].
    rewrite fixed_upto_lookup in Hx by lia. injection Hx as <-.
    rewrite (decide_False (P := S u < S u)) by lia.
    by rewrite (decide_True (P := S u < S (S u))), !decide_True by (done || lia).
  - rewrite (filter_source_nil el u Hnin) in Hsucc. simpl in Hsucc.
    destruct (decide (0 < sources_below el u)) as [Hpos|Hzero].
    + destruct (decide (j = S u)) as [->|Hne].
      * rewrite list_lookup_insert_eq in Hx by (rewrite fixed_upto_length; lia).
        injection Hx as <-. rewrite (decide_True (P := S u < S (S u))) by lia. lia.
      * rewrite list_lookup_insert_ne in Hx by done. by apply Hother.
    + destruct (decide (j = S u)) as [->|Hne]; [|by apply Hother].
      rewrite fixed_upto_lookup in Hx by lia. injection Hx as <-.
      rewrite (decide_False (P := S u < S u)) by lia.
      rewrite (decide_True (P := S u < S (S u))) by lia.
      rewrite decide_False by done. lia.
Qed.

Lemma sources_below_0 el : sources_below el 0 = 0.
Proof.
  unfold sources_below. induction el as [|t el IH]; [done|].
  rewrite filter_cons. by rewrite decide_False by lia.
Qed.

Lemma fix_head_sorted n el :
  fix_head n 1 (raw_head n el) = sources_below el <$> seq 0 (S n).
Proof.
  assert (H1 : raw_head n el = fixed_upto n el 1).
  { apply list_eq_same_length with (S n);
      [by rewrite fixed_upto_length|by rewrite raw_head_length|].
    intros j x y Hj Hx Hy. rewrite raw_head_lookup in Hx by lia.
    rewrite fixed_upto_lookup in Hy by lia. injection Hx as <-. injection Hy as <-.
    destruct j as [|u].
    - rewrite (decide_True (P := 0 < 1)) by lia. by rewrite sources_below_0.
    - by rewrite (decide_False (P := S u < 1)) by lia. }
  rewrite H1, fix_head_raw by lia.
  apply list_eq_same_length with (S n);
    [by rewrite length_fmap, length_seq|by rewrite fixed_upto_length|].
  intros j x y Hj Hx Hy. rewrite fixed_upto_lookup in Hx by lia.
  rewrite list_lookup_fmap, lookup_seq_lt in Hy by lia.
  injection Hx as <-. injection Hy as <-. by rewrite decide_True by lia.
Qed.

Lemma raw_head_nil n : raw_head n [] = replicate (n + 1) 0.
Proof.
  apply list_eq_same_length with (S n);
    [rewrite length_replicate; lia|by rewrite raw_head_length|].
  intros j x y Hj Hx Hy. rewrite raw_head_lookup in Hx by lia.
  apply lookup_replicate in Hy as [-> _]. injection Hx as <-.
  by destruct j.
Qed.

Lemma from_edge_list_explicit n el :
  (Z.of_nat n + 1 < 2 ^ 32)%Z → (Z.of_nat (length el) < 2 ^ 32)%Z →
  ∃ adj, length adj = n ∧ (∀ u, u < n → adj !!! u = out_edges n el u) ∧
    from_edge_list n el =
      Graph.mk ((λ j, length (concat (take j adj))) <$> seq 0 (S n)) (concat adj) n
        (length (concat adj)).
Proof.
  intros Hn Hm. unfold from_edge_list.
  set (adj := foldl (group_step n) (replicate n []) el).
  destruct (group_all n el (replicate n [])) as [Hlen Hadj];
    [by rewrite length_replicate|]. fold adj in Hlen, Hadj.
  pose proof (group_count n el (replicate n []) ltac:(by rewrite length_replicate))
    as Hcount. fold adj in Hcount.
  assert (Hzero : concat (replicate n ([] : list Edge.t)) = []).
  { clear. induction n as [|n IH]; [done|]. simpl. by rewrite IH. }
  rewrite Hzero in Hcount. simpl in Hcount.
  rewrite (wrap32_small (n + 1)) by lia.
  pose proof (csr_loop_upto adj ltac:(lia) n 0 [] (replicate (n + 1) 0)
                ltac:(lia)) as Hup.
  destruct (csr_loop n 0 adj [] (replicate (n + 1) 0)) as [edges head] eqn:Hloop.
  rewrite Hlen in Hup. simpl in Hup.
  destruct Hup as (Hedges & Hhl & Hhead).
  { split_and!; [done|rewrite length_replicate; lia|].
    intros j Hj. replace j with 0 by lia. by apply lookup_replicate_2; lia. }
  rewrite firstn_all2 in Hedges by lia.
  exists adj. split_and!; [done| |].
  - intros u Hu. rewrite Hadj by done. by rewrite lookup_total_replicate_2.
  - subst edges. f_equal.
    apply list_eq_same_length with (S n);
      [by rewrite length_fmap, length_seq|lia|].
    intros j x y Hj Hx Hy. rewrite Hhead in Hx by lia.
    rewrite list_lookup_fmap, lookup_seq_lt in Hy by lia.
    injection Hx as <-. by injection Hy as <-.
Qed.

Lemma sorted_cons_inv t el :
  sorted_by_source (t :: el) →
  Forall (λ t', t.1.1 ≤ t'.1.1) el ∧ sorted_by_source el.
Proof.
  intros Hs. split.
  - apply Forall_lookup. intros i t' Hi. by apply (Hs 0 (S i) t t'); [lia|..].
  - intros i j ti tj Hij Hi Hj. by apply (Hs (S i) (S j) ti tj); [lia|..].
Qed.

Lemma filter_none {A} (P : A → Prop) `{∀ x, Decision (P x)} (l : list A) :
  Forall (λ x, ¬ P x) l → filter P l = [].
Proof.
  induction 1 as [|x l Hx _ IH]; [done|]. by rewrite filter_cons, decide_False.
Qed.

Lemma filter_all {A} (P : A → Prop) `{∀ x, Decision (P x)} (l : list A) :
  Forall P l → filter P l = l.
Proof.
  induction 1 as [|x l Hx _ IH]; [done|]. by rewrite filter_cons, decide_True, IH.
Qed.

Lemma filter_lt_succ_sorted (el : list (nat * nat * Z)) (j : nat) :
  sorted_by_source el →
  filter (λ t, t.1.1 < S j) el =
  filter (λ t, t.1.1 < j) el ++ filter (λ t, t.1.1 = j) el.
Proof.
  induction el as [|t el IH]; [done|].
  intros [Hle Hs]%sorted_cons_inv. specialize (IH Hs).
  rewrite !filter_cons.
  destruct (decide (t.1.1 < j)) as [Hlt|Hge].
  - rewrite decide_True, decide_False by lia. by rewrite IH.
  - destruct (decide (t.1.1 = j)) as [Heq|Hne].
    + rewrite decide_True by lia. rewrite IH.
      rewrite (filter_none (λ t0 : nat * nat * Z, t0.1.1 < j) el); [done|].
      eapply Forall_impl; [done|]. simpl. lia.
    + rewrite decide_False by lia. done.
Qed.

Lemma out_edges_filter n (el : list (nat * nat * Z)) u :
  Forall (λ t, t.1.1 < n ∧ t.1.2 < n) el →
  out_edges n el u = (λ t, Edge.mk t.1.2 t.2) <$> filter (λ t, t.1.1 = u) el.
Proof.
  induction 1 as [|t el [Hu Hv] _ IH]; [done|].
  unfold out_edges in *. cbn [omap list_omap]. rewrite filter_cons.
  destruct (decide (t.1.1 = u)) as [Heq|Hne].
  - rewrite decide_True by done. by rewrite fmap_cons, IH.
  - rewrite decide_False by tauto. done.
Qed.

Lemma concat_take_sorted n (el : list (nat * nat * Z)) adj :
  Forall (λ t, t.1.1 < n ∧ t.1.2 < n) el → sorted_by_source el →
  length adj = n → (∀ u, u < n → adj !!! u = out_edges n el u) →
  ∀ j, j ≤ n →
    concat (take j adj) = (λ t, Edge.mk t.1.2 t.2) <$> filter (λ t, t.1.1 < j) el.
Proof.
  intros Hr Hs Hlen Hadj. induction j as [|j IH]; intros Hj.
  - rewrite (filter_none (λ t : nat * nat * Z, t.1.1 < 0)); [done|].
    apply Forall_forall. intros. lia.
  - assert (Hsome : adj !! j = Some (adj !!! j)).
    { apply list_lookup_lookup_total_lt. lia. }
    rewrite (take_S_r _ _ _ Hsome), concat_app, IH by lia. simpl.
    rewrite app_nil_r, Hadj by lia.
    rewrite (out_edges_filter n el j Hr), filter_lt_succ_sorted by done.
    by rewrite fmap_app.
Qed.

(** X10 ([read_graph_file] against [from_edge_list]): on a graph file
    whose edge lines are sorted by source and name nodes only, the C loader
    builds the same graph as the C++ loader: the same [head], the same
    [edges], the same [n] and [m]. *)
Theorem loaders_agree_on_sorted_file (n : nat) (elist : list (Z * Z * Z))
    (rest : list token) :
  (Z.of_nat n + 1 < 2 ^ 32)%Z → (Z.of_nat (length elist) < 2 ^ 32)%Z →
  lines_in_range n elist → sorted_by_source (cpp_edge <$> elist) →
  ∃ g, read_graph_file (Some (graph_tokens (Z.of_nat n) elist ++ rest)) = inr g ∧
       cpp_read_graph (graph_tokens (Z.of_nat n) elist ++ rest) = Done g.
Proof.
  intros Hn Hm Hr Hs.
  assert (Hr' : Forall (λ t : nat * nat * Z, t.1.1 < n ∧ t.1.2 < n) (cpp_edge <$> elist)).
  { apply Forall_fmap. eapply Forall_impl; [exact Hr|]. intros [[u v] w] [Hu Hv].
    simpl in *. rewrite !Z.mod_small by lia. lia. }
  destruct (from_edge_list_explicit n (cpp_edge <$> elist) Hn) as (adj & Hlen & Hadj & Hg).
  { by rewrite length_fmap. }
  pose proof (concat_take_sorted n _ adj Hr' Hs Hlen Hadj) as Hcat.
  assert (Hall : ∀ j, j ≤ n → length (concat (take j adj)) =
                    sources_below (cpp_edge <$> elist) j).
  { intros j Hj. rewrite Hcat by done. by rewrite length_fmap. }
  assert (Hedges : concat adj = c_edge <$> elist).
  { rewrite <- (firstn_all adj), Hlen, Hcat by lia.
    rewrite filter_all.
    - rewrite <- list_fmap_compose. apply list_fmap_ext. by intros _ [[u v] w] _.
    - eapply Forall_impl; [exact Hr'|]. simpl. tauto. }
  exists (from_edge_list n (cpp_edge <$> elist)). split.
  - unfold read_graph_file, graph_tokens. cbn [scan app].
    rewrite !wrap64_small by lia. rewrite !Nat2Z.id.
    pose proof (read_edge_lines_sorted n rest Hn elist [] Hr Hs Hm) as Hread.
    simpl in Hread. rewrite raw_head_nil in Hread. rewrite Hread.
    rewrite fix_head_sorted, wrap32_small by lia.
    rewrite Hg, Hedges. f_equal. f_equal.
    apply list_fmap_ext. intros i j Hij. apply lookup_seq in Hij as [-> Hlt].
    symmetry. apply Hall. lia.
  - unfold cpp_read_graph, graph_tokens.
    cbn [extract stored mbind outcome_bind app].
    rewrite wrap64_small by lia. rewrite Nat2Z.id, cpp_read_edge_lines_all.
    cbn [mbind outcome_bind]. by rewrite Z.mod_small, Nat2Z.id by lia.
Qed.

Lemma loaders_agree_on_sorted_file_witness :
  ((Z.of_nat 2 + 1 < 2 ^ 32)%Z ∧
   (Z.of_nat (length [(0, 1, 1); (1, 0, 1)]%Z) < 2 ^ 32)%Z ∧
   lines_in_range 2 [(0, 1, 1); (1, 0, 1)]%Z ∧
   sorted_by_source (cpp_edge <$> [(0, 1, 1); (1, 0, 1)]%Z)) ∧
  ∃ g, read_graph_file (Some (graph_tokens (Z.of_nat 2) [(0, 1, 1); (1, 0, 1)]%Z ++ [])) = inr g ∧
       cpp_read_graph (graph_tokens (Z.of_nat 2) [(0, 1, 1); (1, 0, 1)]%Z ++ []) = Done g.
Proof.
  assert (H1 : (Z.of_nat 2 + 1 < 2 ^ 32)%Z) by done.
  assert (H2 : (Z.of_nat (length [(0, 1, 1); (1, 0, 1)]%Z) < 2 ^ 32)%Z) by done.
  assert (H3 : lines_in_range 2 [(0, 1, 1); (1, 0, 1)]%Z).
  { repeat constructor; simpl; lia. }
  assert (H4 : sorted_by_source (cpp_edge <$> [(0, 1, 1); (1, 0, 1)]%Z)).
  { intros [|[|i]] [|[|j]] ti tj Hij Hi Hj; simpl in Hi, Hj; try done;
      try lia; injection Hi as <-; injection Hj as <-; simpl; lia. }
  split; [by split_and!|].
  exact (loaders_agree_on_sorted_file 2 [(0, 1, 1); (1, 0, 1)]%Z [] H1 H2 H3 H4).
Defined.

(** ** What the C readers report *)

Lemma read_edge_lines_inr m n :
  ∀ toks edges head r,
    read_edge_lines m n toks edges head = inr r →
    ∃ elist rest, toks = edge_lines elist ++ rest ∧ length elist = m.
Proof.
  induction m as [|m IH]; intros toks edges head r; simpl.
  { intros _. by exists [], toks. }
  destruct toks as [|[u|] toks]; [done| |done]. simpl.
  destruct toks as [|[v|] toks]; [done| |done]. simpl.
  destruct toks as [|[w|] toks]; [done| |done]. simpl.
  intros (elist & rest & -> & <-)%IH.
  by exists ((u, v, w) :: elist), rest.
Qed.

Lemma read_edge_lines_codes m n :
  ∀ toks edges head c, read_edge_lines m n toks edges head = inl c → c = (-3)%Z.
Proof.
  induction m as [|m IH]; intros toks edges head c; simpl; [done|].
  destruct toks as [|[u|] toks]; simpl; [by intros [= <-]| |by intros [= <-]].
  destruct toks as [|[v|] toks]; simpl; [by intros [= <-]| |by intros [= <-]].
  destruct toks as [|[w|] toks]; simpl; [by intros [= <-]| |by intros [= <-]].
  apply IH.
Qed.



(** * Further properties of source selection *)

Lemma first_occurrences_snoc l s :
  first_occurrences (l ++ [s]) =
  if decide (s ∈ first_occurrences l) then first_occurrences l
  else first_occurrences l ++ [s].
Proof. unfold first_occurrences. by rewrite foldl_app. Qed.

Lemma residues_S draws n i :
  residues draws n (S i) = residues draws n i ++ [Z.to_nat (draws i mod Z.of_nat n)].
Proof. unfold residues. by rewrite seq_S, fmap_app. Qed.

Lemma first_occurrences_extend draws n i :
  ∀ d, ∃ ext,
    first_occurrences (residues draws n (i + d)) =
    first_occurrences (residues draws n i) ++ ext.
Proof.
  induction d as [|d [ext IH]].
  - exists []. by rewrite Nat.add_0_r, app_nil_r.
  - replace (i + S d) with (S (i + d)) by lia.
    rewrite residues_S, first_occurrences_snoc, IH. case_decide.
    + by exists ext.
    + eexists. by rewrite <- app_assoc.
Qed.

Lemma pick_loop_first draws n k N :
  n ≠ 0 → k ≤ length (first_occurrences (residues draws n N)) →
  ∀ fuel i used out,
    pick_ok n used out → out = first_occurrences (residues draws n i) →
    length out ≤ k → i ≤ N → N - i < fuel →
    pick_loop fuel draws i n k used out =
    Done (take k (first_occurrences (residues draws n N))).
Proof.
  intros Hn HN. induction fuel as [|fuel IH]; intros i used out Hok Hout Hlen Hi Hf; [lia|].
  destruct (first_occurrences_extend draws n i (N - i)) as [ext Hext].
  replace (i + (N - i)) with N in Hext by lia. rewrite <- Hout in Hext.
  cbn [pick_loop]. case_decide as Hk.
  - assert (HiN : i < N).
    { destruct (decide (i = N)) as [->|]; [|lia]. rewrite <- Hout in HN. lia. }
    rewrite decide_False by done.
    pose proof (draw_in_range (draws i) n Hn) as Hs.
    destruct (lookup_lt_is_Some_2 used (Z.to_nat (draws i mod Z.of_nat n)))
      as [u Hu]; [destruct Hok as [-> _]; lia|].
    rewrite (proj2 (at_index_Done _ _ _) Hu). cbn [mbind outcome_bind].
    pose proof Hok as (_ & _ & Hmem).
    destruct u.
    + apply IH; [done| |done|lia|lia].
      rewrite residues_S, first_occurrences_snoc, <- Hout.
      by rewrite decide_True by (by apply Hmem).
    + apply IH; [by apply pick_ok_step| |rewrite length_app; simpl; lia|lia|lia].
      rewrite residues_S, first_occurrences_snoc, <- Hout.
      rewrite decide_False; [done|]. intros Hin%Hmem. congruence.
  - rewrite Hext. f_equal. rewrite take_app_le by lia. rewrite take_ge by lia. done.
Qed.

(** X12 ([pick_sources], both programs): the sources drawn are the first
    [k] distinct values of [rand() % n], in the order in which they first
    come up; a value drawn again is skipped.  The loop ends at the draw
    that brings up the [k]-th distinct value: when the first [N] draws
    hold [k] distinct values, [N + 1] turns of the loop are enough. *)
Theorem pick_sources_first_distinct (draws : nat → Z) (n k N fuel : nat) :
  n ≠ 0 → k ≤ length (first_occurrences (residues draws n N)) → N < fuel →
  pick_sources fuel draws n k = Done (take k (first_occurrences (residues draws n N))) ∧
  cpp_pick_sources fuel draws n k =
    Done (at_zero (take k (first_occurrences (residues draws n N)))).
Proof.
  intros Hn HN Hf.
  assert (H : pick_sources fuel draws n k =
              Done (take k (first_occurrences (residues draws n N)))).
  { unfold pick_sources.
    apply (pick_loop_first draws n k N Hn HN fuel 0); [apply pick_ok_start|done| |lia|lia].
    simpl. lia. }
  split; [done|]. unfold cpp_pick_sources. by rewrite H.
Qed.

Lemma pick_sources_first_distinct_witness :
  (1 ≠ 0 ∧ 1 ≤ length (first_occurrences (residues (λ _, 0%Z) 1 1)) ∧ 1 < 2) ∧
  pick_sources 2 (λ _, 0%Z) 1 1 =
    Done (take 1 (first_occurrences (residues (λ _, 0%Z) 1 1))) ∧
  cpp_pick_sources 2 (λ _, 0%Z) 1 1 =
    Done (at_zero (take 1 (first_occurrences (residues (λ _, 0%Z) 1 1)))).
Proof.
  assert (H1 : 1 ≠ 0) by lia.
  assert (H2 : 1 ≤ length (first_occurrences (residues (λ _, 0%Z) 1 1))) by (simpl; lia).
  assert (H3 : 1 < 2) by lia.
  split; [by split_and!|].
  exact (pick_sources_first_distinct (λ _, 0%Z) 1 1 1 2 H1 H2 H3).
Defined.

Lemma read_source_lines_rest pairs rest :
  read_source_lines (length pairs) (source_lines pairs ++ rest) =
  inr ((λ p, Z.to_nat (p.1 mod 2 ^ 32)) <$> pairs).
Proof.
  induction pairs as [|[s d0] pairs IH]; [done|].
  cbn [length source_lines read_source_lines scan app]. by rewrite IH.
Qed.

Lemma read_source_lines_inr k :
  ∀ toks out,
    read_source_lines k toks = inr out →
    ∃ pairs rest, toks = source_lines pairs ++ rest ∧ length pairs = k.
Proof.
  induction k as [|k IH]; intros toks out; simpl.
  { intros _. by exists [], toks. }
  destruct toks as [|[s|] toks]; [done| |done]. simpl.
  destruct toks as [|[d0|] toks]; [done| |done]. simpl.
  destruct (read_source_lines k toks) as [c|out'] eqn:Hread; [done|].
  intros _. apply IH in Hread as (pairs & rest & -> & <-).
  by exists ((s, d0) :: pairs), rest.
Qed.

Lemma read_source_lines_codes k :
  ∀ toks c, read_source_lines k toks = inl c → c = (-3)%Z.
Proof.
  induction k as [|k IH]; intros toks c; simpl; [done|].
  destruct toks as [|[s|] toks]; simpl; [by intros [= <-]| |by intros [= <-]].
  destruct toks as [|[d0|] toks]; simpl; [by intros [= <-]| |by intros [= <-]].
  destruct (read_source_lines k toks) as [c'|out'] eqn:Hread; [|done].
  intros [= <-]. by eapply IH.
Qed.

(** X13 ([read_sources_file], C): the C reader returns 0 exactly for a
    file that opens, starts with a number [k] and goes on with [k] lines
    of two numbers; it then returns the [k] node ids, each reduced to 32
    bits, in file order, whatever the second number of a line is and
    whatever follows the last line.  It returns -1 for a file that does
    not open, -2 when the count is not a number and -3 when a line is
    missing or is not two numbers. *)
Theorem c_sources_reports (file : option (list token)) :
  (∀ out, read_sources_file file = inr out ↔
     ∃ k pairs rest,
       file = Some (Num k :: source_lines pairs ++ rest) ∧
       length pairs = Z.to_nat (k mod 2 ^ 32) ∧
       out = (λ p, Z.to_nat (p.1 mod 2 ^ 32)) <$> pairs) ∧
  (∀ c, read_sources_file file = inl c →
     (c = (-1)%Z ∧ file = None) ∨
     (c = (-2)%Z ∧ ∀ k body, file ≠ Some (Num k :: body)) ∨
     (c = (-3)%Z ∧ ∃ k body, file = Some (Num k :: body))).
Proof.
  split.
  - intros out. split.
    + intros Hout. destruct file as [toks|]; [|done]. simpl in Hout.
      destruct toks as [|[k|] toks]; [done| |done]. simpl in Hout.
      pose proof Hout as (pairs & rest & -> & Hlen)%read_source_lines_inr.
      exists k, pairs, rest. split_and!; [done..|].
      rewrite <- Hlen, read_source_lines_rest in Hout. by injection Hout as <-.
    + intros (k & pairs & rest & -> & Hlen & ->). simpl.
      by rewrite <- Hlen, read_source_lines_rest.
  - intros c Hc. destruct file as [toks|]; [|left; by injection Hc as <-].
    right. simpl in Hc.
    destruct toks as [|[k|] toks]; simpl in Hc;
      [left; injection Hc as <-; by split| |left; injection Hc as <-; by split].
    right. apply read_source_lines_codes in Hc as ->.
    split; [done|]. by exists k, toks.
Qed.

Lemma c_sources_reports_witness :
  read_sources_file (Some [Num 1; Num 0; Num 5]) = inr [0] ∧
  (∃ k pairs rest,
     Some [Num 1; Num 0; Num 5] = Some (Num k :: source_lines pairs ++ rest) ∧
     length pairs = Z.to_nat (k mod 2 ^ 32) ∧
     [0] = (λ p : Z * Z, Z.to_nat (p.1 mod 2 ^ 32)) <$> pairs) ∧
  read_sources_file (Some [Num 2; Num 0; Num 5]) = inl (-3)%Z ∧
  ((-3)%Z = (-1)%Z ∧ Some [Num 2; Num 0; Num 5] = None ∨
   ((-3)%Z = (-2)%Z ∧ ∀ k body, Some [Num 2; Num 0; Num 5] ≠ Some (Num k :: body)) ∨
   ((-3)%Z = (-3)%Z ∧ ∃ k body, Some [Num 2; Num 0; Num 5] = Some (Num k :: body))).
Proof.
  assert (H1 : read_sources_file (Some [Num 1; Num 0; Num 5]) = inr [0]) by done.
  assert (H2 : read_sources_file (Some [Num 2; Num 0; Num 5]) = inl (-3)%Z) by done.
  split; [exact H1|]. split; [|split; [exact H2|]].
  - exact (proj1 (proj1 (c_sources_reports (Some [Num 1; Num 0; Num 5])) [0]) H1).
  - exact (proj2 (c_sources_reports (Some [Num 2; Num 0; Num 5])) _ H2).
Defined.

(** * Further properties of the generators *)

Lemma cell_index_inj cols r c r' c' :
  c < cols → c' < cols → r * cols + c = r' * cols + c' → r = r' ∧ c = c'.
Proof.
  intros Hc Hc' Heq.
  assert (r = r') as ->; [|lia].
  destruct (Nat.lt_trichotomy r r') as [Hlt|[->|Hgt]]; [|done|]; exfalso; nia.
Qed.

Lemma rnd_w_range (draw : Z) (maxw : nat) :
  0 < maxw → (Z.of_nat maxw < 2 ^ 32)%Z →
  ∃ w, rnd_w draw maxw = Done w ∧ (1 ≤ w ≤ Z.of_nat maxw)%Z.
Proof.
  intros Hm Hm'. unfold rnd_w. rewrite decide_False by lia.
  pose proof (Z.mod_pos_bound draw (Z.of_nat maxw) ltac:(lia)).
  eexists. split; [done|]. rewrite wrap64_small; lia.
Qed.

Section Grid.
Variables rows cols maxw : nat.
Variable draws : nat → Z.
Hypothesis maxw_pos : 0 < maxw.
Hypothesis maxw_fits : (Z.of_nat maxw < 2 ^ 32)%Z.
Hypothesis size_fits : (4 * Z.of_nat (rows * cols) + 1 < 2 ^ 32)%Z.

Definition edge_ok (e : Edge.t) : Prop :=
  Edge.to e < rows * cols ∧ (1 ≤ Edge.w e ≤ Z.of_nat maxw)%Z.

(** After the cells before the [u]-th, whose blocks are [pre]. *)
Definition grid_inv (u : nat) (pre : list (list Edge.t)) (st : grid_state) : Prop :=
  length pre = u ∧ grid_edges st = concat pre ∧
  length (grid_head st) = S (rows * cols) ∧
  (∀ j, j ≤ u → grid_head st !! j = Some (length (concat (take j pre)))) ∧
  Forall edge_ok (grid_edges st) ∧ length (grid_edges st) ≤ 4 * u ∧
  ∀ r c blk, c < cols → pre !! (r * cols + c) = Some blk →
    Edge.to <$> blk = grid_neighbours rows cols r c.

Lemma grid_push_opt (P : Prop) `{Decision P} (to : nat) (st : grid_state) :
  (P → to < rows * cols) →
  ∃ l d,
    (if decide P then grid_push maxw draws to st else Done st) =
      Done (mkGrid (grid_edges st ++ l) (grid_head st) d) ∧
    Edge.to <$> l = (if decide P then [to] else []) ∧
    Forall edge_ok l ∧ length l ≤ 1.
Proof.
  intros Hto. destruct (decide P) as [HP|HP].
  - unfold grid_push.
    destruct (rnd_w_range (draws (grid_draw st)) maxw maxw_pos maxw_fits) as (w & -> & Hw).
    exists [Edge.mk to w], (S (grid_draw st)). split_and!; [done..| |simpl; lia].
    repeat constructor; simpl; [by apply Hto|lia..].
  - exists [], (grid_draw st). rewrite app_nil_r. split_and!; [by destruct st|done..|simpl; lia].
Qed.

Lemma IDX_small r c : r < rows → c < cols → IDX cols r c = r * cols + c.
Proof. intros Hr Hc. unfold IDX. apply wrap32_small. nia. Qed.

Lemma cell_in_grid r c : r < rows → c < cols → r * cols + c < rows * cols.
Proof. intros Hr Hc. nia. Qed.

Lemma grid_cell_spec r c pre st :
  r < rows → c < cols → grid_inv (r * cols + c) pre st →
  ∃ blk st',
    grid_cell rows cols maxw draws r c st = Done st' ∧
    grid_inv (S (r * cols + c)) (pre ++ [blk]) st'.
Proof.
  intros Hr Hc (Hlen & Hedges & Hhl & Hhead & Hok & Hcnt & Hblk).
  pose proof (cell_in_grid r c Hr Hc) as Hu.
  unfold grid_cell. rewrite (IDX_small r c Hr Hc).
  destruct (grid_push_opt (r + 1 < rows) (IDX cols (r + 1) c) st)
    as (l1 & d1 & -> & Ht1 & Hk1 & Hn1).
  { intros H. rewrite IDX_small by lia. apply cell_in_grid; lia. }
  cbn [mbind outcome_bind].
  destruct (grid_push_opt (c + 1 < cols) (IDX cols r (c + 1))
              (mkGrid (grid_edges st ++ l1) (grid_head st) d1))
    as (l2 & d2 & -> & Ht2 & Hk2 & Hn2).
  { intros H. rewrite IDX_small by lia. apply cell_in_grid; lia. }
  cbn [mbind outcome_bind grid_edges grid_head].
  destruct (grid_push_opt (0 < r) (IDX cols (r - 1) c)
              (mkGrid ((grid_edges st ++ l1) ++ l2) (grid_head st) d2))
    as (l3 & d3 & -> & Ht3 & Hk3 & Hn3).
  { intros H. rewrite IDX_small by lia. apply cell_in_grid; lia. }
  cbn [mbind outcome_bind grid_edges grid_head].
  destruct (grid_push_opt (0 < c) (IDX cols r (c - 1))
              (mkGrid (((grid_edges st ++ l1) ++ l2) ++ l3) (grid_head st) d3))
    as (l4 & d4 & -> & Ht4 & Hk4 & Hn4).
  { intros H. rewrite IDX_small by lia. apply cell_in_grid; lia. }
  cbn [mbind outcome_bind grid_edges grid_head].
  rewrite (wrap32_small (r * cols + c + 1)) by lia.
  rewrite decide_True by lia.
  set (blk := l1 ++ l2 ++ l3 ++ l4).
  assert (Hall : (((grid_edges st ++ l1) ++ l2) ++ l3) ++ l4 = concat (pre ++ [blk])).
  { rewrite concat_app, Hedges. simpl. unfold blk. by rewrite app_nil_r, <- !app_assoc. }
  rewrite Hall.
  assert (Hblen : length blk ≤ 4).
  { unfold blk. rewrite !length_app. lia. }
  assert (Hclen : length (concat (pre ++ [blk])) ≤ 4 * S (r * cols + c)).
  { rewrite concat_app, length_app. simpl. rewrite app_nil_r, <- Hedges. lia. }
  rewrite wrap32_small by lia.
  exists blk. eexists. split; [done|].
  split_and!; cbn [grid_edges grid_head].
  - rewrite length_app. simpl. lia.
  - done.
  - by rewrite length_insert.
  - intros j Hj. destruct (decide (j = r * cols + c + 1)) as [->|Hne].
    + rewrite list_lookup_insert_eq by lia. f_equal. f_equal.
      rewrite take_ge; [done|]. rewrite length_app. simpl. lia.
    + rewrite list_lookup_insert_ne by lia. rewrite Hhead by lia.
      by rewrite take_app_le by lia.
  - rewrite concat_app, <- Hedges. simpl. rewrite app_nil_r. unfold blk.
    rewrite !Forall_app. tauto.
  - done.
  - intros r' c' b Hc' Hb.
    apply lookup_app_Some in Hb as [Hb|[Hge Hb]]; [by eapply Hblk|].
    apply list_lookup_singleton_Some in Hb as [Heq <-].
    destruct (cell_index_inj cols r' c' r c Hc' Hc) as [-> ->]; [lia|].
    unfold blk, grid_neighbours. rewrite !fmap_app, Ht1, Ht2, Ht3, Ht4.
    repeat case_decide; rewrite ?IDX_small by lia; done.
Qed.

Lemma grid_row_spec r :
  r < rows →
  ∀ cnt c pre st,
    c + cnt = cols → grid_inv (r * cols + c) pre st →
    ∃ pre' st',
      grid_row rows cols maxw draws r cnt c st = Done st' ∧
      grid_inv (S r * cols) pre' st'.
Proof.
  intros Hr. induction cnt as [|cnt IH]; intros c pre st Hc Hinv.
  - exists pre, st. split; [done|]. by replace (S r * cols) with (r * cols + c) by lia.
  - cbn [grid_row].
    destruct (grid_cell_spec r c pre st Hr ltac:(lia) Hinv) as (blk & st1 & -> & Hinv1).
    cbn [mbind outcome_bind]. apply (IH (S c) (pre ++ [blk])); [lia|].
    by replace (r * cols + S c) with (S (r * cols + c)) by lia.
Qed.

Lemma grid_rows_spec :
  ∀ cnt r pre st,
    r + cnt = rows → grid_inv (r * cols) pre st →
    ∃ pre' st',
      grid_rows rows cols maxw draws cnt r st = Done st' ∧
      grid_inv (rows * cols) pre' st'.
Proof.
  induction cnt as [|cnt IH]; intros r pre st Hr Hinv.
  - exists pre, st. split; [done|]. by replace rows with r by lia.
  - cbn [grid_rows].
    destruct (grid_row_spec r ltac:(lia) cols 0 pre st) as (pre1 & st1 & -> & Hinv1);
      [lia|by rewrite Nat.add_0_r|].
    cbn [mbind outcome_bind]. apply (IH (S r) pre1); [lia|done].
Qed.

Lemma make_grid_spec :
  ∃ g, make_grid rows cols maxw draws = Done g ∧
    Graph.n g = rows * cols ∧ csr_offsets g ∧ graph_in_bounds g ∧
    Forall (λ e, 1 ≤ Edge.w e ≤ Z.of_nat maxw)%Z (Graph.edges g) ∧
    ∀ r c, r < rows → c < cols →
      Edge.to <$> csr_block g (r * cols + c) = grid_neighbours rows cols r c.
Proof.
  unfold make_grid. rewrite (wrap32_small (rows * cols)) by lia.
  rewrite (wrap32_small (rows * cols + 1)) by lia.
  destruct (grid_rows_spec rows 0 [] (mkGrid [] (replicate (rows * cols + 1) 0) 0))
    as (pre & st & -> & Hlen & Hedges & Hhl & Hhead & Hok & Hcnt & Hblk); [lia| |].
  { split_and!; simpl.
    - done.
    - done.
    - rewrite length_replicate. lia.
    - intros j Hj. replace j with 0 by lia. apply lookup_replicate_2. lia.
    - constructor.
    - lia.
    - intros r c blk _ Hb. by rewrite lookup_nil in Hb. }
  cbn [mbind outcome_bind]. eexists. split; [done|].
  assert (Hoff : csr_offsets
            (Graph.mk (grid_head st) (grid_edges st) (rows * cols) (length (grid_edges st)))).
  { split_and!; simpl.
    - done.
    - by rewrite (Hhead 0) by lia.
    - intros i a b Ha Hb.
      assert (S i ≤ rows * cols) by (apply lookup_lt_Some in Hb; lia).
      rewrite Hhead in Ha by lia. rewrite Hhead in Hb by lia.
      injection Ha as <-. injection Hb as <-. apply take_concat_mono.
    - rewrite Hhead by lia. rewrite take_ge by lia. by rewrite Hedges.
    - done. }
  split_and!; [done|done| | |].
  - split_and!; simpl; [done|by apply (csr_offsets_bounded _ Hoff)|].
    eapply Forall_impl; [exact Hok|]. by intros e [? _].
  - simpl. eapply Forall_impl; [exact Hok|]. by intros e [_ ?].
  - intros r c Hr Hc. pose proof (cell_in_grid r c Hr Hc) as Hu.
    unfold csr_block. simpl.
    rewrite (list_lookup_total_correct (grid_head st) _ _ (Hhead (r * cols + c) ltac:(lia))).
    replace (r * cols + c + 1) with (S (r * cols + c)) by lia.
    rewrite (list_lookup_total_correct (grid_head st) _ _ (Hhead (S (r * cols + c)) ltac:(lia))).
    rewrite Hedges, concat_block by lia.
    apply (Hblk r c); [done|]. apply list_lookup_lookup_total_lt. lia.
Qed.
End Grid.



(** * The generators that go through an adjacency list *)

(** ** The two ways to lay the rows out

    C++ collects the row of each node in [adj] and lets [from_adj] lay the
    rows out; C appends to the edge array and sets [head[u+1]] after each
    row.  [rows_open] relates the two states while the row of [u] grows,
    [rows_closed] between two rows. *)
Definition rows_open (n u : nat) (pre : list (list Edge.t)) (row : list Edge.t)
    (adj : list (list Edge.t)) (edges : list Edge.t) (head : list nat) : Prop :=
  length pre = u ∧ u < n ∧
  adj = pre ++ row :: replicate (n - S u) [] ∧
  edges = concat pre ++ row ∧
  length head = S n ∧
  ∀ j, j ≤ u → head !! j = Some (length (concat (take j pre))).

Definition rows_closed (n : nat) (pre : list (list Edge.t))
    (adj : list (list Edge.t)) (edges : list Edge.t) (head : list nat) : Prop :=
  length pre ≤ n ∧
  adj = pre ++ replicate (n - length pre) [] ∧
  edges = concat pre ∧
  length head = S n ∧
  ∀ j, j ≤ length pre → head !! j = Some (length (concat (take j pre))).

Lemma rows_start (n : nat) :
  rows_closed n [] (replicate n []) [] (replicate (n + 1) 0).
Proof.
  split_and!; simpl; [lia|by rewrite Nat.sub_0_r|done|rewrite length_replicate; lia|].
  intros j Hj. replace j with 0 by lia. apply lookup_replicate_2. lia.
Qed.

Lemma rows_begin n pre adj edges head :
  rows_closed n pre adj edges head → length pre < n →
  rows_open n (length pre) pre [] adj edges head.
Proof.
  intros (Hle & Hadj & Hedges & Hlen & Hhead) Hlt.
  split_and!; try done.
  - rewrite Hadj. f_equal.
    replace (n - length pre) with (S (n - S (length pre))) by lia. done.
  - by rewrite app_nil_r.
Qed.

Lemma rows_row n u pre row adj edges head :
  rows_open n u pre row adj edges head → adj !!! u = row.
Proof.
  intros (Hpre & Hu & -> & _). subst u.
  by rewrite lookup_total_app_r, Nat.sub_diag by lia.
Qed.

Lemma rows_push n u pre row adj edges head e :
  rows_open n u pre row adj edges head →
  rows_open n u pre (row ++ [e]) (<[u := adj !!! u ++ [e]]> adj) (edges ++ [e]) head.
Proof.
  intros Hopen. rewrite (rows_row _ _ _ _ _ _ _ Hopen).
  destruct Hopen as (Hpre & Hu & -> & -> & Hlen & Hhead).
  split_and!; try done.
  - subst u. rewrite insert_app_r_alt, Nat.sub_diag by lia. done.
  - by rewrite app_assoc.
Qed.

Lemma rows_end n u pre row adj edges head :
  (Z.of_nat n + 1 < 2 ^ 32)%Z → (Z.of_nat (length edges) < 2 ^ 32)%Z →
  rows_open n u pre row adj edges head →
  ∃ head', set_head u edges head = Done head' ∧
    rows_closed n (pre ++ [row]) adj edges head'.
Proof.
  intros Hn Hm (Hpre & Hu & -> & -> & Hlen & Hhead).
  unfold set_head. rewrite (wrap32_small (u + 1)) by lia.
  rewrite decide_True by lia. eexists. split; [done|].
  rewrite (wrap32_small (length _)) by done.
  split_and!.
  - rewrite length_app. simpl. lia.
  - rewrite length_app. simpl. rewrite <- app_assoc. simpl.
    by replace (n - (length pre + 1)) with (n - S u) by lia.
  - rewrite concat_app. simpl. by rewrite app_nil_r.
  - by rewrite length_insert.
  - intros j Hj. rewrite length_app in Hj. simpl in Hj.
    destruct (decide (j = u + 1)) as [->|Hne].
    + rewrite list_lookup_insert_eq by lia.
      rewrite take_ge by (rewrite length_app; simpl; lia).
      rewrite concat_app. simpl. by rewrite app_nil_r.
    + rewrite list_lookup_insert_ne by lia.
      rewrite take_app_le by lia. apply Hhead. lia.
Qed.

Lemma rows_finish n pre adj edges head :
  (Z.of_nat n + 1 < 2 ^ 32)%Z → (Z.of_nat (length edges) < 2 ^ 32)%Z →
  rows_closed n pre adj edges head → length pre = n →
  adj = pre ∧ Graph.mk head edges n (length edges) = from_adj pre.
Proof.
  intros Hn Hm (Hle & -> & -> & Hlen & Hhead) Hpre.
  rewrite Hpre, Nat.sub_diag. simpl. rewrite app_nil_r. split; [done|].
  unfold from_adj. rewrite Hpre.
  rewrite (wrap32_small n) by lia. rewrite (wrap32_small (n + 1)) by lia.
  pose proof (csr_loop_upto pre Hm n 0 [] (replicate (n + 1) 0) ltac:(lia)) as Hup.
  destruct (csr_loop n 0 pre [] (replicate (n + 1) 0)) as [edges' head'] eqn:Hloop.
  simpl in Hup. destruct Hup as (Hedges & Hhl & Hhead').
  { split_and!; [done|rewrite length_replicate; lia|].
    intros j Hj. replace j with 0 by lia. by apply lookup_replicate_2; lia. }
  rewrite firstn_all in Hedges. subst edges'. f_equal.
  apply list_eq_same_length with (S n); [lia|lia|].
  intros j x y Hj Hx Hy. rewrite Hhead in Hx by lia. rewrite Hhead' in Hy by lia.
  congruence.
Qed.

(** ** [make_er] *)

Section MakeEr.
Context (n maxw : nat) (below : nat → bool) (draws : nat → Z).
Hypothesis n_fits : (Z.of_nat n * Z.of_nat n < 2 ^ 32)%Z.
Hypothesis n_succ_fits : (Z.of_nat n + 1 < 2 ^ 32)%Z.
Hypothesis maxw_pos : 0 < maxw.
Hypothesis maxw_fits : (Z.of_nat maxw < 2 ^ 32)%Z.

(** what a row of [make_er] looks like when the columns below [v] are done *)
Definition er_row_upto (u v : nat) (row : list Edge.t) : Prop :=
  Edge.to <$> row =
    filter (λ v', v' ≠ u ∧ below (pair_index n u v') = true) (seq 0 v) ∧
  Forall (λ e, 1 ≤ Edge.w e ≤ Z.of_nat maxw)%Z row.

Definition er_coin_at (u v : nat) : nat :=
  u * (n - 1) + v - (if decide (u < v) then 1 else 0).

Lemma er_row_upto_length u v row : er_row_upto u v row → length row ≤ v.
Proof.
  intros [Hto _]. apply (f_equal length) in Hto. rewrite length_fmap in Hto.
  rewrite Hto. etrans; [apply length_filter|]. by rewrite length_seq.
Qed.

Lemma er_pair_sim u v pre row st cst :
  rows_open n u pre row (er_adj st) (c_er_edges cst) (c_er_head cst) →
  er_coin st = c_er_coin cst → er_draw st = c_er_draw cst →
  er_coin st = er_coin_at u v → er_row_upto u v row →
  ∃ row' st' cst',
    cpp_er_pair maxw below draws u v st = Done st' ∧
    c_er_pair maxw below draws u v cst = Done cst' ∧
    rows_open n u pre row' (er_adj st') (c_er_edges cst') (c_er_head cst') ∧
    er_coin st' = c_er_coin cst' ∧ er_draw st' = c_er_draw cst' ∧
    er_coin st' = er_coin_at u (S v) ∧ er_row_upto u (S v) row'.
Proof.
  intros Hopen Hc Hd Hat [Hto Hw].
  unfold cpp_er_pair, c_er_pair, er_row_upto.
  rewrite seq_S, filter_app, filter_cons, filter_nil. simpl.
  destruct (decide (u = v)) as [->|Hne].
  { exists row, st, cst. split_and!; try done.
    - rewrite Hat. unfold er_coin_at. repeat case_decide; lia.
    - rewrite decide_False by (intros [? _]; done). by rewrite app_nil_r. }
  rewrite <- Hc, <- Hd.
  assert (Hnext : S (er_coin st) = er_coin_at u (S v)).
  { rewrite Hat. unfold er_coin_at. repeat case_decide; lia. }
  assert (Hidx : pair_index n u v = er_coin st) by (by rewrite Hat).
  destruct (below (er_coin st)) eqn:Hb.
  - destruct (rnd_w_range (draws (er_draw st)) maxw maxw_pos maxw_fits)
      as (w & -> & Hwr). simpl.
    eexists (row ++ [Edge.mk v w]), _, _. split_and!; try done; simpl.
    + by apply rows_push.
    + rewrite decide_True by (by rewrite Hidx). by rewrite fmap_app, Hto.
    + apply Forall_app. split; [done|]. by apply Forall_singleton.
  - eexists row, _, _. split_and!; try done; simpl.
    rewrite decide_False by (rewrite Hidx, Hb; intros [_ ?]; done).
    by rewrite app_nil_r.
Qed.

Lemma er_row_sim u cnt :
  ∀ v pre row st cst,
    rows_open n u pre row (er_adj st) (c_er_edges cst) (c_er_head cst) →
    er_coin st = c_er_coin cst → er_draw st = c_er_draw cst →
    er_coin st = er_coin_at u v → er_row_upto u v row →
    ∃ row' st' cst',
      cpp_er_row maxw below draws u cnt v st = Done st' ∧
      c_er_row maxw below draws u cnt v cst = Done cst' ∧
      rows_open n u pre row' (er_adj st') (c_er_edges cst') (c_er_head cst') ∧
      er_coin st' = c_er_coin cst' ∧ er_draw st' = c_er_draw cst' ∧
      er_coin st' = er_coin_at u (v + cnt) ∧ er_row_upto u (v + cnt) row'.
Proof.
  induction cnt as [|cnt IH]; intros v pre row st cst Hopen Hc Hd Hat Hrow; simpl.
  { exists row, st, cst. by rewrite Nat.add_0_r. }
  destruct (er_pair_sim u v pre row st cst Hopen Hc Hd Hat Hrow)
    as (row1 & st1 & cst1 & -> & -> & Hopen1 & Hc1 & Hd1 & Hat1 & Hrow1). simpl.
  replace (v + S cnt) with (S v + cnt) by lia. by apply (IH _ pre row1).
Qed.

(** the rows below [u] are done *)
Definition er_rows_upto (u : nat) (pre : list (list Edge.t)) : Prop :=
  length pre = u ∧ ∀ j, j < u → er_row_upto j n (pre !!! j).

Lemma concat_length_bound (pre : list (list Edge.t)) (k : nat) :
  (∀ j, j < length pre → length (pre !!! j) ≤ k) →
  length (concat pre) ≤ length pre * k.
Proof.
  induction pre as [|row pre IH]; intros Hall; simpl; [lia|].
  rewrite length_app. pose proof (Hall 0 ltac:(simpl; lia)) as H0. simpl in H0.
  assert (length (concat pre) ≤ length pre * k); [|lia].
  apply IH. intros j Hj. apply (Hall (S j)). simpl. lia.
Qed.

Lemma er_rows_sim cnt :
  ∀ u pre st cst,
    u + cnt = n →
    rows_closed n pre (er_adj st) (c_er_edges cst) (c_er_head cst) →
    er_coin st = c_er_coin cst → er_draw st = c_er_draw cst →
    er_coin st = u * (n - 1) → er_rows_upto u pre →
    ∃ pre' st' cst',
      cpp_er_rows n maxw below draws cnt u st = Done st' ∧
      c_er_rows n maxw below draws cnt u cst = Done cst' ∧
      rows_closed n pre' (er_adj st') (c_er_edges cst') (c_er_head cst') ∧
      er_rows_upto n pre'.
Proof.
  induction cnt as [|cnt IH]; intros u pre st cst Hu Hcl Hc Hd Hat Hpre; simpl.
  { exists pre, st, cst. assert (u = n) by lia. by subst u. }
  destruct Hpre as [Hlen Hrows].
  pose proof (rows_begin _ _ _ _ _ Hcl ltac:(lia)) as Hopen. rewrite Hlen in Hopen.
  destruct (er_row_sim u n 0 pre [] st cst Hopen Hc Hd) as
    (row & st1 & cst1 & -> & -> & Hopen1 & Hc1 & Hd1 & Hat1 & Hrow1).
  { rewrite Hat. unfold er_coin_at. rewrite decide_False by lia. lia. }
  { split; [done|constructor]. }
  simpl in *.
  assert (Hup : er_rows_upto (S u) (pre ++ [row])).
  { split; [rewrite length_app; simpl; lia|].
    intros j Hj. destruct (decide (j = u)) as [->|Hne].
    - by rewrite lookup_total_app_r, Hlen, Nat.sub_diag by lia.
    - rewrite lookup_total_app_l by lia. apply Hrows. lia. }
  assert (Hfit : (Z.of_nat (length (c_er_edges cst1)) < 2 ^ 32)%Z).
  { destruct Hopen1 as (_ & _ & _ & -> & _).
    pose proof (concat_length_bound (pre ++ [row]) n) as Hb.
    rewrite concat_app in Hb. simpl in Hb. rewrite app_nil_r in Hb.
    rewrite !length_app in Hb. simpl in Hb. rewrite length_app.
    assert (length (concat pre) + length row ≤ (length pre + 1) * n); [|nia].
    apply Hb. intros j Hj. destruct Hup as [_ Hup].
    eapply er_row_upto_length, Hup. lia. }
  destruct (rows_end _ _ _ _ _ _ _ n_succ_fits Hfit Hopen1) as (head' & -> & Hcl1).
  simpl.
  apply (IH (S u) (pre ++ [row]) st1 (mkCEr _ head' _ _)); simpl; try done; [lia|].
  rewrite Hat1. unfold er_coin_at. rewrite decide_True by lia. nia.
Qed.

Lemma make_er_rows :
  ∃ rows,
    cpp_make_er n maxw below draws = Done (from_adj rows) ∧
    c_make_er n maxw below draws = Done (from_adj rows) ∧
    length rows = n ∧
    (Z.of_nat (length (concat rows)) < 2 ^ 32)%Z ∧
    ∀ u, u < n → er_row_upto u n (rows !!! u).
Proof.
  unfold cpp_make_er, c_make_er. rewrite (wrap32_small (n + 1)) by lia.
  destruct (er_rows_sim n 0 [] (mkEr (replicate n []) 0 0)
              (mkCEr [] (replicate (n + 1) 0) 0 0))
    as (rows & st & cst & -> & -> & Hcl & Hlen & Hrows); simpl; try done.
  { apply rows_start. }
  { split; [done|]. intros j Hj. lia. }
  assert (Hfit : (Z.of_nat (length (concat rows)) < 2 ^ 32)%Z).
  { pose proof (concat_length_bound rows n) as Hb. rewrite Hlen in Hb.
    assert (length (concat rows) ≤ n * n); [|nia].
    apply Hb. intros j Hj. eapply er_row_upto_length, Hrows. done. }
  assert (Hedges : c_er_edges cst = concat rows) by (by destruct Hcl as (_ & _ & -> & _)).
  assert (Hfit' : (Z.of_nat (length (c_er_edges cst)) < 2 ^ 32)%Z)
    by (by rewrite Hedges).
  destruct (rows_finish _ _ _ _ _ n_succ_fits Hfit' Hcl Hlen) as [-> ->].
  exists rows. done.
Qed.

End MakeEr.

(** X15: [make_er] (C++, through [from_adj]) returns a well-formed CSR on
    [n] nodes in which the row of [u] lists, in increasing order, exactly
    the nodes [v != u] whose comparison came out below [p]; the row holds
    no self-loop and no target twice, and every weight lies in [1, maxw]. *)
Theorem make_er_rows_are_targets (n maxw : nat) (below : nat → bool) (draws : nat → Z) :
  (Z.of_nat n * Z.of_nat n < 2 ^ 32)%Z → (Z.of_nat n + 1 < 2 ^ 32)%Z →
  0 < maxw → (Z.of_nat maxw < 2 ^ 32)%Z →
  ∃ g, cpp_make_er n maxw below draws = Done g ∧
    Graph.n g = n ∧ csr_offsets g ∧
    ∀ u, u < n →
      Edge.to <$> csr_block g u = er_targets n below u ∧
      (u ∉ Edge.to <$> csr_block g u) ∧
      NoDup (Edge.to <$> csr_block g u) ∧
      Forall (λ e, 1 ≤ Edge.w e ≤ Z.of_nat maxw)%Z (csr_block g u).
Proof.
  intros Hnn Hn Hm Hm'.
  destruct (make_er_rows n maxw below draws Hnn Hn Hm Hm')
    as (rows & Hcpp & _ & Hlen & Hfit & Hrows).
  destruct (from_adj_csr rows ltac:(lia) Hfit) as (Hgn & Hoff & Hblock).
  exists (from_adj rows). split_and!; [done|by rewrite Hgn|done|].
  intros u Hu. rewrite Hblock by lia. destruct (Hrows u Hu) as [Hto Hw].
  assert (Htargets : Edge.to <$> rows !!! u = er_targets n below u) by done.
  rewrite Htargets. split_and!; [done| | |done].
  - unfold er_targets. intros [[Hne _] _]%list_elem_of_filter. done.
  - apply NoDup_filter, NoDup_seq.
Qed.

Lemma make_er_rows_are_targets_witness :
  ∃ g, cpp_make_er 3 5 (λ i, Nat.even i) (λ i, Z.of_nat i + 7)%Z = Done g ∧
    Graph.n g = 3 ∧ csr_offsets g ∧
    ∀ u, u < 3 →
      Edge.to <$> csr_block g u = er_targets 3 (λ i, Nat.even i) u ∧
      (u ∉ Edge.to <$> csr_block g u) ∧
      NoDup (Edge.to <$> csr_block g u) ∧
      Forall (λ e, 1 ≤ Edge.w e ≤ Z.of_nat 5)%Z (csr_block g u).
Proof.
  apply (make_er_rows_are_targets 3 5 (λ i, Nat.even i) (λ i, Z.of_nat i + 7)%Z);
    [reflexivity|reflexivity|lia|reflexivity].
Defined.

(** X16: given the same outcomes of the comparisons and the same draws,
    [make_er] of the C program returns the graph [make_er] of the C++
    program returns: appending to the edge array and closing [head[u+1]]
    after each row lays the edges out as [from_adj] does. *)
Theorem make_er_c_is_cpp (n maxw : nat) (below : nat → bool) (draws : nat → Z) :
  (Z.of_nat n * Z.of_nat n < 2 ^ 32)%Z → (Z.of_nat n + 1 < 2 ^ 32)%Z →
  0 < maxw → (Z.of_nat maxw < 2 ^ 32)%Z →
  ∃ g, c_make_er n maxw below draws = Done g ∧
       cpp_make_er n maxw below draws = Done g.
Proof.
  intros Hnn Hn Hm Hm'.
  destruct (make_er_rows n maxw below draws Hnn Hn Hm Hm')
    as (rows & Hcpp & Hc & _).
  by exists (from_adj rows).
Qed.

Lemma make_er_c_is_cpp_witness :
  ∃ g, c_make_er 3 5 (λ i, Nat.even i) (λ i, Z.of_nat i + 7)%Z = Done g ∧
       cpp_make_er 3 5 (λ i, Nat.even i) (λ i, Z.of_nat i + 7)%Z = Done g.
Proof.
  apply (make_er_c_is_cpp 3 5 (λ i, Nat.even i) (λ i, Z.of_nat i + 7)%Z);
    [reflexivity|reflexivity|lia|reflexivity].
Defined.

(** ** [make_ba] *)

Lemma ba_start_agree (n m0 : nat) :
  n ≠ 0 ∨ m0 ≠ 0 → c_ba_start n m0 = cpp_ba_start n m0.
Proof.
  intros H. unfold c_ba_start, cpp_ba_start. repeat case_decide; lia.
Qed.

Lemma ba_target_le (draws : nat → Z) (u : nat) (ends : list nat) (draw : nat) :
  Forall (λ x, x ≤ u) ends → (ba_target draws u ends draw).1 ≤ u.
Proof.
  intros Hends. unfold ba_target.
  destruct (decide (length ends = 0)) as [Hz|Hnz].
  - destruct (decide (u = 0)) as [->|Hu]; simpl; [done|].
    pose proof (wrap32_le (Z.to_nat (draws draw mod Z.of_nat u))).
    pose proof (Z.mod_pos_bound (draws draw) (Z.of_nat u) ltac:(lia)). lia.
  - simpl.
    pose proof (Z.mod_pos_bound (draws draw) (Z.of_nat (length ends)) ltac:(lia)) as Hb.
    eapply (Forall_lookup_1 _ _ _ _ Hends), list_lookup_lookup_total_lt. lia.
Qed.

Section MakeBa.
Context (n start m_each maxw : nat) (draws : nat → Z).
Hypothesis start_le : start ≤ n.
Hypothesis n_succ_fits : (Z.of_nat n + 1 < 2 ^ 32)%Z.
Hypothesis edges_fit :
  (Z.of_nat start * Z.of_nat start + Z.of_nat n * Z.of_nat m_each < 2 ^ 32)%Z.
Hypothesis maxw_pos : 0 < maxw.
Hypothesis maxw_fits : (Z.of_nat maxw < 2 ^ 32)%Z.

(** the two states hold the same graph, the same [ends] and the same
    position in the stream of draws while the row of [u] grows *)
Definition ba_rel (u : nat) (pre : list (list Edge.t)) (row : list Edge.t)
    (st : ba_state) (cst : c_ba_state) : Prop :=
  rows_open n u pre row (ba_adj st) (c_ba_edges cst) (c_ba_head cst) ∧
  ba_ends st = c_ba_ends cst ∧ ba_draw st = c_ba_draw cst ∧
  Forall (λ x, x ≤ u) (ba_ends st).

Definition clique_row_upto (u v : nat) (row : list Edge.t) : Prop :=
  Edge.to <$> row = filter (λ v', v' ≠ u) (seq 0 v) ∧
  Forall (λ e, 1 ≤ Edge.w e ≤ Z.of_nat maxw)%Z row.

Definition grown_row_upto (u j : nat) (row : list Edge.t) : Prop :=
  length row = j ∧ Forall (λ e, Edge.to e ≤ u) row ∧
  Forall (λ e, 1 ≤ Edge.w e ≤ Z.of_nat maxw)%Z row.

(** the row [make_ba] gives the node [u] *)
Definition ba_row (u : nat) (row : list Edge.t) : Prop :=
  if decide (u < start) then clique_row_upto u start row
  else grown_row_upto u m_each row.

Lemma clique_row_upto_length u v row : clique_row_upto u v row → length row ≤ v.
Proof.
  intros [Hto _]. apply (f_equal length) in Hto. rewrite length_fmap in Hto.
  rewrite Hto. etrans; [apply length_filter|]. by rewrite length_seq.
Qed.

Lemma clique_pair_sim u v pre row st cst :
  ba_rel u pre row st cst → clique_row_upto u v row →
  ∃ row' st' cst',
    cpp_clique_pair maxw draws u v st = Done st' ∧
    c_clique_pair maxw draws u v cst = Done cst' ∧
    ba_rel u pre row' st' cst' ∧ clique_row_upto u (S v) row'.
Proof.
  intros (Hopen & He & Hd & Hends) [Hto Hw].
  unfold cpp_clique_pair, c_clique_pair, clique_row_upto.
  rewrite seq_S, filter_app, filter_cons, filter_nil. simpl.
  destruct (decide (u = v)) as [->|Hne].
  { exists row, st, cst. split_and!; try done.
    rewrite decide_False by (intros ?; done). by rewrite app_nil_r. }
  rewrite <- He, <- Hd.
  destruct (rnd_w_range (draws (ba_draw st)) maxw maxw_pos maxw_fits)
    as (w & -> & Hwr). simpl.
  eexists (row ++ [Edge.mk v w]), _, _. split_and!; try done; simpl.
  - split_and!; simpl; try done; [by apply rows_push|].
    apply Forall_app. split; [done|]. by apply Forall_singleton.
  - rewrite decide_True by done. by rewrite fmap_app, Hto.
  - apply Forall_app. split; [done|]. by apply Forall_singleton.
Qed.

Lemma clique_row_sim u cnt :
  ∀ v pre row st cst,
    ba_rel u pre row st cst → clique_row_upto u v row →
    ∃ row' st' cst',
      cpp_clique_row maxw draws u cnt v st = Done st' ∧
      c_clique_row maxw draws u cnt v cst = Done cst' ∧
      ba_rel u pre row' st' cst' ∧ clique_row_upto u (v + cnt) row'.
Proof.
  induction cnt as [|cnt IH]; intros v pre row st cst Hrel Hrow; simpl.
  { exists row, st, cst. by rewrite Nat.add_0_r. }
  destruct (clique_pair_sim u v pre row st cst Hrel Hrow)
    as (row1 & st1 & cst1 & -> & -> & Hrel1 & Hrow1). simpl.
  replace (v + S cnt) with (S v + cnt) by lia. by apply (IH _ pre row1).
Qed.

Lemma ba_step_sim u j pre row st cst :
  ba_rel u pre row st cst → grown_row_upto u j row →
  ∃ row' st' cst',
    cpp_ba_step maxw draws u st = Done st' ∧
    c_ba_step maxw draws u cst = Done cst' ∧
    ba_rel u pre row' st' cst' ∧ grown_row_upto u (S j) row'.
Proof.
  intros (Hopen & He & Hd & Hends) (Hlen & Hto & Hw).
  unfold cpp_ba_step, c_ba_step. rewrite <- He, <- Hd.
  pose proof (ba_target_le draws u (ba_ends st) (ba_draw st) Hends) as Ht.
  destruct (ba_target draws u (ba_ends st) (ba_draw st)) as [t d]. simpl in Ht.
  destruct (rnd_w_range (draws d) maxw maxw_pos maxw_fits) as (w & -> & Hwr). simpl.
  eexists (row ++ [Edge.mk t w]), _, _. split_and!; try done; simpl.
  - split_and!; simpl; try done; [by apply rows_push|].
    apply Forall_app. split; [done|]. by repeat constructor.
  - split_and!.
    + rewrite length_app. simpl. lia.
    + apply Forall_app. split; [done|]. by apply Forall_singleton.
    + apply Forall_app. split; [done|]. by apply Forall_singleton.
Qed.

Lemma ba_row_sim u cnt :
  ∀ j pre row st cst,
    ba_rel u pre row st cst → grown_row_upto u j row →
    ∃ row' st' cst',
      cpp_ba_row maxw draws u cnt st = Done st' ∧
      c_ba_row maxw draws u cnt cst = Done cst' ∧
      ba_rel u pre row' st' cst' ∧ grown_row_upto u (j + cnt) row'.
Proof.
  induction cnt as [|cnt IH]; intros j pre row st cst Hrel Hrow; simpl.
  { exists row, st, cst. by rewrite Nat.add_0_r. }
  destruct (ba_step_sim u j pre row st cst Hrel Hrow)
    as (row1 & st1 & cst1 & -> & -> & Hrel1 & Hrow1). simpl.
  replace (j + S cnt) with (S j + cnt) by lia. by apply (IH _ pre row1).
Qed.

(** the rows below [u] are done *)
Definition ba_rows_upto (u : nat) (pre : list (list Edge.t)) : Prop :=
  length pre = u ∧ (∀ j, j < u → ba_row j (pre !!! j)) ∧
  length (concat pre) ≤ Nat.min u start * start + (u - start) * m_each.

(** between two rows *)
Definition ba_between (u : nat) (pre : list (list Edge.t))
    (st : ba_state) (cst : c_ba_state) : Prop :=
  rows_closed n pre (ba_adj st) (c_ba_edges cst) (c_ba_head cst) ∧
  ba_ends st = c_ba_ends cst ∧ ba_draw st = c_ba_draw cst ∧
  Forall (λ x, x ≤ u) (ba_ends st) ∧
  ba_rows_upto u pre.

Lemma ba_close u pre row st cst :
  ba_rows_upto u pre → u < n →
  ba_rel u pre row st cst → ba_row u row →
  ∃ head', set_head u (c_ba_edges cst) (c_ba_head cst) = Done head' ∧
    ba_between (S u) (pre ++ [row]) st
      (mkCBa (c_ba_edges cst) head' (c_ba_ends cst) (c_ba_draw cst)).
Proof.
  intros (Hlen & Hrows & Hsum) Hu (Hopen & He & Hd & Hends) Hrow.
  assert (Hrl : length row ≤ if decide (u < start) then start else m_each).
  { unfold ba_row in Hrow. destruct (decide (u < start)).
    - by apply clique_row_upto_length in Hrow.
    - destruct Hrow as (-> & _). done. }
  assert (Hnew : length (concat (pre ++ [row])) ≤
                 Nat.min (S u) start * start + (S u - start) * m_each).
  { rewrite concat_app, length_app. cbn [concat]. rewrite app_nil_r.
    destruct (decide (u < start)).
    - replace (Nat.min (S u) start) with (S u) by lia.
      replace (Nat.min u start) with u in Hsum by lia.
      replace (S u - start) with 0 by lia. replace (u - start) with 0 in Hsum by lia.
      nia.
    - replace (Nat.min (S u) start) with start by lia.
      replace (Nat.min u start) with start in Hsum by lia.
      replace (S u - start) with (S (u - start)) by lia. nia. }
  assert (Hfit : (Z.of_nat (length (c_ba_edges cst)) < 2 ^ 32)%Z).
  { destruct Hopen as (_ & _ & _ & Hedges & _). rewrite Hedges.
    rewrite concat_app, length_app in Hnew. cbn [concat] in Hnew.
    rewrite app_nil_r in Hnew. rewrite length_app.
    assert (Nat.min (S u) start * start ≤ start * start) by nia.
    assert ((S u - start) * m_each ≤ n * m_each) by nia.
    nia. }
  destruct (rows_end _ _ _ _ _ _ _ n_succ_fits Hfit Hopen) as (head' & -> & Hcl).
  eexists. split; [done|]. split_and!; simpl; try done.
  - eapply Forall_impl; [exact Hends|]. simpl. lia.
  - split_and!; [rewrite length_app; simpl; lia| |done].
    intros j Hj. destruct (decide (j = u)) as [->|Hne].
    + by rewrite lookup_total_app_r, Hlen, Nat.sub_diag by lia.
    + rewrite lookup_total_app_l by lia. apply Hrows. lia.
Qed.

Lemma ba_open u pre st cst :
  ba_between u pre st cst → u < n → ba_rel u pre [] st cst.
Proof.
  intros (Hcl & He & Hd & Hends & Hlen & _) Hu.
  split_and!; try done. rewrite <- Hlen. apply rows_begin; [done|lia].
Qed.

Lemma clique_rows_sim cnt :
  ∀ u pre st cst,
    u + cnt = start → ba_between u pre st cst →
    ∃ pre' st' cst',
      cpp_clique_rows start maxw draws cnt u st = Done st' ∧
      c_clique_rows start maxw draws cnt u cst = Done cst' ∧
      ba_between start pre' st' cst'.
Proof.
  induction cnt as [|cnt IH]; intros u pre st cst Hu Hbt; simpl.
  { exists pre, st, cst. assert (u = start) by lia. by subst u. }
  pose proof (ba_open u pre st cst Hbt ltac:(lia)) as Hrel.
  destruct (clique_row_sim u start 0 pre [] st cst Hrel) as
    (row & st1 & cst1 & -> & -> & Hrel1 & Hrow1).
  { split; [done|constructor]. }
  simpl in *.
  destruct (ba_close u pre row st1 cst1) as (head' & -> & Hbt1); try done.
  { by destruct Hbt as (_ & _ & _ & _ & ?). }
  { lia. }
  { unfold ba_row. by rewrite decide_True by lia. }
  simpl. apply (IH (S u) (pre ++ [row])); [lia|done].
Qed.

Lemma ba_rows_sim cnt :
  ∀ u pre st cst,
    start ≤ u → u + cnt = n → ba_between u pre st cst →
    ∃ pre' st' cst',
      cpp_ba_rows m_each maxw draws cnt u st = Done st' ∧
      c_ba_rows m_each maxw draws cnt u cst = Done cst' ∧
      ba_between n pre' st' cst'.
Proof.
  induction cnt as [|cnt IH]; intros u pre st cst Hs Hu Hbt; simpl.
  { exists pre, st, cst. assert (u = n) by lia. by subst u. }
  pose proof (ba_open u pre st cst Hbt ltac:(lia)) as Hrel.
  destruct (ba_row_sim u m_each 0 pre [] st cst Hrel) as
    (row & st1 & cst1 & -> & -> & Hrel1 & Hrow1).
  { split_and!; [done|constructor|constructor]. }
  simpl in *.
  destruct (ba_close u pre row st1 cst1) as (head' & -> & Hbt1); try done.
  { by destruct Hbt as (_ & _ & _ & _ & ?). }
  { lia. }
  { unfold ba_row. by rewrite decide_False by lia. }
  simpl. apply (IH (S u) (pre ++ [row])); [lia|lia|done].
Qed.

(** the two loops of [make_ba], from the empty graph *)
Lemma make_ba_loops :
  ∃ rows st cst,
    (cpp_clique_rows start maxw draws start 0 (mkBa (replicate n []) [] 0) ≫=
       cpp_ba_rows m_each maxw draws (n - start) start) = Done st ∧
    (c_clique_rows start maxw draws start 0
       (mkCBa [] (replicate (n + 1) 0) [] 0) ≫=
       c_ba_rows m_each maxw draws (n - start) start) = Done cst ∧
    ba_adj st = rows ∧
    Graph.mk (c_ba_head cst) (c_ba_edges cst) n (length (c_ba_edges cst)) =
      from_adj rows ∧
    length rows = n ∧
    (Z.of_nat (length (concat rows)) < 2 ^ 32)%Z ∧
    ∀ u, u < n → ba_row u (rows !!! u).
Proof.
  destruct (clique_rows_sim start 0 [] (mkBa (replicate n []) [] 0)
              (mkCBa [] (replicate (n + 1) 0) [] 0))
    as (pre1 & st1 & cst1 & -> & -> & Hbt1); [done| |].
  { split_and!; simpl; try done; [apply rows_start|].
    split_and!; simpl; [done|by intros j Hj; lia|lia]. }
  simpl.
  destruct (ba_rows_sim (n - start) start pre1 st1 cst1)
    as (rows & st & cst & -> & -> & Hbt); [done|lia|done|].
  destruct Hbt as (Hcl & _ & _ & _ & Hlen & Hrows & Hsum).
  assert (Hfit : (Z.of_nat (length (concat rows)) < 2 ^ 32)%Z).
  { assert (Nat.min n start * start ≤ start * start) by nia.
    assert ((n - start) * m_each ≤ n * m_each) by nia. nia. }
  assert (Hedges : c_ba_edges cst = concat rows) by (by destruct Hcl as (_ & _ & -> & _)).
  assert (Hfit' : (Z.of_nat (length (c_ba_edges cst)) < 2 ^ 32)%Z)
    by (by rewrite Hedges).
  destruct (rows_finish _ _ _ _ _ n_succ_fits Hfit' Hcl Hlen) as [Hadj Hg].
  exists rows, st, cst. done.
Qed.

End MakeBa.

(** X17: [make_ba] (C++) returns a well-formed CSR on [n] nodes: a node
    [u] below [start = min(max(m0, 1), n)] has the other nodes below
    [start] as its targets, in increasing order; every later node has
    exactly [m_each] edges, none of them to a node after it; every weight
    lies in [1, maxw]. *)
Theorem make_ba_rows (n m0 m_each maxw : nat) (draws : nat → Z) :
  (Z.of_nat n + 1 < 2 ^ 32)%Z →
  (Z.of_nat (cpp_ba_start n m0) * Z.of_nat (cpp_ba_start n m0) +
   Z.of_nat n * Z.of_nat m_each < 2 ^ 32)%Z →
  0 < maxw → (Z.of_nat maxw < 2 ^ 32)%Z →
  ∃ g, cpp_make_ba n m0 m_each maxw draws = Done g ∧
    Graph.n g = n ∧ csr_offsets g ∧
    (∀ u, u < cpp_ba_start n m0 →
       Edge.to <$> csr_block g u = filter (λ v, v ≠ u) (seq 0 (cpp_ba_start n m0))) ∧
    (∀ u, cpp_ba_start n m0 ≤ u < n →
       length (csr_block g u) = m_each ∧
       Forall (λ e, Edge.to e ≤ u) (csr_block g u)) ∧
    (∀ u, u < n →
       Forall (λ e, 1 ≤ Edge.w e ≤ Z.of_nat maxw)%Z (csr_block g u)).
Proof.
  set (start := cpp_ba_start n m0). intros Hn Hfits Hm Hm'.
  assert (Hs : start ≤ n) by (unfold start, cpp_ba_start; lia).
  destruct (make_ba_loops n start m_each maxw draws Hs Hn Hfits Hm Hm')
    as (rows & st & cst & Hcpp & _ & Hadj & _ & Hlen & Hfit & Hrows).
  destruct (from_adj_csr rows ltac:(lia) Hfit) as (Hgn & Hoff & Hblock).
  exists (from_adj rows). unfold cpp_make_ba. fold start.
  rewrite <- Hadj. split_and!.
  - apply bind_Done in Hcpp as (st1 & -> & Hcpp). simpl. by rewrite Hcpp.
  - by rewrite Hadj, Hgn.
  - by rewrite Hadj.
  - intros u Hu. rewrite Hadj, Hblock by lia.
    pose proof (Hrows u ltac:(lia)) as Hrow. unfold ba_row in Hrow.
    rewrite decide_True in Hrow by done. by destruct Hrow.
  - intros u Hu. rewrite Hadj, Hblock by lia.
    pose proof (Hrows u ltac:(lia)) as Hrow. unfold ba_row in Hrow.
    rewrite decide_False in Hrow by lia. by destruct Hrow as (? & ? & _).
  - intros u Hu. rewrite Hadj, Hblock by lia.
    pose proof (Hrows u ltac:(lia)) as Hrow. unfold ba_row in Hrow.
    destruct (decide (u < start)); [by destruct Hrow|by destruct Hrow as (_ & _ & ?)].
Qed.

Lemma make_ba_rows_witness :
  ∃ g, cpp_make_ba 5 2 2 9 (λ i, Z.of_nat (3 * i + 1)) = Done g ∧
    Graph.n g = 5 ∧ csr_offsets g ∧
    (∀ u, u < cpp_ba_start 5 2 →
       Edge.to <$> csr_block g u = filter (λ v, v ≠ u) (seq 0 (cpp_ba_start 5 2))) ∧
    (∀ u, cpp_ba_start 5 2 ≤ u < 5 →
       length (csr_block g u) = 2 ∧ Forall (λ e, Edge.to e ≤ u) (csr_block g u)) ∧
    (∀ u, u < 5 → Forall (λ e, 1 ≤ Edge.w e ≤ Z.of_nat 9)%Z (csr_block g u)).
Proof.
  apply (make_ba_rows 5 2 2 9 (λ i, Z.of_nat (3 * i + 1)));
    [reflexivity|reflexivity|lia|reflexivity].
Defined.

(** X18: given the same draws, and unless [n] and [m0] are both 0,
    [make_ba] of the C program returns the graph [make_ba] of the C++
    program returns. *)
Theorem make_ba_c_is_cpp (n m0 m_each maxw : nat) (draws : nat → Z) :
  (Z.of_nat n + 1 < 2 ^ 32)%Z →
  (Z.of_nat (cpp_ba_start n m0) * Z.of_nat (cpp_ba_start n m0) +
   Z.of_nat n * Z.of_nat m_each < 2 ^ 32)%Z →
  0 < maxw → (Z.of_nat maxw < 2 ^ 32)%Z →
  n ≠ 0 ∨ m0 ≠ 0 →
  ∃ g, c_make_ba n m0 m_each maxw draws = Done g ∧
       cpp_make_ba n m0 m_each maxw draws = Done g.
Proof.
  set (start := cpp_ba_start n m0). intros Hn Hfits Hm Hm' Hnz.
  assert (Hs : start ≤ n) by (unfold start, cpp_ba_start; lia).
  destruct (make_ba_loops n start m_each maxw draws Hs Hn Hfits Hm Hm')
    as (rows & st & cst & Hcpp & Hc & Hadj & Hg & _).
  exists (from_adj rows). unfold c_make_ba, cpp_make_ba.
  rewrite (ba_start_agree n m0 Hnz). fold start.
  rewrite (wrap32_small (n + 1)) by lia. split.
  - apply bind_Done in Hc as (cst1 & -> & Hc). simpl. rewrite Hc. simpl.
    by rewrite Hg.
  - apply bind_Done in Hcpp as (st1 & -> & Hcpp). simpl. rewrite Hcpp. simpl.
    by rewrite Hadj.
Qed.

Lemma make_ba_c_is_cpp_witness :
  ∃ g, c_make_ba 5 2 2 9 (λ i, Z.of_nat (3 * i + 1)) = Done g ∧
       cpp_make_ba 5 2 2 9 (λ i, Z.of_nat (3 * i + 1)) = Done g.
Proof.
  apply (make_ba_c_is_cpp 5 2 2 9 (λ i, Z.of_nat (3 * i + 1)));
    [reflexivity|reflexivity|lia|reflexivity|lia].
Defined.

(** X19: [make_ba] of the C program writes outside [head] exactly when
    [n] and [m0] are both 0: it then takes [start = 1] and sets [head[1]]
    of a [head] of one entry.  (C++ takes [start = 0] there.) *)
Theorem make_ba_c_undefined (n m0 m_each maxw : nat) (draws : nat → Z) :
  (Z.of_nat n + 1 < 2 ^ 32)%Z →
  (Z.of_nat (cpp_ba_start n m0) * Z.of_nat (cpp_ba_start n m0) +
   Z.of_nat n * Z.of_nat m_each < 2 ^ 32)%Z →
  0 < maxw → (Z.of_nat maxw < 2 ^ 32)%Z →
  c_make_ba n m0 m_each maxw draws = Undefined ↔ n = 0 ∧ m0 = 0.
Proof.
  set (start := cpp_ba_start n m0). intros Hn Hfits Hm Hm'. split.
  - intros Hund.
    destruct (decide (n = 0)) as [Hn0|Hn0];
      [destruct (decide (m0 = 0)) as [Hm0|Hm0]; [done|]|].
    all: exfalso.
    all: assert (Hnz : n ≠ 0 ∨ m0 ≠ 0) by tauto.
    all: assert (Hs : start ≤ n) by (unfold start, cpp_ba_start; lia).
    all: destruct (make_ba_loops n start m_each maxw draws Hs Hn Hfits Hm Hm')
           as (rows & st & cst & _ & Hc & _).
    all: unfold c_make_ba in Hund.
    all: rewrite (ba_start_agree n m0 Hnz) in Hund; fold start in Hund.
    all: rewrite (wrap32_small (n + 1)) in Hund by lia.
    all: apply bind_Done in Hc as (cst1 & Hc1 & Hc).
    all: rewrite Hc1 in Hund; simpl in Hund; rewrite Hc in Hund; done.
  - intros [-> ->]. done.
Qed.

Lemma make_ba_c_undefined_witness :
  c_make_ba 0 0 3 9 (λ i, Z.of_nat i) = Undefined.
Proof.
  apply (make_ba_c_undefined 0 0 3 9 (λ i, Z.of_nat i));
    [reflexivity|reflexivity|lia|reflexivity|split; reflexivity].
Defined.
